(** * VocabMaster: the mistake tracker, the word store, the reading importer
      and the reading submission, embedded from the request handlers.

    The service is an Express application over one SQLite file.  Three copies
    of the server live in the repository:
    - [src/unnamed/part_000]: the full server (words with exposure and
      familiarity, mistakes with a correct streak, reading passages);
    - [src/server.js], first half: a copy whose mistakes table has a unique
      index on [word_id] and no streak column, whose [update-stats] lowers
      familiarity on a wrong answer and whose [PUT /api/words/:id] looks for
      an equal [english] first;
    - [src/server.js], second half: an older copy of the first server without
      reading passages.

    A handler is embedded as a function from the request and the store to a
    reply and the next store; the callbacks of one request run in the order
    in which the handler chains them, one request at a time, a request being
    over when all its statements have run.  Where a handler queues several
    statements at once outside [db.serialize] (the reading import), their
    order and the moment of the reply are a parameter of the handler.  A
    string is bound to a statement as its UTF-8 text ([Js.TEXT]). *)

From Stdlib Require Import ZArith NArith List Bool Lia.
From Stdlib Require Import Strings.Ascii Strings.String DecimalString.
From Stdlib Require Import Floats.PrimFloat Floats.FloatOps Floats.SpecFloat Floats.FloatAxioms Uint63.
From stdpp Require Import base option list gmap.

Set Default Proof Using "Type".

(* ===================================================================== *)
(** * JavaScript strings *)
(* ===================================================================== *)

(** A JavaScript string is a sequence of UTF-16 code units. *)
Abbreviation jsstring := (list N).

Module Js.

(** The code units of an ASCII literal of the source. *)
Definition lit (s : string) : jsstring :=
  List.map N_of_ascii (list_ascii_of_string s).

(** [WhiteSpace] and [LineTerminator] of ECMAScript: what [\s] matches and
    what [trim] strips. *)
Definition is_space (c : N) : bool :=
  ((9 <=? c) && (c <=? 13) || (c =? 32) || (c =? 160) || (c =? 5760)
   || (8192 <=? c) && (c <=? 8202) || (c =? 8232) || (c =? 8233)
   || (c =? 8239) || (c =? 8287) || (c =? 12288) || (c =? 65279))%N.

(** [\d]: the ten ASCII digits. *)
Definition is_digit (c : N) : bool := ((48 <=? c) && (c <=? 57))%N.

Fixpoint trimStart (s : jsstring) : jsstring :=
  match s with
  | c :: s' => if is_space c then trimStart s' else s
  | [] => []
  end.

Definition trimEnd (s : jsstring) : jsstring := rev (trimStart (rev s)).

Definition trim (s : jsstring) : jsstring := trimEnd (trimStart s).

(** [s.split('\n')]: the pieces between line feeds, in order; the empty
    string gives one empty piece. *)
Fixpoint split_lines (s : jsstring) : list jsstring :=
  match s with
  | [] => [[]]
  | c :: s' =>
      if (c =? 10)%N then [] :: split_lines s'
      else match split_lines s' with
           | l :: ls => (c :: l) :: ls
           | [] => [[c]]
           end
  end.

(** [a.join('\n')]. *)
Fixpoint join_lines (a : list jsstring) : jsstring :=
  match a with
  | [] => []
  | [l] => l
  | l :: ls => l ++ 10%N :: join_lines ls
  end.

(** [a.slice(1)]. *)
Definition slice1 {A} (a : list A) : list A := List.tl a.

(** [n.toString()] of a non-negative integer: its decimal digits. *)
Definition toString (n : nat) : jsstring :=
  lit (NilZero.string_of_uint (Nat.to_uint n)).

(** A string is falsy exactly when it is empty. *)
Definition truthy (s : jsstring) : bool :=
  match s with [] => false | _ => true end.

(** The two halves of a surrogate pair. *)
Definition is_high (c : N) : bool := ((0xD800 <=? c) && (c <=? 0xDBFF))%N.
Definition is_low (c : N) : bool := ((0xDC00 <=? c) && (c <=? 0xDFFF))%N.

(** A string as a statement of SQLite receives it, and as a query returns
    it: node-sqlite3 binds a string as UTF-8, in which a surrogate without
    its partner becomes U+FFFD; SQLite compares, lower-cases and stores that
    text, and what is read back is decoded from it. *)
Fixpoint TEXT (s : jsstring) : jsstring :=
  match s with
  | [] => []
  | h :: s' =>
      if is_high h then
        match s' with
        | l :: s'' => if is_low l then h :: l :: TEXT s'' else 0xFFFD%N :: TEXT s'
        | [] => [0xFFFD%N]
        end
      else if is_low h then 0xFFFD%N :: TEXT s'
      else h :: TEXT s'
  end.

(** A string without lone surrogates is its own text. *)
Definition well_formed (s : jsstring) : Prop := TEXT s = s.

End Js.

(* ===================================================================== *)
(** * Regular expressions, as the backtracking matcher of ECMAScript runs them *)
(* ===================================================================== *)

Module Re.

(** The syntax the three patterns of the importer need.  Capturing groups
    carry their number (the order of their opening parenthesis); none of
    them sits under a quantifier. *)
Inductive regex : Type :=
| Empty                          (* the empty pattern *)
| Class (p : N -> bool)          (* one code unit of a class: a literal, [.、], \d, \s, or . under the s flag *)
| Seq (r1 r2 : regex)            (* r1 r2 *)
| Alt (r1 r2 : regex)            (* r1|r2, r1 tried first *)
| Star (r : regex)               (* r*, greedy *)
| Lazy (r : regex)               (* r*?, lazy *)
| Group (i : nat) (r : regex)    (* (r), capture number i *)
| Ahead (r : regex)              (* (?=r) *)
| AtEnd.                         (* $ without the m flag *)

(** The captures of a match: group number to captured text. *)
Abbreviation captures := (gmap nat jsstring).

(** The iterations of a quantifier whose atom runs as [body]: [n] bounds
    their number by the code units left, since an iteration that takes no
    code unit is not considered, as in ECMAScript.  The greedy quantifier
    tries one more iteration before the rest of the pattern [k]; the lazy one
    tries [k] first. *)
Fixpoint greedy_loop {R : Type}
    (body : jsstring -> captures -> (jsstring -> captures -> option R) -> option R)
    (k : jsstring -> captures -> option R)
    (n : nat) (s : jsstring) (c : captures) : option R :=
  match n with
  | O => k s c
  | S n' =>
      match body s c (fun s1 c1 =>
              if length s1 <? length s then greedy_loop body k n' s1 c1 else None) with
      | Some x => Some x
      | None => k s c
      end
  end.

Fixpoint lazy_loop {R : Type}
    (body : jsstring -> captures -> (jsstring -> captures -> option R) -> option R)
    (k : jsstring -> captures -> option R)
    (n : nat) (s : jsstring) (c : captures) : option R :=
  match n with
  | O => k s c
  | S n' =>
      match k s c with
      | Some x => Some x
      | None =>
          body s c (fun s1 c1 =>
            if length s1 <? length s then lazy_loop body k n' s1 c1 else None)
      end
  end.

(** [run r s c k]: match [r] at the head of the remaining input [s] with
    captures [c], then continue with [k]; the first success in the matcher's
    order of choices is the answer. *)
Fixpoint run {R : Type} (r : regex) (s : jsstring) (c : captures)
    (k : jsstring -> captures -> option R) : option R :=
  match r with
  | Empty => k s c
  | Class p =>
      match s with
      | x :: s' => if p x then k s' c else None
      | [] => None
      end
  | Seq r1 r2 => run r1 s c (fun s1 c1 => run r2 s1 c1 k)
  | Alt r1 r2 =>
      match run r1 s c k with
      | Some x => Some x
      | None => run r2 s c k
      end
  | Star r1 => greedy_loop (run r1) k (length s) s c
  | Lazy r1 => lazy_loop (run r1) k (length s) s c
  | Group i r1 =>
      run r1 s c (fun s1 c1 => k s1 (<[i := take (length s - length s1) s]> c1))
  | Ahead r1 =>
      match run r1 s c (fun _ c1 => Some c1) with
      | Some c1 => k s c1
      | None => None
      end
  | AtEnd =>
      match s with
      | [] => k s c
      | _ :: _ => None
      end
  end.

(** A pattern every match of which takes at least one code unit. *)
Fixpoint consuming (r : regex) : bool :=
  match r with
  | Class _ => true
  | Seq r1 r2 => consuming r1 || consuming r2
  | Alt r1 r2 => consuming r1 && consuming r2
  | Group _ r1 => consuming r1
  | _ => false
  end.

(** A match that starts exactly at the head of [s]: what is left of the input
    after it, and its captures. *)
Definition match_here (r : regex) (s : jsstring) : option (jsstring * captures) :=
  run r s ∅ (fun s' c' => Some (s', c')).

(** [r.exec(text)] for a global pattern, [s] being the text from [lastIndex]
    on: the first index at or after [lastIndex] where [r] matches (the end of
    the text included); the rest of the text after the match is where
    [lastIndex] is left. *)
Fixpoint exec (r : regex) (s : jsstring) : option (jsstring * captures) :=
  match match_here r s with
  | Some m => Some m
  | None =>
      match s with
      | [] => None
      | _ :: s' => exec r s'
      end
  end.

(** [while ((match = r.exec(text)) !== null) { ... }]: the captures of the
    successive matches.  A match that takes no code unit leaves [lastIndex]
    where it was, and the loop of the source then never ends: [None]. *)
Fixpoint exec_loop (n : nat) (r : regex) (s : jsstring) : option (list captures) :=
  match exec r s with
  | None => Some []
  | Some (rest, c) =>
      match n with
      | O => None
      | S n' =>
          if length rest <? length s
          then option_map (cons c) (exec_loop n' r rest)
          else None
      end
  end.

Definition exec_all (r : regex) (s : jsstring) : option (list captures) :=
  exec_loop (length s) r s.

(** [text.split(r)] for a pattern without capturing groups, after
    [RegExp.prototype[Symbol.split]]: [seg] is the text from [p] to [q], [s]
    the text from [q] on. *)
Fixpoint split_loop (r : regex) (n : nat) (seg s : jsstring) : list jsstring :=
  match n, s with
  | S n', x :: s' =>
      match match_here r s with
      | None => split_loop r n' (seg ++ [x]) s'
      | Some (rest, _) =>
          if length rest <? length s then seg :: split_loop r n' [] rest
          else match seg with
               | [] => split_loop r n' [x] s'
               | _ :: _ => seg :: split_loop r n' [x] s'
               end
      end
  | _, _ => [seg]
  end.

Definition split (r : regex) (s : jsstring) : list jsstring :=
  match s with
  | [] => match match_here r [] with Some _ => [] | None => [[]] end
  | _ :: _ => split_loop r (length s) [] s
  end.

(** Pattern builders. *)
Definition chr (c : N) : regex := Class (N.eqb c).
Definition str (s : jsstring) : regex := foldr (fun c r => Seq (chr c) r) Empty s.
Definition plus (r : regex) : regex := Seq r (Star r).
Definition any : regex := Class (fun _ => true).
Definition space : regex := Class Js.is_space.
Definition digit : regex := Class Js.is_digit.

(** Text of a capture; a group that took part in the match is defined. *)
Definition group (c : captures) (i : nat) : jsstring := default [] (c !! i).

End Re.

(* ===================================================================== *)
(** * The store: SQLite tables as lists of rows in rowid order *)
(* ===================================================================== *)

Module Sqlite.

(** Every table has [id INTEGER PRIMARY KEY AUTOINCREMENT]. *)
Class Row (A : Type) := row_id : A -> Z.

(** A table: its rows in rowid order (the order of a scan without ORDER BY)
    and the largest rowid it ever held (its line in [sqlite_sequence]). *)
Record table (A : Type) : Type := Table { rows : list A; last_id : Z }.
Arguments Table {A} rows last_id.
Arguments rows {A} t.
Arguments last_id {A} t.

Definition empty {A} : table A := Table [] 0%Z.

Definition max_id `{Row A} (l : list A) : Z :=
  foldr (fun r m => Z.max (row_id r) m) 0%Z l.

(** AUTOINCREMENT: one more than the largest rowid that ever existed. *)
Definition next_id `{Row A} (t : table A) : Z :=
  (Z.max (last_id t) (max_id (rows t)) + 1)%Z.

(** [INSERT]: the new row gets the next rowid, which is [this.lastID]. *)
Definition insert `{Row A} (mk : Z -> A) (t : table A) : table A * Z :=
  let i := next_id t in (Table (rows t ++ [mk i]) i, i).

(** [db.get(SELECT ... WHERE p)]: the first row of the scan, if any. *)
Definition get {A} (p : A -> bool) (t : table A) : option A :=
  List.find p (rows t).

(** [db.all(SELECT ... WHERE p)]. *)
Definition all {A} (p : A -> bool) (t : table A) : list A :=
  List.filter p (rows t).

(** [UPDATE ... SET f WHERE p]; [this.changes] is the number of rows hit. *)
Definition update {A} (p : A -> bool) (f : A -> A) (t : table A) : table A :=
  Table (List.map (fun r => if p r then f r else r) (rows t)) (last_id t).

Definition changes {A} (p : A -> bool) (t : table A) : nat :=
  length (List.filter p (rows t)).

(** [DELETE FROM ... WHERE p]. *)
Definition delete {A} (p : A -> bool) (t : table A) : table A :=
  Table (List.filter (fun r => negb (p r)) (rows t)) (last_id t).

(** [DELETE FROM ...] without a condition. *)
Definition clear {A} (t : table A) : table A := Table [] (last_id t).

(** The rows of the five tables of [initializeDatabase] in
    [src/unnamed/part_000]; the timestamp columns, which no handler reads
    back into a decision, are left out.  An INTEGER column, and the
    JavaScript number a handler reads from it, is an integer of [Z]: rowids
    and counters start at 0 or 1 and a request moves them by one, so neither
    the 64 bits of SQLite nor the 2^53 of JavaScript is within the reach of
    the requests. *)
Record word : Type := Word {
  word_id_of : Z;                  (* id *)
  english : jsstring;              (* TEXT NOT NULL UNIQUE *)
  chinese : jsstring;              (* TEXT NOT NULL *)
  example : option jsstring;       (* TEXT, NULL when the request had none *)
  familiarity : Z;                 (* INTEGER DEFAULT 0 *)
  exposure : Z                     (* INTEGER DEFAULT 0 *)
}.

Record mistake : Type := Mistake {
  mistake_id : Z;                  (* id *)
  word_id : Z;                     (* INTEGER, references words(id) *)
  mistake_count : Z;               (* INTEGER DEFAULT 1 *)
  correct_streak : Z               (* INTEGER DEFAULT 0 *)
}.

Record test_result : Type := TestResult {
  result_id : Z;
  score : float;                   (* the JavaScript number that was bound *)
  total_words : Z;
  correct_count : Z;
  incorrect_count : Z;
  type : jsstring
}.

Record passage : Type := Passage {
  passage_id_of : Z;
  title : jsstring;
  content : jsstring;
  passage_exposure : Z
}.

Record question : Type := Question {
  question_id : Z;
  passage_id : Z;
  question_text : jsstring;
  option_a : jsstring;
  option_b : jsstring;
  option_c : jsstring;
  correct_answer : jsstring
}.

#[export] Instance word_row : Row word := word_id_of.
#[export] Instance mistake_row : Row mistake := mistake_id.
#[export] Instance test_result_row : Row test_result := result_id.
#[export] Instance passage_row : Row passage := passage_id_of.
#[export] Instance question_row : Row question := question_id.

Record db : Type := Store {
  words : table word;
  mistakes : table mistake;
  test_results : table test_result;
  reading_passages : table passage;
  reading_questions : table question
}.

(** The store after [initializeDatabase] on a new file. *)
Definition initial : db := Store empty empty empty empty empty.

Definition set_words (f : table word -> table word) (d : db) : db :=
  Store (f (words d)) (mistakes d) (test_results d) (reading_passages d) (reading_questions d).
Definition set_mistakes (f : table mistake -> table mistake) (d : db) : db :=
  Store (words d) (f (mistakes d)) (test_results d) (reading_passages d) (reading_questions d).
Definition set_test_results (f : table test_result -> table test_result) (d : db) : db :=
  Store (words d) (mistakes d) (f (test_results d)) (reading_passages d) (reading_questions d).
Definition set_reading_passages (f : table passage -> table passage) (d : db) : db :=
  Store (words d) (mistakes d) (test_results d) (f (reading_passages d)) (reading_questions d).
Definition set_reading_questions (f : table question -> table question) (d : db) : db :=
  Store (words d) (mistakes d) (test_results d) (reading_passages d) (f (reading_questions d)).

End Sqlite.

(** What a handler sends: [res.json(body)] (status 200 unless set), or
    [res.status(n).json({ error })]. *)
Inductive reply (B E : Type) : Type :=
| Sent (status : nat) (body : B)
| Failed (status : nat) (error : E).
Arguments Sent {B E} status body.
Arguments Failed {B E} status error.

(* ===================================================================== *)
(** * POST /api/reading/import ([src/unnamed/part_000], lines 755-909) *)
(* ===================================================================== *)

Module Importer.
Import Js Re Sqlite.

(** The three markers and the two enumeration marks, as code units. *)
Definition reading_marker : jsstring := [0x9605; 0x8BFB; 0x6587; 0x672C]%N. (* 阅读文本 *)
Definition choice_marker : jsstring := [0x9009; 0x62E9; 0x9898]%N.          (* 选择题 *)
Definition answer_marker : jsstring := [0x7B54; 0x6848]%N.                  (* 答案 *)

(** [[.、]] *)
Definition mark : regex := Class (fun c => (c =? 46) || (c =? 0x3001))%N.

(** [/\s*阅读文本\s*|\s*选择题\s*|\s*答案\s*/] *)
Definition around (m : jsstring) : regex :=
  Seq (Star space) (Seq (str m) (Star space)).
Definition markerRegex : regex :=
  Alt (around reading_marker) (Alt (around choice_marker) (around answer_marker)).

(** [/(\d+)[.、]\s*(.*?)\s*A[.、]\s*(.*?)\s*B[.、]\s*(.*?)\s*C[.、]\s*(.*?)(?=\d+[.、]|$)/gs] *)
Definition questionRegex : regex :=
  Seq (Group 1 (plus digit)) (Seq mark (Seq (Star space)
  (Seq (Group 2 (Lazy any)) (Seq (Star space) (Seq (chr 65) (Seq mark (Seq (Star space)
  (Seq (Group 3 (Lazy any)) (Seq (Star space) (Seq (chr 66) (Seq mark (Seq (Star space)
  (Seq (Group 4 (Lazy any)) (Seq (Star space) (Seq (chr 67) (Seq mark (Seq (Star space)
  (Seq (Group 5 (Lazy any))
       (Ahead (Alt (Seq (plus digit) mark) AtEnd)))))))))))))))))))).

(** [/(\d+)\s*[.、]\s*([ABC])\s*/g] *)
Definition answerRegex : regex :=
  Seq (Group 1 (plus digit)) (Seq (Star space) (Seq mark (Seq (Star space)
  (Seq (Group 2 (Class (fun c => (c =? 65) || (c =? 66) || (c =? 67))%N))
       (Star space))))).

(** One element of [questions]. *)
Record parsed_question : Type := ParsedQuestion {
  questionText : jsstring;
  optionA : jsstring;
  optionB : jsstring;
  optionC : jsstring
}.

(** The error replies of the handler, all sent with status 400. *)
Inductive import_error : Type :=
| EmptyContent                     (* 内容不能为空 *)
| MissingSections                  (* 格式错误：请确保包含阅读文本、选择题和答案三个部分 *)
| EmptyPassage                     (* 阅读文本不能为空 *)
| NoTitle                          (* 请确保第一行为有效的标题 *)
| NoBody                           (* 请确保标题后有正文内容 *)
| NoQuestions                      (* 没有找到有效的选择题 *)
| EmptyQuestionText (i : nat)      (* 第i题题目内容不能为空 *)
| MissingOption (i : nat)          (* 第i题选项不完整 *)
| NoAnswers                        (* 没有找到有效的答案 *)
| InvalidAnswers (nums : list jsstring)  (* 第n题答案不是有效的选项(A/B/C) *)
| CountMismatch (questions answers : nat) (* 题目数量和答案数量不匹配 *)
| MissingAnswer (num : jsstring).  (* 缺少第n题的答案 *)

(** What the handler has in hand when it opens the transaction. *)
Record parsed : Type := Parsed {
  p_title : jsstring;
  p_content : jsstring;
  p_questions : list parsed_question;
  p_answers : gmap jsstring jsstring
}.

(** The three trimmed sections, when the split gives at least 4 parts. *)
Definition sections (content : jsstring) : option (jsstring * jsstring * jsstring) :=
  let contentParts := split markerRegex content in
  if length contentParts <? 4 then None
  else Some (trim (nth 1 contentParts []),
             trim (nth 2 contentParts []),
             trim (nth 3 contentParts [])).

(** The loop that fills [questions]. *)
Definition parse_questions (questionsText : jsstring) : option (list parsed_question) :=
  option_map
    (List.map (fun m =>
       {| questionText := trim (group m 2);
          optionA := trim (group m 3);
          optionB := trim (group m 4);
          optionC := trim (group m 5) |}))
    (exec_all questionRegex questionsText).

(** The loop that checks the questions, [i] counting from 0. *)
Fixpoint check_questions (i : nat) (questions : list parsed_question) : option import_error :=
  match questions with
  | [] => None
  | q :: rest =>
      if negb (truthy (questionText q)) then Some (EmptyQuestionText (i + 1))
      else if negb (truthy (optionA q)) || negb (truthy (optionB q)) || negb (truthy (optionC q))
      then Some (MissingOption (i + 1))
      else check_questions (S i) rest
  end.

(** [['A', 'B', 'C'].includes(option)] *)
Definition valid_option (option : jsstring) : bool :=
  bool_decide (option = lit "A") || bool_decide (option = lit "B") || bool_decide (option = lit "C").

(** The loop that fills the [answers] object and [answerErrors]. *)
Definition parse_answers (answersText : jsstring)
    : option (gmap jsstring jsstring * list jsstring) :=
  option_map
    (fun ms =>
       fold_left (fun '(answers, answerErrors) m =>
         let questionNum := group m 1 in
         let option := group m 2 in
         (<[questionNum := option]> answers,
          if valid_option option then answerErrors else answerErrors ++ [questionNum]))
         ms (∅, []))
    (exec_all answerRegex answersText).

(** The loop that looks for the answer of every question, [i] from 0. *)
Fixpoint check_answers (i n : nat) (answers : gmap jsstring jsstring) : option import_error :=
  match n with
  | O => None
  | S n' =>
      let questionNum := toString (i + 1) in
      match answers !! questionNum with
      | Some (_ :: _) => check_answers (S i) n' answers
      | _ => Some (MissingAnswer questionNum)
      end
  end.

(** The handler up to the transaction: every [return res.status(400)] in
    source order.  [None] stands for a request whose matching loop never
    ends. *)
Definition parse (content : jsstring) : option (import_error + parsed) :=
  if negb (truthy content) then Some (inl EmptyContent) else
  match sections content with
  | None => Some (inl MissingSections)
  | Some (passageContent, questionsText, answersText) =>
  let lines := split_lines passageContent in
  if length lines <? 1 then Some (inl EmptyPassage) else
  let title := trim (nth 0 lines []) in
  if negb (truthy title) then Some (inl NoTitle) else
  let actualContent := trim (join_lines (slice1 lines)) in
  if negb (truthy actualContent) then Some (inl NoBody) else
  match parse_questions questionsText with
  | None => None
  | Some questions =>
  if length questions =? 0 then Some (inl NoQuestions) else
  match check_questions 0 questions with
  | Some e => Some (inl e)
  | None =>
  match parse_answers answersText with
  | None => None
  | Some (answers, answerErrors) =>
  if size answers =? 0 then Some (inl NoAnswers) else
  if 0 <? length answerErrors then Some (inl (InvalidAnswers answerErrors)) else
  if negb (length questions =? size answers)
  then Some (inl (CountMismatch (length questions) (size answers))) else
  match check_answers 0 (length questions) answers with
  | Some e => Some (inl e)
  | None => Some (inr (Parsed title actualContent questions answers))
  end end end end end.

(** The body of the success reply. *)
Record import_summary : Type := ImportSummary {
  success_count : nat;
  total_questions : nat
}.

(** What one INSERT into [reading_questions] binds: the four texts of the
    question and its answer. *)
Abbreviation question_insert := (parsed_question * jsstring)%type.

(** [questions.forEach]: the INSERTs it queues, one for each question whose
    answer is there, [index] counting from 0; a question without an answer
    is passed over. *)
Fixpoint queued_inserts (answers : gmap jsstring jsstring) (index : nat)
    (questions : list parsed_question) : list question_insert :=
  match questions with
  | [] => []
  | q :: rest =>
      let questionNum := toString (index + 1) in
      match answers !! questionNum with
      | Some ((_ :: _) as correctAnswer) =>
          (q, correctAnswer) :: queued_inserts answers (S index) rest
      | _ => queued_inserts answers (S index) rest
      end
  end.

(** The statements of the transaction are queued from the callback of the
    passage INSERT, after [db.serialize] has returned: the engine runs them
    in an order of its own, and the callback of COMMIT, which sends the
    reply, does not wait for theirs.  A schedule says what the engine did:
    [picks] names, turn by turn, which of the INSERTs still queued runs next
    (counted among them, wrapping around their number), and [late] how many
    INSERT callbacks came after the callback of COMMIT. *)
Record schedule : Type := Schedule {
  picks : list nat;
  late : nat
}.

(** Every statement runs as it was issued, and COMMIT last. *)
Definition as_issued : schedule := Schedule [] 0.

Fixpoint arrange_loop {A} (n : nat) (picks : list nat) (queued : list A) : list A :=
  match n, queued with
  | S n', first :: _ =>
      let k := (hd 0 picks) mod (length queued) in
      nth k queued first
      :: arrange_loop n' (tl picks) (take k queued ++ drop (S k) queued)
  | _, _ => []
  end.

(** The queued statements in the order in which they run. *)
Definition arrange {A} (picks : list nat) (queued : list A) : list A :=
  arrange_loop (length queued) picks queued.

(** One INSERT into [reading_questions], with the texts as SQLite receives
    them. *)
Definition insert_question (passageId : Z) (d : db) (stmt : question_insert) : db :=
  let '(q, correctAnswer) := stmt in
  set_reading_questions (fun t =>
    fst (insert (fun i =>
           Question i passageId (TEXT (questionText q)) (TEXT (optionA q))
             (TEXT (optionB q)) (TEXT (optionC q)) (TEXT correctAnswer)) t)) d.

(** The transaction: the passage, then the INSERTs of its questions as the
    schedule has them, and the reply of the callback of COMMIT, whose
    [successCount] counts the INSERT callbacks that came before it.  No
    INSERT meets a constraint that a parsed request can break (the texts are
    there, nothing is unique), so the error branches are not taken; an
    INSERT that runs after COMMIT is kept as well, the connection being in
    autocommit then. *)
Definition persist (sch : schedule) (p : parsed) (d : db)
    : reply import_summary import_error * db :=
  let '(t, passageId) :=
    insert (fun i => Passage i (TEXT (p_title p)) (TEXT (p_content p)) 0)
      (reading_passages d) in
  let d1 := set_reading_passages (fun _ => t) d in
  let queued := queued_inserts (p_answers p) 0 (p_questions p) in
  let d2 := fold_left (insert_question passageId) (arrange (picks sch) queued) d1 in
  (Sent 200 {| success_count := 1; total_questions := length queued - late sch |}, d2).

(** [app.post('/api/reading/import', ...)] with [content] the field of the
    body (absent and empty are both falsy), under a schedule of the
    engine. *)
Definition reading_import (sch : schedule) (content : jsstring) (d : db)
    : option (reply import_summary import_error * db) :=
  match parse content with
  | None => None
  | Some (inl e) => Some (Failed 400 e, d)
  | Some (inr p) => Some (persist sch p d)
  end.

(** ** What the marker pattern finds, said without the matcher *)

Definition is_marker (m : jsstring) : Prop :=
  m = reading_marker \/ m = choice_marker \/ m = answer_marker.

(** The text holds [n] successive marker tokens, each any of the three. *)
Inductive markers_in : nat -> jsstring -> Prop :=
| markers_none s : markers_in 0 s
| markers_more n a m t :
    is_marker m -> markers_in n t -> markers_in (S n) (a ++ m ++ t).

(** The three markers are all there in the order reading, choice, answer. *)
Definition in_order (content : jsstring) : Prop :=
  exists a b c e,
    content = a ++ reading_marker ++ b ++ choice_marker ++ c ++ answer_marker ++ e.

(** The first code unit of a marker. *)
Definition is_head (c : N) : bool := ((c =? 0x9605) || (c =? 0x9009) || (c =? 0x7B54))%N.

(** [strip m s]: the rest of [s] after its prefix [m], if [m] is a prefix. *)
Fixpoint strip (m s : jsstring) : option jsstring :=
  match m, s with
  | [], _ => Some s
  | x :: m', y :: s' => if (x =? y)%N then strip m' s' else None
  | _ :: _, [] => None
  end.

(** A marker with the white space around it, at the head of [s]. *)
Definition strip_around (m s : jsstring) : option jsstring :=
  option_map trimStart (strip m (trimStart s)).

Definition scan (s : jsstring) : option jsstring :=
  match strip_around reading_marker s with
  | Some rest => Some rest
  | None =>
      match strip_around choice_marker s with
      | Some rest => Some rest
      | None => strip_around answer_marker s
      end
  end.

(** The number of cuts of the split, [n] bounding the text as in
    [split_loop]. *)
Fixpoint cuts (n : nat) (s : jsstring) : nat :=
  match n, s with
  | S n', _ :: s' =>
      match scan s with
      | None => cuts n' s'
      | Some rest => S (cuts n' rest)
      end
  | _, _ => 0
  end.

(** ** The inputs of the examples *)

(** The input of the specification: the three markers, each on its line. *)
Definition spec_example : jsstring :=
  reading_marker ++ 10%N :: lit "Title" ++ 10%N :: lit "Body" ++ 10%N ::
  choice_marker ++ 10%N :: lit "1. Q1? A. a B. b C. c" ++ 10%N ::
  answer_marker ++ 10%N :: lit "1. A".

(** The same text with the answer marker in the place of all three. *)
Definition one_marker_thrice : jsstring :=
  answer_marker ++ 10%N :: lit "Title" ++ 10%N :: lit "Body" ++ 10%N ::
  answer_marker ++ 10%N :: lit "1. Q1? A. a B. b C. c" ++ 10%N ::
  answer_marker ++ 10%N :: lit "1. A".

(** Two questions and one answer. *)
Definition one_answer_short : jsstring :=
  reading_marker ++ 10%N :: lit "Title" ++ 10%N :: lit "Body" ++ 10%N ::
  choice_marker ++ 10%N :: lit "1. Q1? A. a B. b C. c 2. Q2? A. d B. e C. f" ++ 10%N ::
  answer_marker ++ 10%N :: lit "1. A".

End Importer.


(* ===================================================================== *)
(** * The mistake tracker of [src/unnamed/part_000], lines 444-559
      (the second half of [src/server.js] has the same handlers) *)
(* ===================================================================== *)

Module Mistakes.
Import Sqlite.
Local Open Scope Z_scope.

Inductive mistake_error : Type :=
| WordIdRequired       (* 400 'Word ID is required' *)
| MistakeNotFound.     (* 404 'Mistake not found' *)

Inductive mistake_body : Type :=
| Row (id word_id mistake_count correct_streak : Z)
| Removed              (* 'Word removed from mistakes list' *)
| Deleted              (* 'Mistake deleted successfully' *)
| Cleared.             (* 'All mistakes deleted successfully' *)

Abbreviation mistake_reply := (reply mistake_body mistake_error).

(** [SELECT * FROM mistakes WHERE word_id = ?] *)
Definition by_word (w : Z) (m : mistake) : bool := word_id m =? w.
(** [... WHERE id = ?] *)
Definition by_id (i : Z) (m : mistake) : bool := mistake_id m =? i.

(** The mistakes row of a word, as [db.get] finds it. *)
Definition lookup (w : Z) (d : db) : option mistake := get (by_word w) (mistakes d).

(** [SET mistake_count = mistake_count + 1, correct_streak = 0] *)
Definition bump (m : mistake) : mistake :=
  Mistake (mistake_id m) (word_id m) (mistake_count m + 1) 0.

(** [SET correct_streak = ?] *)
Definition set_streak (s : Z) (m : mistake) : mistake :=
  Mistake (mistake_id m) (word_id m) (mistake_count m) s.

(** [app.post('/api/mistakes', ...)]; a [word_id] that is absent, null or 0
    is falsy, and 0 stands for all three. *)
Definition add_mistake (w : Z) (d : db) : mistake_reply * db :=
  if w =? 0 then (Failed 400 WordIdRequired, d)
  else match get (by_word w) (mistakes d) with
       | Some row =>
           (Sent 200 (Row (mistake_id row) w (mistake_count row + 1) 0),
            set_mistakes (update (by_id (mistake_id row)) bump) d)
       | None =>
           let '(t, lastID) := insert (fun i => Mistake i w 1 0) (mistakes d) in
           (Sent 200 (Row lastID w 1 0), set_mistakes (fun _ => t) d)
       end.

(** [app.post('/api/mistakes/correct/:wordId', ...)] *)
Definition record_correct (wordId : Z) (d : db) : mistake_reply * db :=
  match get (by_word wordId) (mistakes d) with
  | Some row =>
      let updatedStreak := correct_streak row + 1 in
      if 2 <=? updatedStreak
      then (Sent 200 Removed, set_mistakes (delete (by_id (mistake_id row))) d)
      else (Sent 200 (Row (mistake_id row) (word_id row) (mistake_count row) updatedStreak),
            set_mistakes (update (by_id (mistake_id row)) (set_streak updatedStreak)) d)
  | None => (Failed 404 MistakeNotFound, d)
  end.

(** [app.delete('/api/mistakes/:id', ...)] *)
Definition delete_mistake (id : Z) (d : db) : mistake_reply * db :=
  if (changes (by_id id) (mistakes d) =? 0)%nat
  then (Failed 404 MistakeNotFound, d)
  else (Sent 200 Deleted, set_mistakes (delete (by_id id)) d).

(** [app.delete('/api/mistakes', ...)] *)
Definition clear_mistakes (d : db) : mistake_reply * db :=
  (Sent 200 Cleared, set_mistakes clear d).

(** The requests of the mistake tracker. *)
Inductive request : Type :=
| AddMistake (word_id : Z)
| RecordCorrect (wordId : Z)
| DeleteMistake (id : Z)
| ClearMistakes.

Definition handle (r : request) (d : db) : mistake_reply * db :=
  match r with
  | AddMistake w => add_mistake w d
  | RecordCorrect w => record_correct w d
  | DeleteMistake i => delete_mistake i d
  | ClearMistakes => clear_mistakes d
  end.

(** The stores the tracker reaches from a new database. *)
Inductive reachable : db -> Prop :=
| reach_initial : reachable initial
| reach_step r d : reachable d -> reachable (snd (handle r d)).

(** At most one row per word; every streak is 0 or 1; every count is at
    least 1. *)
Definition row_ok (m : mistake) : Prop :=
  0 <= correct_streak m < 2 /\ 1 <= mistake_count m.

Definition one_row_per_word (d : db) : Prop :=
  NoDup (List.map word_id (rows (mistakes d))).

Definition invariant (d : db) : Prop :=
  one_row_per_word d /\ Forall row_ok (rows (mistakes d)).

End Mistakes.

(* ===================================================================== *)
(** * The word store of [src/unnamed/part_000] *)
(* ===================================================================== *)

Module Words.
Import Js Sqlite.
Local Open Scope Z_scope.

Inductive word_error : Type :=
| FieldsRequired                  (* 400 'English and Chinese are required' *)
| AlreadyExists (existing : word) (* 409 'Word already exists' *)
| WordNotFound                    (* 404 'Word not found' *)
| Constraint.                     (* 500, the message of SQLITE_CONSTRAINT *)

Inductive word_body : Type :=
| Saved (id : Z) (english chinese : jsstring) (example : option jsstring)
| Success.                        (* { success: true } *)

Abbreviation word_reply := (reply word_body word_error).

(** [LOWER] of SQLite: the 26 ASCII capitals are lowered, nothing else. *)
Definition lower_unit (c : N) : N :=
  if ((65 <=? c) && (c <=? 90))%N then (c + 32)%N else c.
Definition LOWER (s : jsstring) : jsstring := List.map lower_unit s.

Definition by_id (i : Z) (w : word) : bool := word_id_of w =? i.

(** The word with a given id. *)
Definition lookup (i : Z) (d : db) : option word := get (by_id i) (words d).

(** [english TEXT NOT NULL UNIQUE]: another row holds the same text. *)
Definition unique_clash (i : Z) (e : jsstring) (t : table word) : bool :=
  existsb (fun w => negb (by_id i w) && bool_decide (english w = e)) (rows t).

(** [app.post('/api/words', ...)], lines 169-212. *)
Definition add_word (e c : jsstring) (x : option jsstring) (d : db) : word_reply * db :=
  if negb (truthy e) || negb (truthy c) then (Failed 400 FieldsRequired, d)
  else match get (fun w => bool_decide (LOWER (english w) = LOWER (TEXT e))) (words d) with
       | Some row => (Failed 409 (AlreadyExists row), d)
       | None =>
           if existsb (fun w => bool_decide (english w = TEXT e)) (rows (words d))
           then (Failed 500 Constraint, d)
           else let '(t, lastID) :=
                  insert (fun i => Word i (TEXT e) (TEXT c) (option_map TEXT x) 0 0)
                    (words d) in
                (Sent 200 (Saved lastID e c x), set_words (fun _ => t) d)
       end.

(** [SET english = ?, chinese = ?, example = ?] *)
Definition set_fields (e c : jsstring) (x : option jsstring) (w : word) : word :=
  Word (word_id_of w) e c x (familiarity w) (exposure w).

(** [app.put('/api/words/:id', ...)], lines 293-317: one UPDATE, which the
    UNIQUE constraint on [english] rejects when a row it hits would take the
    text of another row. *)
Definition update_word (id : Z) (e c : jsstring) (x : option jsstring) (d : db)
    : word_reply * db :=
  if negb (truthy e) || negb (truthy c) then (Failed 400 FieldsRequired, d)
  else if (0 <? changes (by_id id) (words d))%nat && unique_clash id (TEXT e) (words d)
  then (Failed 500 Constraint, d)
  else if (0 <? changes (by_id id) (words d))%nat
  then (Sent 200 (Saved id e c x),
        set_words (update (by_id id) (set_fields (TEXT e) (TEXT c) (option_map TEXT x))) d)
  else (Failed 404 WordNotFound, d).

(** [SET exposure = exposure + 1] and [SET familiarity = familiarity + 1] *)
Definition more_exposure (w : word) : word :=
  Word (word_id_of w) (english w) (chinese w) (example w) (familiarity w) (exposure w + 1).
Definition more_familiarity (w : word) : word :=
  Word (word_id_of w) (english w) (chinese w) (example w) (familiarity w + 1) (exposure w).

(** [app.post('/api/words/:id/update-stats', ...)], lines 651-683. *)
Definition update_stats (wordId : Z) (isCorrect : bool) (d : db) : word_reply * db :=
  let d1 := set_words (update (by_id wordId) more_exposure) d in
  if isCorrect
  then (Sent 200 Success, set_words (update (by_id wordId) more_familiarity) d1)
  else (Sent 200 Success, d1).

(** Two words whose [english] differ at most by case, as [add_word] compares. *)
Definition same_english (a b : jsstring) : Prop := LOWER a = LOWER b.

(** A store with the words apple (id 1) and pear (id 2), made by two
    [POST /api/words]. *)
Definition two_words : db :=
  snd (add_word (lit "pear") (lit "li") None
         (snd (add_word (lit "apple") (lit "pingguo") None initial))).

End Words.

(* ===================================================================== *)
(** * The other copy: [src/server.js], lines 1-806 *)
(* ===================================================================== *)

Module ServerJs.
Import Js Sqlite.
Local Open Scope Z_scope.

(** Its mistakes table has no streak, and a unique index on [word_id]. *)
Record mistake : Type := Mistake {
  mistake_id : Z;
  word_id : Z;
  mistake_count : Z
}.
#[export] Instance mistake_row : Row mistake := mistake_id.

Record db : Type := Store {
  words : table word;
  mistakes : table mistake
}.

Inductive error : Type :=
| WordIdRequired       (* 400 *)
| MistakeNotFound      (* 404 *)
| FieldsRequired       (* 400 *)
| AlreadyExists        (* 409 *)
| WordNotFound         (* 404 *)
| Constraint.          (* 500 *)

Inductive body : Type :=
| MistakeUpdated               (* 200 *)
| MistakeAdded (id : Z)        (* 201 *)
| MistakeRemoved
| MistakeLowered
| WordUpdated (id : Z) (english chinese : jsstring) (example : option jsstring)
| StatsUpdated.

Definition by_word (w : Z) (m : mistake) : bool := word_id m =? w.

Definition lookup (w : Z) (d : db) : option mistake := get (by_word w) (mistakes d).

(** [app.post('/api/mistakes', ...)], lines 598-641. *)
Definition add_mistake (w : Z) (d : db) : reply body error * db :=
  if w =? 0 then (Failed 400 WordIdRequired, d)
  else match get (by_word w) (mistakes d) with
       | Some _ =>
           (Sent 200 MistakeUpdated,
            Store (words d)
              (update (by_word w)
                 (fun m => Mistake (mistake_id m) (word_id m) (mistake_count m + 1))
                 (mistakes d)))
       | None =>
           if existsb (by_word w) (rows (mistakes d))
           then (Failed 500 Constraint, d)
           else let '(t, lastID) := insert (fun i => Mistake i w 1) (mistakes d) in
                (Sent 201 (MistakeAdded lastID), Store (words d) t)
       end.

(** [app.post('/api/mistakes/correct/:wordId', ...)], lines 644-685. *)
Definition record_correct (wordId : Z) (d : db) : reply body error * db :=
  match get (by_word wordId) (mistakes d) with
  | None => (Failed 404 MistakeNotFound, d)
  | Some row =>
      let newCount := mistake_count row - 1 in
      if newCount <=? 0
      then (Sent 200 MistakeRemoved, Store (words d) (delete (by_word wordId) (mistakes d)))
      else (Sent 200 MistakeLowered,
            Store (words d)
              (update (by_word wordId)
                 (fun m => Mistake (mistake_id m) (word_id m) newCount) (mistakes d)))
  end.

(** [app.put('/api/words/:id', ...)], lines 248-294: a row with the same
    [english] and another id is looked for first. *)
Definition update_word (id : Z) (e c : jsstring) (x : option jsstring) (d : db)
    : reply body error * db :=
  if negb (truthy e) || negb (truthy c) then (Failed 400 FieldsRequired, d)
  else match get (fun w => bool_decide (english w = TEXT e) && negb (word_id_of w =? id))
               (words d) with
       | Some _ => (Failed 409 AlreadyExists, d)
       | None =>
           if (changes (Words.by_id id) (words d) =? 0)%nat
           then (Failed 404 WordNotFound, d)
           else (Sent 200 (WordUpdated id e c x),
                 Store (update (Words.by_id id)
                          (Words.set_fields (TEXT e) (TEXT c) (Some (TEXT (default [] x))))
                          (words d))
                       (mistakes d))
       end.

(** [app.post('/api/words/:id/update-stats', ...)], lines 371-395. *)
Definition update_stats (id : Z) (isCorrect : bool) (d : db) : reply body error * db :=
  let familiarityChange := if isCorrect then 1 else -1 in
  if (changes (Words.by_id id) (words d) =? 0)%nat
  then (Failed 404 WordNotFound, d)
  else (Sent 200 StatsUpdated,
        Store (update (Words.by_id id)
                 (fun w => Word (word_id_of w) (english w) (chinese w) (example w)
                             (familiarity w + familiarityChange) (exposure w + 1))
                 (words d))
              (mistakes d)).

End ServerJs.

(* ===================================================================== *)
(** * POST /api/reading/submit-answers ([src/unnamed/part_000], lines 1001-1056) *)
(* ===================================================================== *)

Module Submit.
Import Js Sqlite.

(** A count as a JavaScript number.  Counts of rows stay far below 2^53,
    where the conversion is exact. *)
Definition number (n : nat) : float := PrimFloat.of_uint63 (Uint63.of_Z (Z.of_nat n)).

(** [Math.round]: the integer nearest to [x], the upper one of two; NaN, the
    infinities and the zeros are returned as they are, and so is every
    number that has no fractional bit.  With [x] equal to [m * 2^e] up to
    its sign and [e < 0], the result is the floor of [x + 1/2], taken
    exactly, and it keeps the sign of [x] when it is zero. *)
Definition Math_round (x : float) : float :=
  match Prim2SF x with
  | S754_finite s m e =>
      if (0 <=? e)%Z then x
      else
        let n := ((2 * (if s then Z.neg m else Z.pos m) + 2 ^ (- e)) / 2 ^ (1 - e))%Z in
        if (n =? 0)%Z then (if s then PrimFloat.opp 0%float else 0%float)
        else if (n <? 0)%Z then PrimFloat.opp (PrimFloat.of_uint63 (Uint63.of_Z (- n)))
        else PrimFloat.of_uint63 (Uint63.of_Z n)
  | _ => x
  end.

(** The percentage of the specification, in exact arithmetic:
    [100 * correct / total] rounded to the nearest integer, a half going up
    as [Math.round] takes it. *)
Definition rounded_percent (correct total : nat) : nat :=
  Z.to_nat ((200 * Z.of_nat correct + Z.of_nat total) / (2 * Z.of_nat total)).

(** [Math.round((correctCount / totalQuestions) * 100)] *)
Definition percent (correctCount totalQuestions : nat) : float :=
  Math_round (PrimFloat.mul (PrimFloat.div (number correctCount) (number totalQuestions)) 100%float).

Inductive submit_error : Type :=
| MissingParameters.   (* 400 缺少必要的参数 *)

(** One element of [results]; [isCorrect] is kept as its truth value. *)
Record answer_result : Type := AnswerResult {
  questionId : Z;
  userAnswer : option jsstring;
  correctAnswer : jsstring;
  isCorrect : bool
}.

Record submit_body : Type := SubmitBody {
  success : bool;
  body_score : float;
  correctCount : nat;
  totalQuestions : nat;
  results : list answer_result
}.

(** The row the handler binds to its INSERT, before the rowid is known. *)
Definition result_row (score : float) (totalQuestions correctCount : nat) (i : Z) : test_result :=
  TestResult i score (Z.of_nat totalQuestions) (Z.of_nat correctCount)
    (Z.of_nat totalQuestions - Z.of_nat correctCount) (lit "reading-comprehension").

(** The INSERT into [test_results].  A NaN is bound as NULL, which
    [score INTEGER NOT NULL] refuses; the handler logs the error and goes
    on, so the store is then left as it was. *)
Definition try_insert_result (mk : Z -> test_result) (d : db) : db :=
  if PrimFloat.is_nan (score (mk 0%Z)) then d
  else set_test_results (fun t => fst (insert mk t)) d.

(** The passage with a given id, if it is stored. *)
Definition passage_of (passageId : Z) (d : db) : option passage :=
  get (fun p => (passage_id_of p =? passageId)%Z) (reading_passages d).

(** Every stored question belongs to a stored passage. *)
Definition linked (d : db) : Prop :=
  forall q, In q (rows (reading_questions d)) ->
    exists p, In p (rows (reading_passages d)) /\ passage_id_of p = passage_id q.

Section Handler.

(** [String.prototype.toUpperCase], the built-in of the engine. *)
Variable toUpperCase : jsstring -> jsstring.

(** [userAnswer && userAnswer.toUpperCase() === q.correct_answer.toUpperCase()],
    for an answer that is a string when it is there. *)
Definition is_correct (userAnswer : option jsstring) (q : question) : bool :=
  match userAnswer with
  | Some a => truthy a && bool_decide (toUpperCase a = toUpperCase (correct_answer q))
  | None => false
  end.

(** [correctAnswers.forEach]: [acc] is [correctCount] and [results].  The
    [answers] object is read at the ids of the questions only, so it is kept
    as a map from ids. *)
Definition grade (answers : gmap Z jsstring) (acc : nat * list answer_result) (q : question)
    : nat * list answer_result :=
  let '(correctCount, results) := acc in
  let userAnswer := answers !! question_id q in
  let isCorrect := is_correct userAnswer q in
  ((if isCorrect then S correctCount else correctCount),
   results ++ [AnswerResult (question_id q) userAnswer (correct_answer q) isCorrect]).

(** [app.post('/api/reading/submit-answers', ...)]; a [passageId] that is
    absent or 0 is falsy, and so is an absent [answers]. *)
Definition submit_answers (passageId : Z) (answers : option (gmap Z jsstring)) (d : db)
    : reply submit_body submit_error * db :=
  match answers with
  | None => (Failed 400 MissingParameters, d)
  | Some answers =>
      if (passageId =? 0)%Z then (Failed 400 MissingParameters, d)
      else
        let correctAnswers :=
          all (fun q => (passage_id q =? passageId)%Z) (reading_questions d) in
        let '(correctCount, results) := fold_left (grade answers) correctAnswers (0, []) in
        let totalQuestions := length correctAnswers in
        let score := percent correctCount totalQuestions in
        (Sent 200 (SubmitBody true score correctCount totalQuestions results),
         try_insert_result (result_row score totalQuestions correctCount) d)
  end.

(** The questions of a passage, and those a set of answers gets right. *)
Definition questions_of (passageId : Z) (d : db) : list question :=
  List.filter (fun q => (passage_id q =? passageId)%Z) (rows (reading_questions d)).

Definition right_answers (answers : gmap Z jsstring) (qs : list question) : list question :=
  List.filter (fun q => is_correct (answers !! question_id q) q) qs.

End Handler.

(** The upper-casing of the letters a-z, which is what [toUpperCase] does on
    text made of ASCII. *)
Definition ascii_upper (s : jsstring) : jsstring :=
  List.map (fun c => if ((97 <=? c) && (c <=? 122))%N then (c - 32)%N else c) s.

(** A passage (id 1) with two questions, both with the answer A. *)
Definition two_questions : db :=
  set_reading_questions (fun _ =>
    Table [Question 1 1 (lit "Q1?") (lit "a") (lit "b") (lit "c") (lit "A");
           Question 2 1 (lit "Q2?") (lit "a") (lit "b") (lit "c") (lit "A")] 2)
    (set_reading_passages (fun _ => Table [Passage 1 (lit "T") (lit "B") 0] 1) initial).

(** The answers [{ 1: "a", 2: "B" }]. *)
Definition one_right : gmap Z jsstring := <[1%Z := lit "a"]> (<[2%Z := lit "B"]> ∅).

(** A passage (id 1) with forty questions, all with the answer A. *)
Definition forty_questions : db :=
  set_reading_questions (fun _ =>
    Table (List.map (fun k => Question (Z.of_nat k) 1 (lit "Q?") (lit "a") (lit "b")
                                (lit "c") (lit "A")) (seq 1 40)) 40)
    (set_reading_passages (fun _ => Table [Passage 1 (lit "T") (lit "B") 0] 1) initial).

(** The answers that give A to the questions 1 to 23 and B to the other 17. *)
Definition first_23_right : gmap Z jsstring :=
  fold_right (fun k answers =>
                <[Z.of_nat k := if (k <=? 23)%nat then lit "A" else lit "B"]> answers)
    ∅ (seq 1 40).

End Submit.

(* ===================================================================== *)
(** * More of the word store of [src/unnamed/part_000] *)
(* ===================================================================== *)

Module WordStore.
Import Js Sqlite Words.
Local Open Scope Z_scope.

Inductive store_body : Type :=
| WordDeleted          (* 'Word deleted successfully' *)
| AllDeleted.          (* 'All words deleted successfully' *)

(** [app.get('/api/words/:id', ...)], lines 153-166. *)
Definition get_word (id : Z) (d : db) : reply word word_error :=
  match get (by_id id) (words d) with
  | Some row => Sent 200 row
  | None => Failed 404 WordNotFound
  end.

(** [FOREIGN KEY (word_id) REFERENCES words(id) ON DELETE CASCADE] of the
    mistakes table: SQLite follows it when [foreign_keys] is on for the
    connection, and the server has no PRAGMA that sets it. *)
Definition cascade (foreign_keys : bool) (gone : mistake -> bool) (d : db) : db :=
  if foreign_keys then set_mistakes (delete gone) d else d.

(** [app.delete('/api/words/:id', ...)], lines 320-334. *)
Definition delete_word (foreign_keys : bool) (id : Z) (d : db)
    : reply store_body word_error * db :=
  if (0 <? changes (by_id id) (words d))%nat
  then (Sent 200 WordDeleted,
        cascade foreign_keys (Mistakes.by_word id) (set_words (delete (by_id id)) d))
  else (Failed 404 WordNotFound, d).

(** [app.delete('/api/words', ...)], lines 358-366. *)
Definition clear_words (foreign_keys : bool) (d : db) : reply store_body word_error * db :=
  (Sent 200 AllDeleted,
   cascade foreign_keys
     (fun m => existsb (by_id (word_id m)) (rows (words d)))
     (set_words clear d)).

(** The body of [GET /api/words/stats]. *)
Record stats : Type := Stats {
  total_words_count : nat;
  tested_words_count : nat;
  familiar_words_count : nat;
  exposure_rate : float;
  familiarity_rate : float
}.

(** [app.get('/api/words/stats', ...)], lines 117-139. *)
Definition words_stats (d : db) : reply stats word_error :=
  let words := rows (words d) in
  let total_words_count := length words in
  let tested_words_count := length (List.filter (fun word => 0 <? exposure word) words) in
  let familiar_words_count := length (List.filter (fun word => 3 <=? familiarity word) words) in
  let exposure_rate :=
    if (0 <? total_words_count)%nat
    then Submit.percent tested_words_count total_words_count else 0%float in
  let familiarity_rate :=
    if (0 <? total_words_count)%nat
    then Submit.percent familiar_words_count total_words_count else 0%float in
  Sent 200 (Stats total_words_count tested_words_count familiar_words_count
              exposure_rate familiarity_rate).

(** The error of the two quiz queries. *)
Inductive quiz_error : Type :=
| Mismatch.                       (* 500, the message of SQLITE_MISMATCH *)

(** What SQLite takes as the bound of a LIMIT: a number that is an integer
    of 64 bits strictly between the smallest and the largest of them
    ([OP_MustBeInt] after the integer affinity of a real). *)
Definition lossless_int64 (n : Z) : bool :=
  (- 2 ^ 63 <? n) && (n <? 2 ^ 63 - 1).

(** [LIMIT ?]: a negative bound is no bound; a bound that is no such
    integer fails the statement. *)
Definition LIMIT {A} (n : Z) (l : list A) : option (list A) :=
  if lossless_int64 n
  then Some (if n <? 0 then l else take (Z.to_nat n) l)
  else None.

Section Random.

(** [ORDER BY RANDOM()]: the order the engine draws for the rows of one
    query. *)
Variable RANDOM : list word -> list word.

(** [app.get('/api/test/random/:count', ...)], lines 387-401, [count] being
    what [parseInt] made of the parameter when that is a number. *)
Definition random_words (count : Z) (d : db) : reply (list word) quiz_error :=
  match LIMIT count (RANDOM (rows (words d))) with
  | Some rows => Sent 200 rows
  | None => Failed 500 Mismatch
  end.

(** [app.get('/api/test/distractors/:wordId/:count', ...)], lines 404-421. *)
Definition distractors (wordId count : Z) (d : db) : reply (list jsstring) quiz_error :=
  match LIMIT count
          (RANDOM (List.filter (fun w => negb (by_id wordId w)) (rows (words d)))) with
  | Some rows => Sent 200 (List.map chinese rows)
  | None => Failed 500 Mismatch
  end.

End Random.

(** The requests that write the words table. *)
Inductive request : Type :=
| AddWord (english chinese : jsstring) (example : option jsstring)
| UpdateWord (id : Z) (english chinese : jsstring) (example : option jsstring)
| UpdateStats (id : Z) (isCorrect : bool)
| DeleteWord (id : Z)
| ClearWords.

Definition handle (foreign_keys : bool) (r : request) (d : db) : db :=
  match r with
  | AddWord e c x => snd (add_word e c x d)
  | UpdateWord id e c x => snd (update_word id e c x d)
  | UpdateStats id b => snd (update_stats id b d)
  | DeleteWord id => snd (delete_word foreign_keys id d)
  | ClearWords => snd (clear_words foreign_keys d)
  end.

(** The stores these requests reach from a new database. *)
Inductive reachable (foreign_keys : bool) : db -> Prop :=
| reach_initial : reachable foreign_keys initial
| reach_step r d :
    reachable foreign_keys d -> reachable foreign_keys (handle foreign_keys r d).

(** The same without [PUT /api/words/:id]. *)
Definition renames (r : request) : bool :=
  match r with UpdateWord _ _ _ _ => true | _ => false end.

Inductive reachable_unrenamed (foreign_keys : bool) : db -> Prop :=
| unrenamed_initial : reachable_unrenamed foreign_keys initial
| unrenamed_step r d :
    renames r = false ->
    reachable_unrenamed foreign_keys d ->
    reachable_unrenamed foreign_keys (handle foreign_keys r d).

(** Rowids are distinct, and none is above the last one given. *)
Definition keyed {A} `{Row A} (t : table A) : Prop :=
  NoDup (List.map row_id (rows t)) /\ Forall (fun r => row_id r <= last_id t) (rows t).

End WordStore.

(* ===================================================================== *)
(** * GET /api/reading/passage/:id ([src/unnamed/part_000], lines 932-961) *)
(* ===================================================================== *)

Module Passages.
Import Js Sqlite.
Local Open Scope Z_scope.

Inductive passage_error : Type :=
| PassageNotFound.     (* 404 找不到指定的文章 *)

Definition by_id (i : Z) (p : passage) : bool := passage_id_of p =? i.

(** [SET exposure = exposure + 1] *)
Definition more_read (p : passage) : passage :=
  Passage (passage_id_of p) (title p) (content p) (passage_exposure p + 1).

(** The handler: the passage as it was read, its questions, and the UPDATE
    that counts the reading. *)
Definition get_passage (id : Z) (d : db)
    : reply (passage * list question) passage_error * db :=
  match get (by_id id) (reading_passages d) with
  | None => (Failed 404 PassageNotFound, d)
  | Some passage =>
      let questions := all (fun q => passage_id q =? id) (reading_questions d) in
      (Sent 200 (passage, questions),
       set_reading_passages (update (by_id id) more_read) d)
  end.

(** What the importer lets into the store: a passage with a title and a
    body, a question with a text, three options and an answer among A, B, C. *)
Definition passage_ok (p : passage) : Prop :=
  truthy (title p) = true /\ truthy (content p) = true.

Definition question_ok (q : question) : Prop :=
  truthy (question_text q) = true
  /\ truthy (option_a q) = true /\ truthy (option_b q) = true
  /\ truthy (option_c q) = true
  /\ Importer.valid_option (correct_answer q) = true.

(** What an import is to be read back as: each question with the text of its
    four fields, and the answer that the answers section gives for its
    number. *)
Definition bound_question (q : Importer.parsed_question) : Importer.parsed_question :=
  Importer.ParsedQuestion (TEXT (Importer.questionText q)) (TEXT (Importer.optionA q))
    (TEXT (Importer.optionB q)) (TEXT (Importer.optionC q)).

Definition expected_questions (p : Importer.parsed)
    : list (Importer.parsed_question * jsstring) :=
  imap (fun k q =>
          (bound_question q, default [] (Importer.p_answers p !! toString (k + 1))))
    (Importer.p_questions p).

(** A stored question without its ids. *)
Definition stored_question (q : question) : Importer.parsed_question * jsstring :=
  (Importer.ParsedQuestion (question_text q) (option_a q) (option_b q) (option_c q),
   correct_answer q).

(** The requests that touch the reading tables. *)
Inductive request : Type :=
| ImportReading (sch : Importer.schedule) (content : jsstring)
| GetPassage (id : Z).

Definition handle (r : request) (d : db) : db :=
  match r with
  | ImportReading sch content =>
      match Importer.reading_import sch content d with
      | Some (_, d') => d'
      | None => d
      end
  | GetPassage id => snd (get_passage id d)
  end.

Inductive reachable : db -> Prop :=
| reach_initial : reachable initial
| reach_step r d : reachable d -> reachable (handle r d).

End Passages.

(* ===================================================================== *)
(** * The mistake tracker of the other copy: [src/server.js], lines 598-709 *)
(* ===================================================================== *)

Module ServerJsTracker.
Import Sqlite ServerJs.
Local Open Scope Z_scope.

Inductive tracker_body : Type :=
| MistakeDeleted       (* 错词删除成功 *)
| MistakesCleared.     (* 所有错词已清空 *)

(** [app.delete('/api/mistakes/:id', ...)], lines 688-698: no look at
    [this.changes]. *)
Definition delete_mistake (id : Z) (d : db) : reply tracker_body error * db :=
  (Sent 200 MistakeDeleted,
   Store (words d) (delete (fun m => mistake_id m =? id) (mistakes d))).

(** [app.delete('/api/mistakes', ...)], lines 701-709. *)
Definition clear_mistakes (d : db) : reply tracker_body error * db :=
  (Sent 200 MistakesCleared, Store (words d) (clear (mistakes d))).

Inductive request : Type :=
| AddMistake (word_id : Z)
| RecordCorrect (wordId : Z)
| DeleteMistake (id : Z)
| ClearMistakes.

Definition handle (r : request) (d : db) : db :=
  match r with
  | AddMistake w => snd (add_mistake w d)
  | RecordCorrect w => snd (record_correct w d)
  | DeleteMistake i => snd (delete_mistake i d)
  | ClearMistakes => snd (clear_mistakes d)
  end.

Inductive reachable : db -> Prop :=
| reach_initial : reachable (Store empty empty)
| reach_step r d : reachable d -> reachable (handle r d).

End ServerJsTracker.

(* ===================================================================== *)
(** * Facts about the tables *)
(* ===================================================================== *)

Section TableFacts.
Import Sqlite.
Context {A : Type}.
Implicit Types (l : list A) (p q : A -> bool) (f : A -> A).

Lemma find_app_none l1 l2 p :
  List.find p l1 = None -> List.find p (l1 ++ l2) = List.find p l2.
Proof.
  induction l1 as [|a l1 IH]; simpl; [done|].
  destruct (p a); [done | exact IH].
Qed.

Lemma find_app_some l1 l2 p a :
  List.find p l1 = Some a -> List.find p (l1 ++ l2) = Some a.
Proof.
  induction l1 as [|b l1 IH]; simpl; [done|].
  destruct (p b); [done | exact IH].
Qed.

(** A scan after an UPDATE that does not touch the scanned column. *)
Lemma find_map_if l p q f :
  (forall r, p (f r) = p r) ->
  List.find p (List.map (fun r => if q r then f r else r) l)
  = option_map (fun r => if q r then f r else r) (List.find p l).
Proof.
  intros Hp. induction l as [|a l IH]; simpl; [done|].
  destruct (q a) eqn:Hq.
  - rewrite Hp. destruct (p a); simpl; [by rewrite Hq | exact IH].
  - destruct (p a); simpl; [by rewrite Hq | exact IH].
Qed.

Lemma find_none_forall l p :
  List.find p l = None -> Forall (fun r => p r = false) l.
Proof.
  induction l as [|a l IH]; simpl; [constructor|].
  destruct (p a) eqn:Hp; [done|]. intros H. constructor; auto.
Qed.

Lemma map_map_if {B} (g : A -> B) l q f :
  (forall r, g (f r) = g r) ->
  List.map g (List.map (fun r => if q r then f r else r) l) = List.map g l.
Proof.
  intros Hg. induction l as [|a l IH]; simpl; [done|].
  rewrite IH. by destruct (q a); rewrite ?Hg.
Qed.

Lemma NoDup_map_filter {B} (g : A -> B) l p :
  NoDup (List.map g l) -> NoDup (List.map g (List.filter p l)).
Proof.
  induction l as [|a l IH]; simpl; [done|].
  rewrite NoDup_cons. intros [Hn Hd].
  destruct (p a); simpl; [|by auto].
  apply NoDup_cons. split; [|by auto].
  intros Hin. apply Hn.
  apply list_elem_of_In in Hin. apply list_elem_of_In.
  apply in_map_iff in Hin as (x & <- & Hx).
  apply in_map_iff. exists x. split; [done|].
  apply filter_In in Hx. tauto.
Qed.

Lemma Forall_filter_keep (P : A -> Prop) l p :
  Forall P l -> Forall P (List.filter p l).
Proof.
  induction 1 as [|a l Ha Hl IH]; simpl; [constructor|].
  destruct (p a); [constructor|]; auto.
Qed.

End TableFacts.

(* ===================================================================== *)
(** * The mistake tracker *)
(* ===================================================================== *)

Section MistakeFacts.
Import Sqlite Mistakes.
Local Open Scope Z_scope.

Lemma by_word_bump w m : by_word w (bump m) = by_word w m.
Proof. done. Qed.

Lemma by_word_set_streak w s m : by_word w (set_streak s m) = by_word w m.
Proof. done. Qed.

(** With one row per word, the DELETE of the row found for a word leaves no
    row for that word. *)
Lemma find_after_delete (l : list mistake) w row :
  NoDup (List.map word_id l) ->
  List.find (by_word w) l = Some row ->
  List.find (by_word w) (List.filter (fun r => negb (by_id (mistake_id row) r)) l) = None.
Proof.
  induction l as [|a l IH]; simpl; [done|].
  rewrite NoDup_cons. intros [Hn Hd].
  destruct (by_word w a) eqn:Hw.
  - intros [= ->]. unfold by_id at 1. rewrite Z.eqb_refl. simpl.
    apply Z.eqb_eq in Hw.
    assert (Hall : Forall (fun r => by_word w r = false) l).
    { apply Forall_forall. intros r Hr. unfold by_word.
      apply Z.eqb_neq. intros Heq. apply Hn.
      apply list_elem_of_In. apply in_map_iff. exists r.
      split; [congruence | by apply list_elem_of_In]. }
    clear -Hall. induction Hall as [|r l Hr _ IH]; simpl; [done|].
    destruct (negb _); simpl; [by rewrite Hr | done].
  - intros Hf. destruct (negb (by_id (mistake_id row) a)); simpl.
    + rewrite Hw. by apply IH.
    + by apply IH.
Qed.

Lemma lookup_add_fresh w d :
  w <> 0 -> lookup w d = None ->
  add_mistake w d
  = (Sent 200 (Row (next_id (mistakes d)) w 1 0),
     set_mistakes (fun _ => fst (insert (fun i => Mistake i w 1 0) (mistakes d))) d)
  /\ lookup w (snd (add_mistake w d)) = Some (Mistake (next_id (mistakes d)) w 1 0).
Proof.
  intros Hw Hnone. unfold add_mistake, lookup in *.
  apply Z.eqb_neq in Hw. rewrite Hw. unfold get in *. rewrite Hnone. simpl.
  split; [done|].
  rewrite find_app_none by done. simpl. unfold by_word at 1. simpl.
  by rewrite Z.eqb_refl.
Qed.

Lemma lookup_add_again w d row :
  w <> 0 -> lookup w d = Some row ->
  add_mistake w d
  = (Sent 200 (Row (mistake_id row) w (mistake_count row + 1) 0),
     set_mistakes (update (by_id (mistake_id row)) bump) d)
  /\ lookup w (snd (add_mistake w d)) = Some (bump row).
Proof.
  intros Hw Hsome. unfold add_mistake, lookup in *.
  apply Z.eqb_neq in Hw. rewrite Hw. unfold get in *. rewrite Hsome. simpl.
  split; [done|].
  rewrite find_map_if by apply by_word_bump. rewrite Hsome. simpl.
  unfold by_id. by rewrite Z.eqb_refl.
Qed.

(** C2. A wrong answer for a word ([POST /api/mistakes] with a [word_id] that
    passes the required-field test): without a row, a row with
    [mistake_count = 1] and [correct_streak = 0] is created and found for the
    word; with a row, that row has its count raised by exactly one and its
    streak set to 0, the other columns kept. *)
Theorem wrong_answer_flags w d :
  w <> 0 ->
  match lookup w d with
  | None =>
      exists i,
        fst (add_mistake w d) = Sent 200 (Row i w 1 0)
        /\ lookup w (snd (add_mistake w d)) = Some (Mistake i w 1 0)
  | Some row =>
      fst (add_mistake w d) = Sent 200 (Row (mistake_id row) w (mistake_count row + 1) 0)
      /\ lookup w (snd (add_mistake w d))
         = Some (Mistake (mistake_id row) (word_id row) (mistake_count row + 1) 0)
  end.
Proof.
  intros Hw. destruct (lookup w d) as [row|] eqn:Hl.
  - destruct (lookup_add_again w d row Hw Hl) as [-> ->]. done.
  - destruct (lookup_add_fresh w d Hw Hl) as [-> ->]. eauto.
Qed.

Lemma wrong_answer_flags_witness :
  let d1 := snd (add_mistake 7 initial) in
  7 <> 0
  /\ (lookup 7 initial = None
      /\ exists i,
           fst (add_mistake 7 initial) = Sent 200 (Row i 7 1 0)
           /\ lookup 7 d1 = Some (Mistake i 7 1 0))
  /\ (lookup 7 d1 = Some (Mistake 1 7 1 0)
      /\ fst (add_mistake 7 d1) = Sent 200 (Row 1 7 2 0)
      /\ lookup 7 (snd (add_mistake 7 d1)) = Some (Mistake 1 7 2 0)).
Proof.
  intros d1. assert (H7 : 7 <> 0) by lia.
  split; [exact H7|]. split.
  - split; [reflexivity|]. exact (wrong_answer_flags 7 initial H7).
  - split; [reflexivity|]. exact (wrong_answer_flags 7 d1 H7).
Defined.

Lemma correct_answer_found w d row :
  lookup w d = Some row ->
  record_correct w d
  = if 2 <=? correct_streak row + 1
    then (Sent 200 Removed, set_mistakes (delete (by_id (mistake_id row))) d)
    else (Sent 200 (Row (mistake_id row) (word_id row) (mistake_count row)
                        (correct_streak row + 1)),
          set_mistakes (update (by_id (mistake_id row))
                          (set_streak (correct_streak row + 1))) d).
Proof. unfold lookup, record_correct. by intros ->. Qed.

Lemma correct_answer_promotes w d row :
  one_row_per_word d -> lookup w d = Some row -> 2 <= correct_streak row + 1 ->
  fst (record_correct w d) = Sent 200 Removed
  /\ lookup w (snd (record_correct w d)) = None.
Proof.
  intros Hone Hl Hs. rewrite (correct_answer_found w d row Hl).
  apply Z.leb_le in Hs. rewrite Hs. split; [done|].
  unfold lookup, get in *. simpl. by apply find_after_delete.
Qed.

Lemma correct_answer_keeps w d row :
  lookup w d = Some row -> correct_streak row + 1 < 2 ->
  fst (record_correct w d)
  = Sent 200 (Row (mistake_id row) (word_id row) (mistake_count row) (correct_streak row + 1))
  /\ lookup w (snd (record_correct w d)) = Some (set_streak (correct_streak row + 1) row).
Proof.
  intros Hl Hs. rewrite (correct_answer_found w d row Hl).
  apply Z.leb_gt in Hs. rewrite Hs. split; [done|].
  unfold lookup, get in *. simpl.
  rewrite find_map_if by apply by_word_set_streak. rewrite Hl. simpl.
  unfold by_id. by rewrite Z.eqb_refl.
Qed.

Lemma one_row_per_word_add w d :
  one_row_per_word d -> one_row_per_word (snd (add_mistake w d)).
Proof.
  unfold one_row_per_word, add_mistake. intros Hone.
  destruct (w =? 0); [done|].
  destruct (get (by_word w) (mistakes d)) as [row|] eqn:Hg; simpl.
  - by rewrite map_map_if.
  - rewrite map_app. simpl. apply NoDup_app. split; [done|]. split.
    + intros x Hx Hw. apply list_elem_of_singleton in Hw. subst x.
      apply list_elem_of_In, in_map_iff in Hx as (r & Hr & Hin).
      apply find_none_forall in Hg. rewrite Forall_forall in Hg.
      apply list_elem_of_In in Hin. specialize (Hg r Hin).
      unfold by_word in Hg. apply Z.eqb_neq in Hg. done.
    + apply NoDup_singleton.
Qed.

Lemma one_row_per_word_correct w d :
  one_row_per_word d -> one_row_per_word (snd (record_correct w d)).
Proof.
  unfold one_row_per_word, record_correct. intros Hone.
  destruct (get (by_word w) (mistakes d)) as [row|]; [|done].
  destruct (2 <=? correct_streak row + 1); simpl.
  - by apply NoDup_map_filter.
  - by rewrite map_map_if.
Qed.

(** C1. For a word with a mistakes row, in a store with one row per word: a
    correct answer raises the streak by one; when the raised streak reaches 2
    the row is deleted and the word has no row; otherwise the row stays, with
    the raised streak and nothing else changed.  And for a word without a
    row: one wrong answer gives it the row with [mistake_count = 1] and
    [correct_streak = 0], a first correct answer leaves that row with streak
    1, and a second one removes it. *)
Theorem correct_answer_streak w d :
  one_row_per_word d ->
  (forall row, lookup w d = Some row ->
     if 2 <=? correct_streak row + 1
     then fst (record_correct w d) = Sent 200 Removed
          /\ lookup w (snd (record_correct w d)) = None
     else fst (record_correct w d)
          = Sent 200 (Row (mistake_id row) (word_id row) (mistake_count row)
                          (correct_streak row + 1))
          /\ lookup w (snd (record_correct w d))
             = Some (Mistake (mistake_id row) (word_id row) (mistake_count row)
                             (correct_streak row + 1)))
  /\ (w <> 0 -> lookup w d = None ->
      let d1 := snd (add_mistake w d) in
      let d2 := snd (record_correct w d1) in
      let d3 := snd (record_correct w d2) in
      exists i,
        lookup w d1 = Some (Mistake i w 1 0)
        /\ lookup w d2 = Some (Mistake i w 1 1)
        /\ fst (record_correct w d2) = Sent 200 Removed
        /\ lookup w d3 = None).
Proof.
  intros Hone. split.
  - intros row Hl. destruct (2 <=? correct_streak row + 1) eqn:Hs.
    + apply Z.leb_le in Hs. by apply (correct_answer_promotes w d row).
    + apply Z.leb_gt in Hs. by apply (correct_answer_keeps w d row).
  - intros Hw Hnone d1 d2 d3.
    destruct (lookup_add_fresh w d Hw Hnone) as [_ H1].
    exists (next_id (mistakes d)). split; [exact H1|].
    assert (Hone1 : one_row_per_word d1) by by apply one_row_per_word_add.
    destruct (correct_answer_keeps w d1 _ H1) as [_ H2]; [simpl; lia|].
    split; [exact H2|].
    assert (Hone2 : one_row_per_word d2) by by apply one_row_per_word_correct.
    apply (correct_answer_promotes w d2 _ Hone2 H2). simpl. lia.
Qed.

Lemma correct_answer_streak_witness :
  let d1 := snd (add_mistake 7 initial) in
  let d2 := snd (record_correct 7 d1) in
  (one_row_per_word initial /\ 7 <> 0 /\ lookup 7 initial = None)
  /\ (one_row_per_word d1 /\ lookup 7 d1 = Some (Mistake 1 7 1 0))
  /\ (fst (record_correct 7 d1) = Sent 200 (Row 1 7 1 1)
      /\ lookup 7 d2 = Some (Mistake 1 7 1 1))
  /\ exists i,
       lookup 7 d1 = Some (Mistake i 7 1 0)
       /\ lookup 7 d2 = Some (Mistake i 7 1 1)
       /\ fst (record_correct 7 d2) = Sent 200 Removed
       /\ lookup 7 (snd (record_correct 7 d2)) = None.
Proof.
  intros d1 d2.
  assert (H0 : one_row_per_word initial) by (unfold one_row_per_word; simpl; constructor).
  assert (H1 : one_row_per_word d1) by (apply one_row_per_word_add; exact H0).
  split; [split; [exact H0 | split; [lia | reflexivity]]|].
  split; [split; [exact H1 | reflexivity]|].
  split.
  - destruct (correct_answer_streak 7 d1 H1) as [H _].
    exact (H (Mistake 1 7 1 0) eq_refl).
  - destruct (correct_answer_streak 7 initial H0) as [_ H].
    apply H; [lia | reflexivity].
Defined.

Lemma invariant_preserved r d : invariant d -> invariant (snd (handle r d)).
Proof.
  intros [Hone Hok]. destruct r as [w|w|i|]; simpl.
  - split; [by apply one_row_per_word_add|].
    unfold add_mistake. destruct (w =? 0); [done|].
    destruct (get (by_word w) (mistakes d)) as [row|]; simpl.
    + apply Forall_forall. intros x Hx.
      apply list_elem_of_In, in_map_iff in Hx as (r & <- & Hin).
      rewrite Forall_forall in Hok. apply list_elem_of_In in Hin.
      specialize (Hok r Hin). destruct (by_id _ r); [|done].
      unfold row_ok, bump in *; simpl. lia.
    + apply Forall_app. split; [done|]. repeat constructor; simpl; lia.
  - split; [by apply one_row_per_word_correct|].
    unfold record_correct.
    destruct (get (by_word w) (mistakes d)) as [row|] eqn:Hg; [|done].
    assert (Hrow : row_ok row).
    { unfold get in Hg. apply find_some in Hg as [Hin _].
      rewrite Forall_forall in Hok. apply Hok. by apply list_elem_of_In. }
    destruct (2 <=? correct_streak row + 1) eqn:Hs; simpl.
    + by apply Forall_filter_keep.
    + apply Z.leb_gt in Hs. apply Forall_forall. intros x Hx.
      apply list_elem_of_In, in_map_iff in Hx as (r & <- & Hin).
      rewrite Forall_forall in Hok. apply list_elem_of_In in Hin.
      specialize (Hok r Hin). destruct (by_id _ r); [|done].
      unfold row_ok, set_streak in *; simpl. lia.
  - unfold delete_mistake. destruct (_ =? _)%nat; simpl; [done|].
    split; [by apply NoDup_map_filter | by apply Forall_filter_keep].
  - split; [apply NoDup_nil_2 | constructor].
Qed.

Lemma invariant_initial : invariant initial.
Proof. split; [apply NoDup_nil_2 | constructor]. Qed.

(** C3. Each of the four requests of the mistake tracker (add a mistake,
    record a correct answer, delete a row, clear the table) keeps the
    invariant: at most one mistakes row per [word_id], and in every row
    [correct_streak] 0 or 1 and [mistake_count] at least 1.  So every store
    that the tracker reaches from a new database has it. *)
Theorem mistakes_invariant :
  (forall r d,
     invariant d -> invariant (snd (handle r d)))
  /\ (forall d,
       reachable d ->
       NoDup (List.map word_id (rows (mistakes d)))
       /\ Forall (fun m => 0 <= correct_streak m < 2 /\ 1 <= mistake_count m)
                 (rows (mistakes d))).
Proof.
  split; [exact invariant_preserved|].
  induction 1 as [|r d Hr IH].
  - exact invariant_initial.
  - by apply (invariant_preserved r d).
Qed.

Lemma mistakes_invariant_witness :
  let d1 := snd (handle (AddMistake 7) initial) in
  let d2 := snd (handle (RecordCorrect 7) d1) in
  (invariant d1 /\ invariant (snd (handle (AddMistake 7) d1)))
  /\ reachable d2
  /\ NoDup (List.map word_id (rows (mistakes d2)))
  /\ Forall (fun m => 0 <= correct_streak m < 2 /\ 1 <= mistake_count m)
            (rows (mistakes d2)).
Proof.
  intros d1 d2.
  assert (H1 : invariant d1) by exact (invariant_preserved _ _ invariant_initial).
  assert (H2 : reachable d2) by (do 2 apply reach_step; apply reach_initial).
  split; [split; [exact H1 | exact (proj1 mistakes_invariant (AddMistake 7) d1 H1)]|].
  split; [exact H2 | exact (proj2 mistakes_invariant d2 H2)].
Defined.

(** The other copy counts down instead: each correct answer takes one off
    [mistake_count], and the row goes when none is left. *)
Lemma server_js_counts_down :
  let d0 := ServerJs.Store empty empty in
  let d1 := snd (ServerJs.add_mistake 7 d0) in
  let d2 := snd (ServerJs.add_mistake 7 d1) in
  let d3 := snd (ServerJs.record_correct 7 d2) in
  ServerJs.lookup 7 d1 = Some (ServerJs.Mistake 1 7 1)
  /\ ServerJs.lookup 7 d2 = Some (ServerJs.Mistake 1 7 2)
  /\ ServerJs.lookup 7 d3 = Some (ServerJs.Mistake 1 7 1)
  /\ ServerJs.lookup 7 (snd (ServerJs.record_correct 7 d3)) = None
  /\ ServerJs.lookup 7 (snd (ServerJs.record_correct 7 d1)) = None.
Proof. repeat split. Qed.

End MistakeFacts.

(* ===================================================================== *)
(** * The word store *)
(* ===================================================================== *)

Section WordFacts.
Import Js Sqlite Words.
Local Open Scope Z_scope.

Lemma by_id_more_exposure i w : by_id i (more_exposure w) = by_id i w.
Proof. done. Qed.

Lemma by_id_more_familiarity i w : by_id i (more_familiarity w) = by_id i w.
Proof. done. Qed.

Lemma lookup_update i j f (d : db) :
  (forall w, by_id j (f w) = by_id j w) ->
  lookup j (set_words (update (by_id i) f) d)
  = option_map (fun w => if by_id i w then f w else w) (lookup j d).
Proof. intros Hf. unfold lookup, get. simpl. by apply find_map_if. Qed.

Lemma lookup_by_id i d w : lookup i d = Some w -> by_id i w = true.
Proof. unfold lookup, get. intros H. by apply find_some in H as [_ H]. Qed.

(** C7. [update-stats] on a word that exists: the reply is a success; after
    a correct answer the word has its exposure and its familiarity raised by
    exactly one, after a wrong answer its exposure raised by exactly one and
    its familiarity as before; its id, english, chinese and example are kept;
    every other word and every other table is as before. *)
Theorem update_stats_counts id isCorrect d w :
  lookup id d = Some w ->
  fst (update_stats id isCorrect d) = Sent 200 Success
  /\ lookup id (snd (update_stats id isCorrect d))
     = Some (Word (word_id_of w) (english w) (chinese w) (example w)
                  (familiarity w + (if isCorrect then 1 else 0)) (exposure w + 1))
  /\ (forall j, j <> id ->
        lookup j (snd (update_stats id isCorrect d)) = lookup j d)
  /\ mistakes (snd (update_stats id isCorrect d)) = mistakes d
  /\ test_results (snd (update_stats id isCorrect d)) = test_results d
  /\ reading_passages (snd (update_stats id isCorrect d)) = reading_passages d
  /\ reading_questions (snd (update_stats id isCorrect d)) = reading_questions d.
Proof.
  intros Hl. pose proof (lookup_by_id _ _ _ Hl) as Hid.
  assert (Hother : forall j u, j <> id -> lookup j d = Some u -> by_id id u = false).
  { intros j u Hj Hu. apply lookup_by_id in Hu. unfold by_id in *.
    apply Z.eqb_eq in Hu. apply Z.eqb_neq. congruence. }
  unfold update_stats. destruct isCorrect; simpl.
  - split; [done|]. split; [|split; [|done]].
    + rewrite lookup_update by apply by_id_more_familiarity.
      rewrite lookup_update by apply by_id_more_exposure.
      rewrite Hl. simpl. rewrite Hid. rewrite by_id_more_exposure, Hid.
      destruct w; done.
    + intros j Hj.
      rewrite lookup_update by apply by_id_more_familiarity.
      rewrite lookup_update by apply by_id_more_exposure.
      destruct (lookup j d) as [u|] eqn:Hu; [|done]. simpl.
      by rewrite (Hother j u Hj Hu), (Hother j u Hj Hu).
  - split; [done|]. split; [|split; [|done]].
    + rewrite lookup_update by apply by_id_more_exposure.
      rewrite Hl. simpl. rewrite Hid. destruct w; simpl. by rewrite Z.add_0_r.
    + intros j Hj.
      rewrite lookup_update by apply by_id_more_exposure.
      destruct (lookup j d) as [u|] eqn:Hu; [|done]. simpl.
      by rewrite (Hother j u Hj Hu).
Qed.

Lemma update_stats_counts_witness :
  lookup 1 two_words = Some (Word 1 (lit "apple") (lit "pingguo") None 0 0)
  /\ lookup 1 (snd (update_stats 1 true two_words))
     = Some (Word 1 (lit "apple") (lit "pingguo") None 1 1)
  /\ lookup 1 (snd (update_stats 1 false two_words))
     = Some (Word 1 (lit "apple") (lit "pingguo") None 0 1).
Proof.
  split; [reflexivity|]. split.
  - exact (proj1 (proj2 (update_stats_counts 1 true two_words _ eq_refl))).
  - exact (proj1 (proj2 (update_stats_counts 1 false two_words _ eq_refl))).
Defined.

(** The other copy lowers familiarity after a wrong answer. *)
Lemma server_js_update_stats_wrong :
  let d := ServerJs.Store (words two_words) empty in
  get (by_id 1) (ServerJs.words (snd (ServerJs.update_stats 1 false d)))
  = Some (Word 1 (lit "apple") (lit "pingguo") None (-1) 1).
Proof. reflexivity. Qed.

(** An update of a word that is not there is refused with 404 and changes
    nothing. *)
Lemma update_word_not_found id e c x d :
  truthy e = true -> truthy c = true -> lookup id d = None ->
  update_word id e c x d = (Failed 404 WordNotFound, d).
Proof.
  intros He Hc Hl. unfold update_word. rewrite He, Hc. simpl.
  assert (Hch : changes (by_id id) (words d) = 0%nat).
  { unfold changes. unfold lookup, get in Hl.
    apply find_none_forall in Hl.
    induction Hl as [|a l Ha _ IH]; simpl; [done|]. by rewrite Ha. }
  by rewrite Hch.
Qed.

(** C9, on the code.  In the store with apple (1) and pear (2):
    [PUT /api/words/2] with english "Apple" is accepted, and the store then
    holds two words that [POST /api/words] takes for the same; with english
    "apple" it is refused by the UNIQUE constraint, with status 500; the copy
    in [src/server.js] answers 409 to "apple" and accepts "Apple". *)
Theorem update_word_duplicate :
  let after := snd (update_word 2 (lit "Apple") (lit "li") None two_words) in
  fst (update_word 2 (lit "Apple") (lit "li") None two_words)
  = Sent 200 (Saved 2 (lit "Apple") (lit "li") None)
  /\ option_map english (lookup 1 after) = Some (lit "apple")
  /\ option_map english (lookup 2 after) = Some (lit "Apple")
  /\ same_english (lit "apple") (lit "Apple")
  /\ fst (add_word (lit "Apple") (lit "li") None two_words)
     = Failed 409 (AlreadyExists (Word 1 (lit "apple") (lit "pingguo") None 0 0))
  /\ update_word 2 (lit "apple") (lit "li") None two_words
     = (Failed 500 Constraint, two_words)
  /\ (let d := ServerJs.Store (words two_words) empty in
      fst (ServerJs.update_word 2 (lit "apple") (lit "li") None d)
      = Failed 409 ServerJs.AlreadyExists
      /\ fst (ServerJs.update_word 2 (lit "Apple") (lit "li") None d)
         = Sent 200 (ServerJs.WordUpdated 2 (lit "Apple") (lit "li") None)).
Proof. vm_compute. repeat split; reflexivity. Qed.

End WordFacts.

(* ===================================================================== *)
(** * JavaScript numbers: when the score is a number *)
(* ===================================================================== *)

Section FloatFacts.
Import Submit.
Local Open Scope Z_scope.

Lemma shr_1_nonneg mrs : 0 <= shr_m mrs -> 0 <= shr_m (shr_1 mrs).
Proof. destruct mrs as [[|[p|p|]|p] r s]; simpl; lia. Qed.

Lemma iter_shr_1_nonneg p : forall mrs,
  0 <= shr_m mrs -> 0 <= shr_m (SpecFloat.iter_pos shr_1 p mrs).
Proof.
  induction p as [p IH|p IH|]; intros mrs H; simpl.
  - apply IH, IH. by apply shr_1_nonneg.
  - by apply IH, IH.
  - by apply shr_1_nonneg.
Qed.

Lemma shr_fexp_nonneg m e l :
  0 <= m -> 0 <= shr_m (fst (shr_fexp prec emax m e l)).
Proof.
  intros Hm. unfold shr_fexp, shr.
  assert (H0 : 0 <= shr_m (shr_record_of_loc m l)) by (by destruct l as [|[]]).
  destruct (_ - e); simpl; [done | | done]. by apply iter_shr_1_nonneg.
Qed.

Lemma round_nearest_even_nonneg m l : 0 <= m -> 0 <= round_nearest_even m l.
Proof. intros Hm. destruct l as [|[]]; simpl; try done; [destruct (Z.even m)|]; lia. Qed.

Lemma binary_round_aux_number s m e l :
  0 <= m -> binary_round_aux prec emax s m e l <> S754_nan.
Proof.
  intros Hm. unfold binary_round_aux.
  pose proof (shr_fexp_nonneg m e l Hm) as H1.
  destruct (shr_fexp prec emax m e l) as [mrs' e']. simpl in H1.
  pose proof (shr_fexp_nonneg _ e' loc_Exact
                (round_nearest_even_nonneg _ (loc_of_shr_record mrs') H1)) as H2.
  destruct (shr_fexp prec emax (round_nearest_even _ _) e' loc_Exact) as [mrs'' e''].
  simpl in H2. destruct (shr_m mrs''); [done | by destruct (_ <=? _) | lia].
Qed.

Lemma binary_normalize_number m e sz :
  0 <= m -> binary_normalize prec emax m e sz <> S754_nan.
Proof.
  intros Hm. destruct m as [|p|p]; [done| |lia].
  unfold binary_normalize, binary_round.
  destruct (shl_align p e _) as [mz ez]. by apply binary_round_aux_number.
Qed.

Lemma digits2_bound p : forall k, 0 <= k -> Zpos p < 2 ^ k -> Zpos (digits2_pos p) <= k.
Proof.
  induction p as [p IH|p IH|]; intros k Hk Hp; simpl.
  - assert (0 < k) by (destruct (Z.eq_dec k 0) as [->|]; [simpl in Hp|]; lia).
    replace k with (Z.succ (k - 1)) in Hp by lia. rewrite Z.pow_succ_r in Hp by lia.
    specialize (IH (k - 1)). lia.
  - assert (0 < k) by (destruct (Z.eq_dec k 0) as [->|]; [simpl in Hp|]; lia).
    replace k with (Z.succ (k - 1)) in Hp by lia. rewrite Z.pow_succ_r in Hp by lia.
    specialize (IH (k - 1)). lia.
  - destruct (Z.eq_dec k 0) as [->|]; [simpl in Hp|]; lia.
Qed.

Lemma digits2_shift p d :
  digits2_pos (Pos.iter xO p d) = (digits2_pos p + d)%positive.
Proof.
  induction d as [|d IH] using Pos.peano_ind; simpl.
  - lia.
  - rewrite Pos.iter_succ. simpl. rewrite IH. lia.
Qed.

Lemma binary_round_aux_exact s mz ez :
  Zpos (digits2_pos mz) = 53 -> -1074 <= ez <= 971 ->
  binary_round_aux prec emax s (Zpos mz) ez loc_Exact = S754_finite s mz ez.
Proof.
  intros Hd He. unfold binary_round_aux.
  assert (Hs : shr_fexp prec emax (Zpos mz) ez loc_Exact
               = ({| shr_m := Zpos mz; shr_r := false; shr_s := false |}, ez)).
  { unfold shr_fexp, shr, fexp, Zdigits2. rewrite Hd.
    replace (Z.max (53 + ez - prec) (SpecFloat.emin prec emax) - ez) with 0; [done|].
    unfold SpecFloat.emin, prec, emax. lia. }
  rewrite Hs. simpl. rewrite Hs. simpl.
  assert (Hle : (ez <=? emax - prec) = true) by (apply Z.leb_le; unfold emax, prec; lia).
  by rewrite Hle.
Qed.

(** A count below 2^53 is a finite number. *)
Lemma binary_normalize_finite p :
  Zpos p < 2 ^ 53 ->
  exists m e, binary_normalize prec emax (Zpos p) 0 false = S754_finite false m e.
Proof.
  intros Hp. unfold binary_normalize, binary_round.
  pose proof (digits2_bound p 53 ltac:(lia) Hp) as Hd.
  assert (Hf : fexp prec emax (Zpos (digits2_pos p) + 0) = Zpos (digits2_pos p) - 53).
  { unfold fexp, SpecFloat.emin, prec, emax. lia. }
  rewrite Hf. unfold shl_align.
  destruct (Zpos (digits2_pos p) - 53 - 0) as [|d|d] eqn:Hsub; [|lia|].
  - exists p, 0. apply binary_round_aux_exact; lia.
  - exists (Pos.iter xO p d), (Zpos (digits2_pos p) - 53).
    apply binary_round_aux_exact; [|lia]. rewrite digits2_shift. lia.
Qed.

Lemma SFdiv_number x s m e :
  x <> S754_nan -> SFdiv prec emax x (S754_finite s m e) <> S754_nan.
Proof.
  intros Hx. destruct x as [sx|sx| |sx mx ex]; simpl; try done.
  unfold SFdiv_core_binary.
  set (m' := match _ - _ - _ with Z0 => _ | Zpos _ => _ | Zneg _ => _ end).
  assert (Hm' : 0 <= m').
  { unfold m'. destruct (_ - _ - _); [lia | | lia]. by apply Z.shiftl_nonneg. }
  pose proof (Z.div_pos m' (Zpos m) Hm' ltac:(lia)) as Hq.
  unfold Z.div in Hq. destruct (Z.div_eucl m' (Zpos m)) as [q r].
  by apply binary_round_aux_number.
Qed.

Lemma SFmul_number x s m e :
  x <> S754_nan -> SFmul prec emax x (S754_finite s m e) <> S754_nan.
Proof.
  intros Hx. destruct x as [sx|sx| |sx mx ex]; simpl; try done.
  by apply binary_round_aux_number.
Qed.

Lemma is_nan_Prim2SF x : Prim2SF x <> S754_nan -> is_nan x = false.
Proof. unfold Prim2SF. by destruct (is_nan x). Qed.

Lemma Prim2SF_of_uint63_number n : Prim2SF (of_uint63 n) <> S754_nan.
Proof.
  rewrite FloatAxioms.of_uint63_spec. apply binary_normalize_number.
  apply Uint63.to_Z_bounded.
Qed.

Lemma SFopp_number x : x <> S754_nan -> SFopp x <> S754_nan.
Proof. by destruct x. Qed.

Lemma Math_round_number z : Prim2SF z <> S754_nan -> is_nan (Math_round z) = false.
Proof.
  intros Hz. unfold Math_round.
  destruct (Prim2SF z) as [sz|sz| |sz m e] eqn:Hp; try by apply is_nan_Prim2SF; rewrite Hp.
  destruct (0 <=? e); [by apply is_nan_Prim2SF; rewrite Hp|].
  destruct (_ =? 0); [by destruct sz|].
  destruct (_ <? 0).
  - apply is_nan_Prim2SF. rewrite FloatAxioms.opp_spec.
    apply SFopp_number, Prim2SF_of_uint63_number.
  - apply is_nan_Prim2SF, Prim2SF_of_uint63_number.
Qed.

Lemma Prim2SF_number_finite t :
  (0 < t)%nat -> Z.of_nat t < 2 ^ 53 ->
  exists m e, Prim2SF (number t) = S754_finite false m e.
Proof.
  intros Ht Hb. unfold number. rewrite FloatAxioms.of_uint63_spec, Uint63.of_Z_spec.
  rewrite Z.mod_small.
  - destruct (Z.of_nat t) as [|p|p] eqn:Hp; [lia| |lia].
    by apply binary_normalize_finite.
  - split; [lia|]. eapply Z.lt_trans; [exact Hb|]. done.
Qed.

(** The score of a passage with a question is a number. *)
Lemma percent_number c t :
  (0 < t)%nat -> Z.of_nat t < 2 ^ 53 -> is_nan (percent c t) = false.
Proof.
  intros Ht Hb. unfold percent. apply Math_round_number.
  rewrite FloatAxioms.mul_spec, FloatAxioms.div_spec. unfold SF64mul, SF64div.
  destruct (Prim2SF_number_finite t Ht Hb) as (m & e & ->).
  change (Prim2SF 100) with (S754_finite false 7036874417766400 (-46)).
  apply SFmul_number, SFdiv_number, Prim2SF_of_uint63_number.
Qed.
(** ** The score against the exact percentage

    What follows bounds the two roundings of [(c / t) * 100] from the
    definitions of [SpecFloat]: each is within one unit in the last place of
    what it rounds. *)

Lemma digits2_range p :
  2 ^ (Zpos (digits2_pos p) - 1) <= Zpos p < 2 ^ Zpos (digits2_pos p).
Proof.
  induction p as [p IH|p IH|]; cbn [digits2_pos].
  - rewrite Pos2Z.inj_succ. replace (Z.succ (Zpos (digits2_pos p)) - 1)
      with (Z.succ (Zpos (digits2_pos p) - 1)) by lia.
    rewrite !Z.pow_succ_r by lia. lia.
  - rewrite Pos2Z.inj_succ. replace (Z.succ (Zpos (digits2_pos p)) - 1)
      with (Z.succ (Zpos (digits2_pos p) - 1)) by lia.
    rewrite !Z.pow_succ_r by lia. lia.
  - simpl. lia.
Qed.

Lemma digits2_unique p k :
  2 ^ (k - 1) <= Zpos p < 2 ^ k -> Zpos (digits2_pos p) = k.
Proof.
  intros [Hlo Hhi]. pose proof (digits2_range p) as [Hl Hh].
  assert (Hk : 0 < k).
  { destruct (Z.lt_ge_cases 0 k) as [|Hk]; [done|].
    assert (2 ^ k <= 1); [|lia].
    destruct (Z.eq_dec k 0) as [->|]; [simpl; lia|].
    rewrite Z.pow_neg_r by lia. lia. }
  assert (H1 : Zpos (digits2_pos p) - 1 < k).
  { apply (Z.pow_lt_mono_r_iff 2); lia. }
  assert (H2 : k - 1 < Zpos (digits2_pos p)).
  { apply (Z.pow_lt_mono_r_iff 2); lia. }
  lia.
Qed.

Lemma shr_1_div2 mrs : 0 <= shr_m mrs -> shr_m (shr_1 mrs) = shr_m mrs / 2.
Proof.
  destruct mrs as [[|[p|p|]|p] r s]; cbn [shr_1 shr_m]; intros H; try lia.
  - done.
  - rewrite <- Z.div2_div. done.
  - rewrite <- Z.div2_div. done.
  - done.
Qed.

Lemma iter_shr_1_div p : forall mrs,
  0 <= shr_m mrs -> shr_m (SpecFloat.iter_pos shr_1 p mrs) = shr_m mrs / 2 ^ Zpos p.
Proof.
  induction p as [p IH|p IH|]; intros mrs H; cbn [SpecFloat.iter_pos].
  - rewrite IH by (apply iter_shr_1_nonneg; by apply shr_1_nonneg).
    rewrite IH by (by apply shr_1_nonneg). rewrite shr_1_div2 by done.
    assert (0 < 2 ^ Zpos p) by (apply Z.pow_pos_nonneg; lia).
    rewrite !Z.div_div by lia. f_equal.
    replace (Zpos p~1) with (1 + Zpos p + Zpos p) by lia.
    rewrite !Z.pow_add_r by lia. lia.
  - rewrite IH by (by apply iter_shr_1_nonneg). rewrite IH by done.
    assert (0 < 2 ^ Zpos p) by (apply Z.pow_pos_nonneg; lia).
    rewrite Z.div_div by lia. f_equal.
    replace (Zpos p~0) with (Zpos p + Zpos p) by lia.
    rewrite !Z.pow_add_r by lia. lia.
  - rewrite shr_1_div2 by done. done.
Qed.

Lemma round_nearest_even_near m l :
  round_nearest_even m l = m \/ round_nearest_even m l = m + 1.
Proof. destruct l as [|[]]; simpl; auto. destruct (Z.even m); auto. Qed.

Lemma shr_fexp_shift p e l :
  53 <= Zpos (digits2_pos p) -> -1074 <= e + Zpos (digits2_pos p) - 53 ->
  exists mrs,
    shr_fexp prec emax (Zpos p) e l = (mrs, e + (Zpos (digits2_pos p) - 53))
    /\ shr_m mrs = Zpos p / 2 ^ (Zpos (digits2_pos p) - 53).
Proof.
  intros Hd He. unfold shr_fexp, shr, fexp, Zdigits2.
  replace (Z.max (Zpos (digits2_pos p) + e - prec) (SpecFloat.emin prec emax) - e)
    with (Zpos (digits2_pos p) - 53)
    by (unfold SpecFloat.emin, prec, emax; lia).
  destruct (Zpos (digits2_pos p) - 53) as [|n|n] eqn:Hn; [| |lia].
  - eexists. split; [by rewrite Z.add_0_r|].
    rewrite Z.pow_0_r, Z.div_1_r. by destruct l as [|[]].
  - eexists. split; [reflexivity|]. rewrite iter_shr_1_div; by destruct l as [|[]].
Qed.

Lemma binary_round_aux_near s p e l :
  53 <= Zpos (digits2_pos p) ->
  -1074 <= e + Zpos (digits2_pos p) - 53 ->
  e + Zpos (digits2_pos p) - 52 <= 971 ->
  exists m' w,
    binary_round_aux prec emax s (Zpos p) e l = S754_finite s m' (e + w)
    /\ Zpos (digits2_pos m') = 53
    /\ Zpos (digits2_pos p) - 53 <= w <= Zpos (digits2_pos p) - 52
    /\ Zpos p - 2 ^ (Zpos (digits2_pos p) - 53) < Zpos m' * 2 ^ w
       <= Zpos p + 2 ^ (Zpos (digits2_pos p) - 53).
Proof.
  intros Hd Hlo Hhi. unfold binary_round_aux.
  destruct (shr_fexp_shift p e l Hd Hlo) as (mrs & -> & Hm).
  set (n := Zpos (digits2_pos p) - 53) in *.
  assert (Hn : 0 <= n) by (unfold n; lia).
  assert (Hpow : 0 < 2 ^ n) by (by apply Z.pow_pos_nonneg).
  pose proof (digits2_range p) as [Hpl Hph].
  set (m1 := Zpos p / 2 ^ n) in *.
  assert (Hdiv : m1 * 2 ^ n <= Zpos p < (m1 + 1) * 2 ^ n).
  { unfold m1. pose proof (Z.mul_div_le (Zpos p) (2 ^ n) Hpow).
    pose proof (Z.mul_succ_div_gt (Zpos p) (2 ^ n) Hpow). lia. }
  assert (Hm1 : 2 ^ 52 <= m1 < 2 ^ 53).
  { assert (E1 : 2 ^ (Zpos (digits2_pos p) - 1) = 2 ^ n * 2 ^ 52).
    { rewrite <- Z.pow_add_r by lia. f_equal. unfold n. lia. }
    assert (E2 : 2 ^ Zpos (digits2_pos p) = 2 ^ n * 2 ^ 53).
    { rewrite <- Z.pow_add_r by lia. f_equal. unfold n. lia. }
    split.
    - apply Z.div_le_lower_bound; [done|]. lia.
    - apply Z.div_lt_upper_bound; [done|]. lia. }
  rewrite Hm.
  destruct (round_nearest_even_near m1 (loc_of_shr_record mrs)) as [-> | ->].
  - destruct m1 as [|q|q] eqn:Hq; [lia| |lia].
    assert (Hdq : Zpos (digits2_pos q) = 53) by (apply digits2_unique; simpl; lia).
    assert (Hs : shr_fexp prec emax (Zpos q) (e + n) loc_Exact
                 = ({| shr_m := Zpos q; shr_r := false; shr_s := false |}, e + n)).
    { unfold shr_fexp, shr, fexp, Zdigits2. rewrite Hdq.
      replace (Z.max (53 + (e + n) - prec) (SpecFloat.emin prec emax) - (e + n)) with 0; [done|].
      unfold SpecFloat.emin, prec, emax. lia. }
    rewrite Hs. cbn [shr_m].
    assert (Hle : (e + n <=? emax - prec) = true)
      by (apply Z.leb_le; unfold emax, prec, n; lia).
    rewrite Hle. exists q, n. split; [done|]. split; [done|]. split; [lia|]. lia.
  - destruct (Z.eq_dec (m1 + 1) (2 ^ 53)) as [Heq|Hne].
    + rewrite Heq.
      assert (Hs : shr_fexp prec emax (2 ^ 53) (e + n) loc_Exact
                   = ({| shr_m := 2 ^ 52; shr_r := false; shr_s := false |}, e + n + 1)).
      { unfold shr_fexp, shr, fexp. change (Zdigits2 (2 ^ 53)) with 54.
        replace (Z.max (54 + (e + n) - prec) (SpecFloat.emin prec emax) - (e + n)) with 1; [done|].
        unfold SpecFloat.emin, prec, emax. lia. }
      rewrite Hs. cbn [shr_m]. change (2 ^ 52) with (Zpos 4503599627370496).
      assert (Hle : (e + n + 1 <=? emax - prec) = true)
        by (apply Z.leb_le; unfold emax, prec, n; lia).
      rewrite Hle. exists 4503599627370496%positive, (n + 1).
      split; [by rewrite Z.add_assoc|]. split; [done|]. split; [lia|].
      rewrite Z.pow_add_r by lia. change (Zpos 4503599627370496 * (2 ^ n * 2 ^ 1))
        with (2 ^ 52 * (2 ^ n * 2)). lia.
    + destruct (m1 + 1) as [|q|q] eqn:Hq; [lia| |lia].
      assert (Hdq : Zpos (digits2_pos q) = 53) by (apply digits2_unique; simpl; lia).
      assert (Hs : shr_fexp prec emax (Zpos q) (e + n) loc_Exact
                   = ({| shr_m := Zpos q; shr_r := false; shr_s := false |}, e + n)).
      { unfold shr_fexp, shr, fexp, Zdigits2. rewrite Hdq.
        replace (Z.max (53 + (e + n) - prec) (SpecFloat.emin prec emax) - (e + n)) with 0; [done|].
        unfold SpecFloat.emin, prec, emax. lia. }
      rewrite Hs. cbn [shr_m].
      assert (Hle : (e + n <=? emax - prec) = true)
        by (apply Z.leb_le; unfold emax, prec, n; lia).
      rewrite Hle. exists q, n. split; [done|]. split; [done|]. split; [lia|]. lia.
Qed.

Lemma iter_xO_value p d : Zpos (Pos.iter xO p d) = Zpos p * 2 ^ Zpos d.
Proof.
  induction d as [|d IH] using Pos.peano_ind.
  - simpl. lia.
  - rewrite Pos.iter_succ, Pos2Z.inj_xO, IH, Pos2Z.inj_succ, Z.pow_succ_r by lia. lia.
Qed.

Lemma binary_normalize_value p :
  Zpos p < 2 ^ 53 ->
  exists m e,
    binary_normalize prec emax (Zpos p) 0 false = S754_finite false m e
    /\ Zpos (digits2_pos m) = 53 /\ -52 <= e <= 0
    /\ Zpos m = Zpos p * 2 ^ (- e).
Proof.
  intros Hp. unfold binary_normalize, binary_round.
  pose proof (digits2_bound p 53 ltac:(lia) Hp) as Hd.
  assert (Hf : fexp prec emax (Zpos (digits2_pos p) + 0) = Zpos (digits2_pos p) - 53).
  { unfold fexp, SpecFloat.emin, prec, emax. lia. }
  rewrite Hf. unfold shl_align.
  destruct (Zpos (digits2_pos p) - 53 - 0) as [|d|d] eqn:Hsub; [|lia|].
  - exists p, 0. split; [apply binary_round_aux_exact; lia|].
    split; [lia|]. split; [lia|]. simpl. lia.
  - exists (Pos.iter xO p d), (Zpos (digits2_pos p) - 53).
    split; [apply binary_round_aux_exact; [|lia]; rewrite digits2_shift; lia|].
    split; [rewrite digits2_shift; lia|]. split; [lia|].
    rewrite iter_xO_value. f_equal. f_equal. lia.
Qed.

Lemma number_SF n :
  (0 < n)%nat -> Z.of_nat n < 2 ^ 53 ->
  exists m e,
    Prim2SF (number n) = S754_finite false m e
    /\ Zpos (digits2_pos m) = 53 /\ -52 <= e <= 0
    /\ Zpos m = Z.of_nat n * 2 ^ (- e).
Proof.
  intros Hn Hb. unfold number. rewrite FloatAxioms.of_uint63_spec, Uint63.of_Z_spec.
  rewrite Z.mod_small.
  - destruct (Z.of_nat n) as [|p|p] eqn:Hp; [lia| |lia].
    by apply binary_normalize_value.
  - split; [lia|]. eapply Z.lt_trans; [exact Hb|]. done.
Qed.

Lemma SFdiv_near mc ec mt et :
  Zpos (digits2_pos mc) = 53 -> Zpos (digits2_pos mt) = 53 ->
  -200 <= ec - et <= 200 ->
  exists mq w,
    SFdiv prec emax (S754_finite false mc ec) (S754_finite false mt et)
    = S754_finite false mq (ec - et - 53 + w)
    /\ Zpos (digits2_pos mq) = 53 /\ 0 <= w <= 2
    /\ Zpos mc * 2 ^ 53 - 2 * Zpos mt <= Zpos mq * 2 ^ w * Zpos mt
       <= Zpos mc * 2 ^ 53 + 2 * Zpos mt.
Proof.
  intros Hdc Hdt He. cbn [SFdiv xorb]. unfold SFdiv_core_binary, Zdigits2.
  rewrite Hdc, Hdt.
  assert (He' : Z.min (fexp prec emax (53 + ec - (53 + et))) (ec - et) = ec - et - 53).
  { unfold fexp, SpecFloat.emin, prec, emax. lia. }
  rewrite He'. replace (ec - et - (ec - et - 53)) with 53 by lia.
  rewrite Z.shiftl_mul_pow2 by lia.
  pose proof (digits2_range mc) as [Hcl Hch]. rewrite Hdc in Hcl, Hch.
  pose proof (digits2_range mt) as [Htl Hth]. rewrite Hdt in Htl, Hth.
  change (53 - 1) with 52 in *.
  pose proof (Z.div_eucl_eq (Zpos mc * 2 ^ 53) (Zpos mt) ltac:(lia)) as Heq.
  pose proof (Z.mod_pos_bound (Zpos mc * 2 ^ 53) (Zpos mt) ltac:(lia)) as Hr.
  unfold Z.modulo in Hr.
  destruct (Z.div_eucl (Zpos mc * 2 ^ 53) (Zpos mt)) as [q r].
  assert (Hq : 2 ^ 52 <= q < 2 ^ 54).
  { split.
    - assert (2 ^ 52 - 1 < q); [|lia]. 
      apply (Z.mul_lt_mono_pos_l (Zpos mt)); [lia|]. nia.
    - apply (Z.mul_lt_mono_pos_l (Zpos mt)); [lia|]. nia. }
  destruct q as [|q|q]; [lia| |lia].
  pose proof (digits2_range q) as [Hql Hqh].
  assert (Hdq : 53 <= Zpos (digits2_pos q) <= 54).
  { split.
    - assert (52 < Zpos (digits2_pos q)); [|lia].
      apply (Z.pow_lt_mono_r_iff 2); lia.
    - assert (Zpos (digits2_pos q) - 1 < 54); [|lia].
      apply (Z.pow_lt_mono_r_iff 2); lia. }
  destruct (binary_round_aux_near false q (ec - et - 53) (new_location (Zpos mt) r))
    as (mq & w & Hres & Hdm & Hw & Hv); [lia | lia | lia |].
  exists mq, w. split; [done|]. split; [done|]. split; [lia|].
  assert (Hn : 2 ^ (Zpos (digits2_pos q) - 53) <= 2).
  { destruct (Z.eq_dec (Zpos (digits2_pos q)) 53) as [->|];
      [simpl; lia|]. replace (Zpos (digits2_pos q)) with 54 by lia. simpl. lia. }
  assert (H1 : 1 <= 2 ^ (Zpos (digits2_pos q) - 53)).
  { assert (0 < 2 ^ (Zpos (digits2_pos q) - 53)) by (apply Z.pow_pos_nonneg; lia). lia. }
  nia.
Qed.

Lemma SFmul_100_near mq eq :
  Zpos (digits2_pos mq) = 53 -> -300 <= eq <= 300 ->
  exists mp w,
    SFmul prec emax (S754_finite false mq eq) (S754_finite false 7036874417766400 (-46))
    = S754_finite false mp (eq - 46 + w)
    /\ Zpos (digits2_pos mp) = 53 /\ 52 <= w <= 54
    /\ Zpos mq * 7036874417766400 - 2 ^ 53 <= Zpos mp * 2 ^ w
       <= Zpos mq * 7036874417766400 + 2 ^ 53.
Proof.
  intros Hdq He. cbn [SFmul xorb].
  pose proof (digits2_range mq) as [Hql Hqh]. rewrite Hdq in Hql, Hqh.
  change (53 - 1) with 52 in *.
  pose proof (digits2_range (mq * 7036874417766400)) as [Hpl Hph].
  rewrite Pos2Z.inj_mul in Hpl, Hph.
  assert (Hd : 105 <= Zpos (digits2_pos (mq * 7036874417766400)) <= 106).
  { split.
    - assert (104 < Zpos (digits2_pos (mq * 7036874417766400))); [|lia].
      apply (Z.pow_lt_mono_r_iff 2); [lia|lia|].
      eapply Z.le_lt_trans; [|exact Hph]. 
      change (2 ^ 104) with (2 ^ 52 * 2 ^ 52). 
      apply Z.mul_le_mono_nonneg; lia.
    - assert (Zpos (digits2_pos (mq * 7036874417766400)) - 1 < 106); [|lia].
      apply (Z.pow_lt_mono_r_iff 2); [lia|lia|].
      eapply Z.le_lt_trans; [exact Hpl|].
      change (2 ^ 106) with (2 ^ 53 * 2 ^ 53).
      apply Z.mul_lt_mono_nonneg; lia. }
  destruct (binary_round_aux_near false (mq * 7036874417766400) (eq + -46) loc_Exact)
    as (mp & w & Hres & Hdm & Hw & Hv); [lia | lia | lia |].
  exists mp, w. split; [rewrite Hres; f_equal; lia|]. split; [done|]. split; [lia|].
  rewrite Pos2Z.inj_mul in Hv.
  assert (Hn : 2 ^ (Zpos (digits2_pos (mq * 7036874417766400)) - 53) <= 2 ^ 53).
  { apply Z.pow_le_mono_r; lia. }
  lia.
Qed.

Lemma mul3_bound x y z K :
  - K <= x <= K -> 1 <= y <= 4 -> 0 < z -> - (K * 4 * z) <= x * y * z <= K * 4 * z.
Proof.
  intros Hx Hy Hz.
  assert (H1 : - (K * 4) <= x * y <= K * 4) by nia.
  split; nia.
Qed.

Lemma product_near c t :
  (0 < c)%nat -> (c <= t)%nat -> Z.of_nat t < 2 ^ 32 ->
  exists mp E,
    Prim2SF (PrimFloat.mul (PrimFloat.div (number c) (number t)) 100%float)
    = S754_finite false mp (- E)
    /\ 0 < E
    /\ - 2 ^ E < 2 * (Zpos mp * Z.of_nat t - 100 * Z.of_nat c * 2 ^ E) < 2 ^ E.
Proof.
  intros Hc Hct Ht.
  destruct (number_SF c Hc) as (mc & ec & Hnc & Hdc & Hec & Hmc); [lia|].
  destruct (number_SF t) as (mt & et & Hnt & Hdt & Het & Hmt); [lia | lia |].
  rewrite FloatAxioms.mul_spec, FloatAxioms.div_spec. unfold SF64mul, SF64div.
  rewrite Hnc, Hnt.
  change (Prim2SF 100) with (S754_finite false 7036874417766400 (-46)).
  destruct (SFdiv_near mc ec mt et Hdc Hdt) as (mq & w & -> & Hdq & Hw & Hvq); [lia|].
  destruct (SFmul_100_near mq (ec - et - 53 + w) Hdq) as (mp & w' & -> & Hdp & Hw' & Hvp); [lia|].
  pose proof (digits2_range mc) as [Hcl Hch]. rewrite Hdc in Hcl, Hch.
  pose proof (digits2_range mt) as [Htl Hth]. rewrite Hdt in Htl, Hth.
  change (53 - 1) with 52 in *.
  set (a := - ec) in *. set (b := - et) in *.
  assert (Ha : 0 <= a <= 52) by (unfold a; lia).
  assert (Hb : 0 <= b <= 52) by (unfold b; lia).
  assert (HA : 0 < 2 ^ a) by (apply Z.pow_pos_nonneg; lia).
  assert (HB : 0 < 2 ^ b) by (apply Z.pow_pos_nonneg; lia).
  assert (Hb21 : 21 <= b).
  { assert (20 < b); [|lia]. apply (Z.pow_lt_mono_r_iff 2); [lia|lia|].
    change (2 ^ 20) with 1048576. change (2 ^ 32) with 4294967296 in Ht.
    change (2 ^ 52) with 4503599627370496 in Htl. nia. }
  assert (Hab : b <= a).
  { destruct (Z.le_gt_cases b a) as [|Hlt]; [done|]. exfalso.
    assert (Hp : 2 * 2 ^ a <= 2 ^ b).
    { replace b with (Z.succ a + (b - Z.succ a)) by lia.
      rewrite Z.pow_add_r, Z.pow_succ_r by lia.
      assert (0 < 2 ^ (b - Z.succ a)) by (apply Z.pow_pos_nonneg; lia). nia. }
    nia. }
  exists mp, (a - b + 99 - w - w'). split; [f_equal; unfold a, b; lia|].
  split; [lia|].
  set (E := a - b + 99 - w - w').
  assert (HE : 0 < 2 ^ E) by (apply Z.pow_pos_nonneg; unfold E; lia).
  assert (HW : 1 <= 2 ^ w <= 4).
  { split; [assert (0 < 2 ^ w) by (apply Z.pow_pos_nonneg; lia); lia|].
    change 4 with (2 ^ 2). apply Z.pow_le_mono_r; lia. }
  assert (HW' : 0 < 2 ^ w') by (apply Z.pow_pos_nonneg; lia).
  assert (Hscale : 2 ^ E * (2 ^ w * 2 ^ w' * 2 ^ b) = 2 ^ a * 2 ^ 99).
  { rewrite <- !Z.pow_add_r by (unfold E; lia). f_equal. unfold E. lia. }
  assert (HA21 : 2 ^ 21 <= 2 ^ a) by (apply Z.pow_le_mono_r; lia).
  set (S := 2 ^ w * 2 ^ w' * 2 ^ b) in *.
  assert (HS : 0 < S) by (unfold S; nia).
  set (D := Zpos mp * Z.of_nat t - 100 * Z.of_nat c * 2 ^ E).
  set (D' := Zpos mp * 2 ^ w' * 2 ^ w * Zpos mt - 7036874417766400 * (Zpos mc * 2 ^ 53)).
  assert (HD : D * S = D').
  { unfold D, D'. rewrite Hmc, Hmt. fold a. fold b.
    rewrite Z.mul_sub_distr_r.
    replace (100 * Z.of_nat c * 2 ^ E * S)
      with (100 * Z.of_nat c * (2 ^ E * S)) by ring.
    rewrite Hscale. change (2 ^ 99) with (70368744177664 * 2 ^ 53).
    change (2 ^ 53) with 9007199254740992. unfold S. ring. }
  assert (HD' : - 2 ^ 109 < D' < 2 ^ 109).
  { unfold D'.
    pose proof (mul3_bound (Zpos mp * 2 ^ w' - Zpos mq * 7036874417766400) (2 ^ w)
                  (Zpos mt) (2 ^ 53) ltac:(lia) HW ltac:(lia)) as H1.
    change (2 ^ 53) with 9007199254740992 in *.
    change (2 ^ 52) with 4503599627370496 in *.
    change (2 ^ 109) with 649037107316853453566312041152512.
    assert (Hx : Zpos mp * 2 ^ w' * 2 ^ w * Zpos mt
                 = 7036874417766400 * (Zpos mq * 2 ^ w * Zpos mt)
                   + (Zpos mp * 2 ^ w' - Zpos mq * 7036874417766400) * 2 ^ w * Zpos mt)
      by ring.
    rewrite Hx. clear Hx.
    set (T1 := (Zpos mp * 2 ^ w' - Zpos mq * 7036874417766400) * 2 ^ w * Zpos mt) in *.
    set (T2 := Zpos mq * 2 ^ w * Zpos mt) in *.
    lia. }
  assert (HX : 2 ^ E * S = 2 ^ a * 2 ^ 99) by exact Hscale.
  change (2 ^ 109) with 649037107316853453566312041152512 in HD'.
  change (2 ^ 99) with 633825300114114700748351602688 in HX.
  change (2 ^ 21) with 2097152 in HA21.
  clear - HD HD' HX HA21 HS HE. split; nia.
Qed.

Lemma Math_round_finite p mp E :
  Prim2SF p = S754_finite false mp (- E) -> 0 < E ->
  Math_round p = number (Z.to_nat ((2 * Zpos mp + 2 ^ E) / 2 ^ (1 + E))).
Proof.
  intros Hp HE. unfold Math_round. rewrite Hp.
  assert (Hneg : (0 <=? - E) = false) by (apply Z.leb_gt; lia).
  rewrite Hneg. rewrite Z.opp_involutive.
  replace (1 - - E) with (1 + E) by lia.
  set (n := (2 * Zpos mp + 2 ^ E) / 2 ^ (1 + E)).
  assert (Hn : 0 <= n).
  { apply Z.div_pos; [|apply Z.pow_pos_nonneg; lia].
    assert (0 < 2 ^ E) by (apply Z.pow_pos_nonneg; lia). lia. }
  destruct (n =? 0) eqn:H0.
  - apply Z.eqb_eq in H0. rewrite H0. reflexivity.
  - assert (Hlt : (n <? 0) = false) by (apply Z.ltb_ge; lia). rewrite Hlt.
    unfold number. by rewrite Z2Nat.id.
Qed.

Lemma percent_zero t :
  (0 < t)%nat -> Z.of_nat t < 2 ^ 53 -> percent 0 t = number 0.
Proof.
  intros Ht Hb. unfold percent.
  destruct (number_SF t Ht Hb) as (mt & et & Hnt & _).
  set (p := PrimFloat.mul (PrimFloat.div (number 0) (number t)) 100%float).
  assert (Hp : Prim2SF p = S754_zero false).
  { unfold p. rewrite FloatAxioms.mul_spec, FloatAxioms.div_spec.
    unfold SF64mul, SF64div. rewrite Hnt.
    change (Prim2SF (number 0)) with (S754_zero false).
    change (Prim2SF 100) with (S754_finite false 7036874417766400 (-46)).
    reflexivity. }
  unfold Math_round. rewrite Hp.
  rewrite <- (FloatAxioms.SF2Prim_Prim2SF p), Hp. reflexivity.
Qed.

Lemma percent_rounds c t :
  (c <= t)%nat -> (0 < t)%nat -> Z.of_nat t < 2 ^ 32 ->
  exists k : nat,
    percent c t = number k
    /\ 2 * Z.of_nat t * Z.of_nat k <= 200 * Z.of_nat c + Z.of_nat t
       <= 2 * Z.of_nat t * (Z.of_nat k + 1).
Proof.
  intros Hct Ht Hb. destruct c as [|c].
  - exists 0%nat. split; [apply percent_zero; [done|]; change (2 ^ 32) with 4294967296 in Hb;
      change (2 ^ 53) with 9007199254740992; lia|]. lia.
  - destruct (product_near (S c) t ltac:(lia) Hct Hb) as (mp & E & Hp & HE & HD).
    unfold percent. rewrite (Math_round_finite _ mp E Hp HE).
    set (n := (2 * Zpos mp + 2 ^ E) / 2 ^ (1 + E)).
    exists (Z.to_nat n). split; [done|].
    assert (HX : 0 < 2 ^ E) by (apply Z.pow_pos_nonneg; lia).
    assert (Hn : 0 <= n).
    { apply Z.div_pos; [lia | apply Z.pow_pos_nonneg; lia]. }
    rewrite Z2Nat.id by done.
    assert (Hpow : 2 ^ (1 + E) = 2 * 2 ^ E) by (rewrite Z.pow_add_r by lia; done).
    assert (Hdiv : n * (2 * 2 ^ E) <= 2 * Zpos mp + 2 ^ E < (n + 1) * (2 * 2 ^ E)).
    { unfold n. rewrite Hpow.
      pose proof (Z.mul_div_le (2 * Zpos mp + 2 ^ E) (2 * 2 ^ E) ltac:(lia)).
      pose proof (Z.mul_succ_div_gt (2 * Zpos mp + 2 ^ E) (2 * 2 ^ E) ltac:(lia)). lia. }
    set (X := 2 ^ E) in *. set (T := Z.of_nat t) in *. set (C := Z.of_nat (S c)) in *.
    assert (HT : 0 < T) by (unfold T; lia).
    clearbody X T C n. clear - HD Hdiv HX HT Hn.
    split.
    + destruct (Z.le_gt_cases (2 * T * n) (200 * C + T)) as [|Hgt]; [done|]. exfalso.
      assert (H1 : (200 * C + T + 1) * X <= 2 * T * n * X) by nia.
      nia.
    + destruct (Z.le_gt_cases (200 * C + T) (2 * T * (n + 1))) as [|Hgt]; [done|]. exfalso.
      assert (H1 : (2 * T * (n + 1) + 1) * X <= (200 * C + T) * X) by nia.
      nia.
Qed.

(** The score is the rounded percentage, or, when the exact percentage is a
    half, possibly the integer under it. *)
Lemma percent_rounded c t :
  (c <= t)%nat -> (0 < t)%nat -> Z.of_nat t < 2 ^ 32 ->
  exists k : nat,
    percent c t = number k
    /\ (k = rounded_percent c t
        \/ (S k = rounded_percent c t
            /\ 200 * Z.of_nat c + Z.of_nat t = 2 * Z.of_nat t * Z.of_nat (S k))).
Proof.
  intros Hct Ht Hb. destruct (percent_rounds c t Hct Ht Hb) as (k & Hk & Hlo & Hhi).
  exists k. split; [done|]. unfold rounded_percent.
  destruct (Z.eq_dec (200 * Z.of_nat c + Z.of_nat t) (2 * Z.of_nat t * (Z.of_nat k + 1)))
    as [Heq|Hne].
  - right. rewrite Heq. rewrite Z.mul_comm, Z.div_mul by lia.
    split; lia.
  - left.
    assert (Hq : Z.of_nat k = (200 * Z.of_nat c + Z.of_nat t) / (2 * Z.of_nat t)).
    { apply Z.div_unique
        with (200 * Z.of_nat c + Z.of_nat t - 2 * Z.of_nat t * Z.of_nat k); lia. }
    by rewrite <- Hq, Nat2Z.id.
Qed.

End FloatFacts.

(* ===================================================================== *)
(** * The reading submission *)
(* ===================================================================== *)

Section SubmitFacts.
Import Js Sqlite Submit.
Variable toUpperCase : jsstring -> jsstring.

(** The loop counts the right answers and gives one result per question. *)
Lemma grade_fold answers qs n rs :
  fold_left (grade toUpperCase answers) qs (n, rs)
  = (n + length (right_answers toUpperCase answers qs),
     rs ++ List.map (fun q =>
             AnswerResult (question_id q) (answers !! question_id q) (correct_answer q)
               (is_correct toUpperCase (answers !! question_id q) q)) qs)%nat.
Proof.
  revert n rs. induction qs as [|q qs IH]; intros n rs; simpl.
  - by rewrite Nat.add_0_r, app_nil_r.
  - rewrite IH. unfold right_answers. simpl.
    destruct (is_correct toUpperCase (answers !! question_id q) q); simpl;
      f_equal; try lia; by rewrite <- app_assoc.
Qed.

Lemma submit_answers_graded passageId answers d :
  passageId <> 0%Z ->
  let qs := questions_of passageId d in
  let correct := length (right_answers toUpperCase answers qs) in
  let total := length qs in
  submit_answers toUpperCase passageId (Some answers) d
  = (Sent 200 (SubmitBody true (percent correct total) correct total
       (List.map (fun q =>
          AnswerResult (question_id q) (answers !! question_id q) (correct_answer q)
            (is_correct toUpperCase (answers !! question_id q) q)) qs)),
     try_insert_result (result_row (percent correct total) total correct) d).
Proof.
  intros Hp qs correct total. unfold submit_answers.
  apply Z.eqb_neq in Hp. rewrite Hp.
  unfold all. fold (questions_of passageId d). fold qs.
  by rewrite grade_fold.
Qed.

(** C8, as the code has it.  For a passage with at least one question (and
    fewer than 2^32, as every array of JavaScript has), the reply is a
    success whose [correctCount] is the number of questions of the passage
    whose submitted answer is there, is not empty and equals the stored
    [correct_answer] once both are upper-cased, and whose [totalQuestions] is
    the number of questions of the passage.  Its [score] is a whole number:
    the exact percentage [100 * correctCount / totalQuestions] rounded to the
    nearest integer with a half going up, or, only when the exact percentage
    is a whole number and a half, possibly the whole number under it (the
    product of binary64 can fall under the half).  [test_results] gains
    exactly one row, with the same score and counts.  One right answer out of
    two gives 50. *)
Theorem submit_score passageId answers d :
  passageId <> 0%Z ->
  questions_of passageId d <> [] ->
  (Z.of_nat (length (questions_of passageId d)) < 2 ^ 32)%Z ->
  let qs := questions_of passageId d in
  let correct := length (right_answers toUpperCase answers qs) in
  let total := length qs in
  let reply := fst (submit_answers toUpperCase passageId (Some answers) d) in
  let after := snd (submit_answers toUpperCase passageId (Some answers) d) in
  exists score : nat,
    (score = rounded_percent correct total
     \/ (S score = rounded_percent correct total
         /\ (200 * Z.of_nat correct + Z.of_nat total
             = 2 * Z.of_nat total * Z.of_nat (S score))%Z))
    /\ PrimFloat.is_nan (number score) = false
    /\ (exists results,
          reply = Sent 200 (SubmitBody true (number score) correct total results))
    /\ (exists i,
          rows (test_results after)
          = rows (test_results d)
            ++ [TestResult i (number score) (Z.of_nat total) (Z.of_nat correct)
                  (Z.of_nat total - Z.of_nat correct) (lit "reading-comprehension")])
    /\ percent 1 2 = number 50.
Proof.
  intros Hp Hqs Hb qs correct total reply after.
  assert (Ht : (0 < total)%nat).
  { unfold total, qs. destruct (questions_of passageId d); [done | simpl; lia]. }
  assert (Hct : (correct <= total)%nat) by apply filter_length_le.
  destruct (percent_rounded correct total Hct Ht Hb) as (score & Hscore & Hround).
  assert (Hnan : PrimFloat.is_nan (number score) = false).
  { rewrite <- Hscore. apply percent_number; [done|].
    eapply Z.lt_trans; [exact Hb | done]. }
  exists score. split; [exact Hround|]. split; [exact Hnan|].
  unfold reply, after. rewrite submit_answers_graded by done. simpl.
  fold qs. fold correct. fold total. rewrite Hscore.
  split; [eauto|]. split; [|reflexivity].
  unfold try_insert_result. simpl. rewrite Hnan. simpl. eauto.
Qed.

(** Counterexample to C8 as it is stated: 23 right answers out of 40 are
    57.5 percent, which rounds to 58, and the handler replies with the score
    57 and records it. *)
Lemma score_under_rounded_percent :
  rounded_percent 23 40 = 58%nat
  /\ (exists results,
        fst (submit_answers ascii_upper 1 (Some first_23_right) forty_questions)
        = Sent 200 (SubmitBody true (number 57) 23 40 results))
  /\ rows (test_results
             (snd (submit_answers ascii_upper 1 (Some first_23_right) forty_questions)))
     = [TestResult 1 (number 57) 40 23 17 (lit "reading-comprehension")]
  /\ percent 23 40 = number 57
  /\ number 57 <> number (rounded_percent 23 40).
Proof.
  split; [reflexivity|]. split; [eexists; vm_compute; reflexivity|].
  split; [vm_compute; reflexivity|]. split; [reflexivity|].
  intros H. apply (f_equal Prim2SF) in H. vm_compute in H. discriminate.
Qed.

Lemma no_passage_no_questions passageId d :
  linked d -> passage_of passageId d = None -> questions_of passageId d = [].
Proof.
  intros Hl Hn. unfold questions_of.
  destruct (List.filter _ _) as [|q qs] eqn:Hf; [done|].
  assert (Hq : In q (List.filter (fun q => (passage_id q =? passageId)%Z)
                       (rows (reading_questions d)))) by (rewrite Hf; by left).
  apply filter_In in Hq as [Hin Hid]. apply Z.eqb_eq in Hid.
  destruct (Hl q Hin) as (p & Hp & Hpid).
  unfold passage_of, get in Hn.
  apply find_none_forall in Hn. rewrite Forall_forall in Hn.
  apply list_elem_of_In in Hp. specialize (Hn p Hp). simpl in Hn.
  apply Z.eqb_neq in Hn. congruence.
Qed.

(** C10. For a passage id that passes the required-parameter test and that
    is not stored or has no question (in a store where every question
    belongs to a stored passage, as the importer keeps it), the reply is not
    a 404: it is the success reply with [correctCount] 0, [totalQuestions]
    0, no result and the score [Math.round((0 / 0) * 100)], which is NaN;
    the INSERT is attempted with the row that carries that NaN. *)
Theorem submit_without_questions passageId answers d :
  passageId <> 0%Z ->
  linked d ->
  passage_of passageId d = None \/ questions_of passageId d = [] ->
  percent 0 0 = nan
  /\ submit_answers toUpperCase passageId (Some answers) d
     = (Sent 200 (SubmitBody true nan 0 0 []),
        try_insert_result (result_row nan 0 0) d).
Proof.
  intros Hp Hl Hq. split; [reflexivity|].
  assert (Hqs : questions_of passageId d = []).
  { destruct Hq as [Hq|Hq]; [by apply no_passage_no_questions | done]. }
  rewrite submit_answers_graded by done. rewrite Hqs. reflexivity.
Qed.

(** The INSERT of a NaN score is refused: the store stays as it was. *)
Lemma nan_score_not_recorded d : try_insert_result (result_row nan 0 0) d = d.
Proof. reflexivity. Qed.

End SubmitFacts.

Section SubmitExamples.
Import Js Sqlite Submit.

Lemma submit_score_witness :
  ((1 <> 0)%Z
   /\ questions_of 1 two_questions <> []
   /\ (Z.of_nat (length (questions_of 1 two_questions)) < 2 ^ 32)%Z)
  /\ fst (submit_answers ascii_upper 1 (Some one_right) two_questions)
     = Sent 200 (SubmitBody true (number 50) 1 2
         [AnswerResult 1 (Some (lit "a")) (lit "A") true;
          AnswerResult 2 (Some (lit "B")) (lit "A") false])
  /\ exists score : nat,
       (score = rounded_percent 1 2
        \/ (S score = rounded_percent 1 2
            /\ (200 * Z.of_nat 1 + Z.of_nat 2 = 2 * Z.of_nat 2 * Z.of_nat (S score))%Z))
       /\ (exists results,
             fst (submit_answers ascii_upper 1 (Some one_right) two_questions)
             = Sent 200 (SubmitBody true (number score) 1 2 results))
       /\ exists i,
            rows (test_results (snd (submit_answers ascii_upper 1 (Some one_right)
                                       two_questions)))
            = [TestResult i (number score) 2 1 1 (lit "reading-comprehension")].
Proof.
  assert (H1 : (1 <> 0)%Z) by lia.
  assert (H2 : questions_of 1 two_questions <> []) by discriminate.
  assert (H3 : (Z.of_nat (length (questions_of 1 two_questions)) < 2 ^ 32)%Z)
    by reflexivity.
  split; [by repeat split|]. split; [reflexivity|].
  destruct (submit_score ascii_upper 1 one_right two_questions H1 H2 H3)
    as (score & Hround & _ & Hreply & Hrows & _).
  exists score. split; [exact Hround|]. split; [exact Hreply | exact Hrows].
Defined.

Lemma two_questions_linked : linked two_questions.
Proof.
  intros q Hq. exists (Passage 1 (lit "T") (lit "B") 0). split; [by left|].
  simpl in Hq. by destruct Hq as [<-|[<-|[]]].
Qed.

Lemma submit_without_questions_witness :
  ((9 <> 0)%Z /\ linked two_questions /\ passage_of 9 two_questions = None)
  /\ submit_answers ascii_upper 9 (Some one_right) two_questions
     = (Sent 200 (SubmitBody true nan 0 0 []),
        try_insert_result (result_row nan 0 0) two_questions).
Proof.
  assert (H1 : (9 <> 0)%Z) by lia.
  split; [split; [exact H1 | split; [exact two_questions_linked | reflexivity]]|].
  exact (proj2 (submit_without_questions ascii_upper 9 one_right two_questions
                  H1 two_questions_linked (or_introl eq_refl))).
Defined.

(** The score is the rounding of the binary64 product, not of the exact
    percentage: 23 of 40 is 57.5 percent, the product is just below it. *)
Lemma percent_23_of_40 : percent 23 40 = 57%float.
Proof. reflexivity. Qed.

End SubmitExamples.

(* ===================================================================== *)
(** * The matcher *)
(* ===================================================================== *)

Section MatcherFacts.
Import Js Re.

(** Whatever the matcher returns was returned by its continuation on what
    is left of the input, and a consuming pattern has taken something. *)
Lemma greedy_loop_shrinks {R} body (k : jsstring -> captures -> option R) :
  (forall s c k' x, body s c k' = Some x ->
     exists s' c', k' s' c' = Some x /\ length s' <= length s) ->
  forall n s c x, greedy_loop body k n s c = Some x ->
    exists s' c', k s' c' = Some x /\ length s' <= length s.
Proof.
  intros Hbody. induction n as [|n IH]; intros s c x; simpl.
  - eauto.
  - destruct (body s c _) as [y|] eqn:Hb.
    + intros [= ->]. apply Hbody in Hb as (s1 & c1 & Hk & Hlen).
      destruct (length s1 <? length s) eqn:Hlt; [|done].
      apply IH in Hk as (s' & c' & Hk & Hlen'). exists s', c'. split; [done | lia].
    + eauto.
Qed.

Lemma lazy_loop_shrinks {R} body (k : jsstring -> captures -> option R) :
  (forall s c k' x, body s c k' = Some x ->
     exists s' c', k' s' c' = Some x /\ length s' <= length s) ->
  forall n s c x, lazy_loop body k n s c = Some x ->
    exists s' c', k s' c' = Some x /\ length s' <= length s.
Proof.
  intros Hbody. induction n as [|n IH]; intros s c x; simpl.
  - eauto.
  - destruct (k s c) as [y|] eqn:Hk0.
    + intros [= ->]. eauto.
    + intros Hb. apply Hbody in Hb as (s1 & c1 & Hk & Hlen).
      destruct (length s1 <? length s) eqn:Hlt; [|done].
      apply IH in Hk as (s' & c' & Hk & Hlen'). exists s', c'. split; [done | lia].
Qed.

Lemma run_shrinks r :
  forall R s c (k : jsstring -> captures -> option R) x,
    run r s c k = Some x ->
    exists s' c', k s' c' = Some x
      /\ length s' <= length s
      /\ (consuming r = true -> length s' < length s).
Proof.
  induction r as [|p|r1 IH1 r2 IH2|r1 IH1 r2 IH2|r1 IH1|r1 IH1|i r1 IH1|r1 IH1|];
    intros R s c k x; simpl.
  - intros Hk. exists s, c. split; [done|]. split; [lia | done].
  - destruct s as [|y s]; [done|]. destruct (p y); [|done].
    intros Hk. exists s, c. simpl. split; [done|]. split; lia.
  - intros H. apply IH1 in H as (s1 & c1 & H & Hle1 & Hlt1).
    apply IH2 in H as (s2 & c2 & H & Hle2 & Hlt2).
    exists s2, c2. split; [done|]. split; [lia|].
    intros [Hc|Hc]%orb_true_iff; [specialize (Hlt1 Hc) | specialize (Hlt2 Hc)]; lia.
  - destruct (run r1 s c k) as [y|] eqn:H1.
    + intros [= ->]. apply IH1 in H1 as (s1 & c1 & H & Hle & Hlt).
      exists s1, c1. split; [done|]. split; [done|].
      intros [Hc _]%andb_true_iff. auto.
    + intros H2. apply IH2 in H2 as (s1 & c1 & H & Hle & Hlt).
      exists s1, c1. split; [done|]. split; [done|].
      intros [_ Hc]%andb_true_iff. auto.
  - intros H. apply greedy_loop_shrinks in H as (s' & c' & H & Hle).
    + exists s', c'. by repeat split.
    + intros s0 c0 k' y Hb. apply IH1 in Hb as (s1 & c1 & ? & ? & _). eauto.
  - intros H. apply lazy_loop_shrinks in H as (s' & c' & H & Hle).
    + exists s', c'. by repeat split.
    + intros s0 c0 k' y Hb. apply IH1 in Hb as (s1 & c1 & ? & ? & _). eauto.
  - intros H. apply IH1 in H as (s1 & c1 & H & Hle & Hlt). eauto 6.
  - destruct (run r1 s c _) as [c1|]; [|done].
    intros Hk. exists s, c1. split; [done|]. split; [lia | done].
  - destruct s; [|done]. intros Hk. exists [], c. split; [done|]. split; [lia | done].
Qed.

Lemma match_here_shrinks r s rest c :
  consuming r = true -> match_here r s = Some (rest, c) -> length rest < length s.
Proof.
  intros Hc H. apply run_shrinks in H as (s' & c' & [= -> ->] & _ & Hlt). auto.
Qed.

Lemma exec_shrinks r s rest c :
  consuming r = true -> exec r s = Some (rest, c) -> length rest < length s.
Proof.
  intros Hc. induction s as [|x s IH]; simpl.
  - destruct (match_here r []) as [[rest' c']|] eqn:Hm; [|done].
    intros [= -> ->]. by apply match_here_shrinks in Hm.
  - destruct (match_here r (x :: s)) as [[rest' c']|] eqn:Hm.
    + intros [= -> ->]. by apply match_here_shrinks in Hm.
    + intros H. apply IH in H. lia.
Qed.

(** The loop over the matches of a consuming pattern ends. *)
Lemma exec_loop_total r :
  consuming r = true ->
  forall n s, length s <= n -> is_Some (exec_loop n r s).
Proof.
  intros Hc. induction n as [|n IH]; intros s Hn; simpl.
  - destruct (exec r s) as [[rest c]|] eqn:He; [|done].
    apply exec_shrinks in He; [lia | done].
  - destruct (exec r s) as [[rest c]|] eqn:He; [|done].
    apply exec_shrinks in He; [|done].
    apply Nat.ltb_lt in He as Hlt. rewrite Hlt.
    destruct (IH rest) as [ms Hms]; [lia|]. by rewrite Hms.
Qed.

Lemma exec_all_total r s : consuming r = true -> is_Some (exec_all r s).
Proof. intros Hc. by apply exec_loop_total. Qed.

(** ** The bounds of the loops are never met *)

(** The matcher only looks at what its continuation returns. *)
Lemma run_ext r : forall R s c (k k' : jsstring -> captures -> option R),
  (forall s' c', k s' c' = k' s' c') -> run r s c k = run r s c k'.
Proof.
  induction r as [|p|r1 IH1 r2 IH2|r1 IH1 r2 IH2|r1 IH1|r1 IH1|i r1 IH1|r1 IH1|];
    intros R s c k k' Hk; simpl.
  - apply Hk.
  - destruct s as [|x s]; [done|]. destruct (p x); [apply Hk | done].
  - apply IH1. intros s1 c1. by apply IH2.
  - rewrite (IH1 _ s c k k' Hk), (IH2 _ s c k k' Hk). done.
  - generalize (length s). intros n. revert s c.
    induction n as [|n IHn]; intros s c; simpl; [apply Hk|].
    rewrite Hk. erewrite IH1; [done|]. intros s1 c1. simpl.
    destruct (length s1 <? length s); [apply IHn | done].
  - generalize (length s). intros n. revert s c.
    induction n as [|n IHn]; intros s c; simpl; [apply Hk|].
    rewrite Hk. destruct (k' s c); [done|]. apply IH1. intros s1 c1. simpl.
    destruct (length s1 <? length s); [apply IHn | done].
  - apply IH1. intros s1 c1. apply Hk.
  - destruct (run r1 s c _); [apply Hk | done].
  - destruct s; [apply Hk | done].
Qed.

Lemma run_none r : forall R s c (k : jsstring -> captures -> option R),
  (forall s' c', k s' c' = None) -> run r s c k = None.
Proof.
  intros R s c k Hk. destruct (run r s c k) as [x|] eqn:Hr; [|done].
  apply run_shrinks in Hr as (s' & c' & Hr & _). by rewrite Hk in Hr.
Qed.

(** A quantifier gives the same with any bound that is at least the length
    of what is left: the bound only makes the recursion structural. *)
Lemma greedy_loop_bound r {R} (k : jsstring -> captures -> option R) n :
  forall m s c, length s <= n -> length s <= m ->
    greedy_loop (run r) k n s c = greedy_loop (run r) k m s c.
Proof.
  assert (Hend : forall j c, greedy_loop (run r) k j [] c = k [] c).
  { intros [|j] c; simpl; [done|]. by rewrite run_none. }
  induction n as [|n IH]; intros m s c Hn Hm.
  - destruct s; [|simpl in Hn; lia]. by rewrite !Hend.
  - destruct m as [|m].
    + destruct s; [|simpl in Hm; lia]. by rewrite !Hend.
    + simpl. erewrite run_ext; [done|]. intros s1 c1. simpl.
      destruct (length s1 <? length s) eqn:Hlt; [|done].
      apply Nat.ltb_lt in Hlt. apply IH; lia.
Qed.

Lemma lazy_loop_bound r {R} (k : jsstring -> captures -> option R) n :
  forall m s c, length s <= n -> length s <= m ->
    lazy_loop (run r) k n s c = lazy_loop (run r) k m s c.
Proof.
  assert (Hend : forall j c, lazy_loop (run r) k j [] c = k [] c).
  { intros [|j] c; simpl; [done|]. destruct (k [] c); [done|]. by rewrite run_none. }
  induction n as [|n IH]; intros m s c Hn Hm.
  - destruct s; [|simpl in Hn; lia]. by rewrite !Hend.
  - destruct m as [|m].
    + destruct s; [|simpl in Hm; lia]. by rewrite !Hend.
    + simpl. destruct (k s c); [done|]. apply run_ext. intros s1 c1. simpl.
      destruct (length s1 <? length s) eqn:Hlt; [|done].
      apply Nat.ltb_lt in Hlt. apply IH; lia.
Qed.

Lemma split_loop_bound r n : forall m seg s,
  length s <= n -> length s <= m -> split_loop r n seg s = split_loop r m seg s.
Proof.
  induction n as [|n IH]; intros m seg s Hn Hm.
  - destruct s; [by destruct m | simpl in Hn; lia].
  - destruct s as [|x s]; [by destruct m|].
    destruct m as [|m]; [simpl in Hm; lia|]. simpl in Hn, Hm. cbn [split_loop].
    destruct (match_here r (x :: s)) as [[rest c]|].
    + destruct (length rest <? length (x :: s)) eqn:Hlt.
      * apply Nat.ltb_lt in Hlt. simpl in Hlt. f_equal. apply IH; lia.
      * destruct seg; [|f_equal]; apply IH; lia.
    + apply IH; lia.
Qed.

End MatcherFacts.

(* ===================================================================== *)
(** * The reading importer *)
(* ===================================================================== *)

Section ImportFacts.
Import Js Re Sqlite Importer.

(** Both matching loops of the handler end, so the handler replies. *)
Lemma parse_questions_total s : is_Some (parse_questions s).
Proof.
  unfold parse_questions.
  destruct (exec_all_total questionRegex s eq_refl) as [ms ->]. by eexists.
Qed.

Lemma parse_answers_total s : is_Some (parse_answers s).
Proof.
  unfold parse_answers.
  destruct (exec_all_total answerRegex s eq_refl) as [ms ->]. by eexists.
Qed.

Lemma parse_total content : is_Some (parse content).
Proof.
  unfold parse. destruct (negb (truthy content)); [by eexists|].
  destruct (sections content) as [[[p q] a]|]; [|by eexists].
  destruct (_ <? 1); [by eexists|].
  destruct (negb (truthy (trim (nth 0 _ [])))); [by eexists|].
  destruct (negb (truthy (trim (join_lines _)))); [by eexists|].
  destruct (parse_questions_total q) as [qs ->].
  destruct (length qs =? 0); [by eexists|].
  destruct (check_questions 0 qs); [by eexists|].
  destruct (parse_answers_total a) as [[ans errs] ->].
  repeat (case_match; try by eexists).
Qed.

Lemma reading_import_total sch content d : is_Some (reading_import sch content d).
Proof.
  unfold reading_import. destruct (parse_total content) as [[e|p] ->]; by eexists.
Qed.

(** A refusal is a 400 and leaves the store as it was. *)
Lemma reading_import_refusal sch content d status e d' :
  reading_import sch content d = Some (Failed status e, d') -> status = 400 /\ d' = d.
Proof.
  unfold reading_import. destruct (parse content) as [[e'|p]|]; [| |done].
  - by intros [= <- _ <-].
  - unfold persist. repeat case_match. done.
Qed.

(** ** The schedule *)

(** Whatever the picks, the statements that run are the statements that
    were queued. *)
Lemma arrange_loop_Permutation {A} n : forall picks (queued : list A),
  length queued = n -> Permutation (arrange_loop n picks queued) queued.
Proof.
  induction n as [|n IH]; intros picks queued Hn; cbn [arrange_loop].
  - by destruct queued.
  - destruct queued as [|first rest] eqn:Hq; [done|]. rewrite <- Hq in *.
    set (k := hd 0 picks mod length queued).
    assert (Hk : k < length queued) by (apply Nat.mod_upper_bound; lia).
    destruct (lookup_lt_is_Some_2 queued k Hk) as [x Hx].
    rewrite (nth_lookup_Some queued k first x Hx).
    rewrite <- (take_drop_middle queued k x Hx) at 3.
    rewrite <- Permutation_middle. constructor.
    apply IH. rewrite length_app, length_take, length_drop. lia.
Qed.

Lemma arrange_Permutation {A} picks (queued : list A) :
  Permutation (arrange picks queued) queued.
Proof. by apply arrange_loop_Permutation. Qed.

(** The order does not look at the statements. *)
Lemma arrange_loop_map {A B} (g : A -> B) n : forall picks (queued : list A),
  arrange_loop n picks (List.map g queued) = List.map g (arrange_loop n picks queued).
Proof.
  induction n as [|n IH]; intros picks queued; cbn [arrange_loop]; [done|].
  destruct queued as [|first rest] eqn:Hq; [done|]. rewrite <- Hq.
  replace (List.map g (first :: rest)) with (List.map g queued) by (by rewrite Hq).
  assert (Hg : List.map g queued = g first :: List.map g rest) by (by rewrite Hq).
  rewrite Hg at 1. rewrite length_map. cbn [List.map]. f_equal.
  - by rewrite map_nth.
  - rewrite <- IH. f_equal. by rewrite List.map_app, <- firstn_map, <- skipn_map.
Qed.

Lemma arrange_map {A B} (g : A -> B) picks (queued : list A) :
  arrange picks (List.map g queued) = List.map g (arrange picks queued).
Proof. unfold arrange. rewrite length_map. apply arrange_loop_map. Qed.

Lemma arrange_singleton {A} picks (x : A) : arrange picks [x] = [x].
Proof.
  unfold arrange. cbn [length arrange_loop]. rewrite Nat.mod_1_r. reflexivity.
Qed.

Lemma arrange_as_issued {A} (queued : list A) : arrange [] queued = queued.
Proof.
  unfold arrange. induction queued as [|x l IH]; [done|].
  cbn [length arrange_loop hd tl]. rewrite Nat.Div0.mod_0_l.
  cbn [nth firstn skipn app]. by rewrite drop_0, IH.
Qed.

(** ** The INSERTs of the questions *)

(** The rows that a run of INSERTs adds: one for each statement, in the
    order of the run, with what the statement binds. *)
Lemma insert_questions_rows i stmts : forall d,
  words (fold_left (insert_question i) stmts d) = words d
  /\ mistakes (fold_left (insert_question i) stmts d) = mistakes d
  /\ test_results (fold_left (insert_question i) stmts d) = test_results d
  /\ reading_passages (fold_left (insert_question i) stmts d) = reading_passages d
  /\ exists new,
       rows (reading_questions (fold_left (insert_question i) stmts d))
       = rows (reading_questions d) ++ new
       /\ Forall2 (fun q stmt =>
            q = Question (question_id q) i (TEXT (questionText (fst stmt)))
                  (TEXT (optionA (fst stmt))) (TEXT (optionB (fst stmt)))
                  (TEXT (optionC (fst stmt))) (TEXT (snd stmt))) new stmts.
Proof.
  induction stmts as [|[q a] stmts IH]; intros d; cbn [fold_left].
  - repeat (split; [done|]). exists []. by rewrite app_nil_r.
  - destruct (IH (insert_question i d (q, a))) as (Hw & Hm & Ht & Hp & new & Hrows & Hnew).
    rewrite Hw, Hm, Ht, Hp. repeat (split; [done|]).
    eexists (_ :: new). split.
    + rewrite Hrows. cbn. rewrite <- app_assoc. reflexivity.
    + constructor; [reflexivity | exact Hnew].
Qed.

Lemma inserted_of_passage i new (stmts : list question_insert) :
  Forall2 (fun q stmt =>
     q = Question (question_id q) i (TEXT (questionText (fst stmt)))
           (TEXT (optionA (fst stmt))) (TEXT (optionB (fst stmt)))
           (TEXT (optionC (fst stmt))) (TEXT (snd stmt))) new stmts ->
  Forall (fun q => passage_id q = i) new.
Proof.
  induction 1 as [|q stmt new stmts Hq _ IH]; constructor; [|exact IH].
  by rewrite Hq.
Qed.

(** The importer keeps every question with a stored passage. *)
Lemma reading_import_linked sch content d r d' :
  Submit.linked d -> reading_import sch content d = Some (r, d') -> Submit.linked d'.
Proof.
  intros Hl. unfold reading_import.
  destruct (parse content) as [[e|p]|]; [by intros [= _ <-]| |done].
  unfold persist, insert. cbn [fst snd].
  set (i := next_id (reading_passages d)).
  set (d1 := set_reading_passages _ d).
  destruct (insert_questions_rows i
              (arrange (picks sch) (queued_inserts (p_answers p) 0 (p_questions p))) d1)
    as (_ & _ & _ & Hp & new & Hrows & Hnew).
  intros [= _ <-]. intros q Hq. rewrite Hrows in Hq. rewrite Hp.
  apply in_app_or in Hq as [Hq|Hq].
  - destruct (Hl q Hq) as (p0 & Hp0 & Hid). exists p0. split; [|done].
    cbn. apply in_or_app. by left.
  - eexists. split; [cbn; apply in_or_app; right; by left|]. cbn.
    apply inserted_of_passage in Hnew. rewrite Forall_forall in Hnew.
    symmetry. apply Hnew. by apply list_elem_of_In.
Qed.

Lemma parse_spec_example :
  parse spec_example
  = Some (inr (Parsed (lit "Title") (lit "Body")
                 [ParsedQuestion (lit "Q1?") (lit "a") (lit "b") (lit "c")]
                 (<[lit "1" := lit "A"]> ∅))).
Proof. vm_compute. reflexivity. Qed.

(** C4. On the input of the specification the importer succeeds, whatever
    the engine's schedule, and the store gains exactly the passage with
    title "Title" and body "Body" and exactly the question of that passage
    with text "Q1?", options "a", "b", "c" and answer "A"; nothing else
    changes.  The reply counts one passage; its count of questions is 1, or 0
    when the callback of the one INSERT came after COMMIT's. *)
Theorem import_spec_example sch d :
  let i := next_id (reading_passages d) in
  let j := next_id (reading_questions d) in
  reading_import sch spec_example d
  = Some (Sent 200 (ImportSummary 1 (1 - late sch)),
          Store (words d) (mistakes d) (test_results d)
            (Table (rows (reading_passages d)
                    ++ [Passage i (lit "Title") (lit "Body") 0]) i)
            (Table (rows (reading_questions d)
                    ++ [Question j i (lit "Q1?") (lit "a") (lit "b") (lit "c") (lit "A")]) j)).
Proof.
  intros i j. unfold reading_import. rewrite parse_spec_example.
  unfold persist, p_answers, p_questions, p_title, p_content.
  change (queued_inserts (<[lit "1" := lit "A"]> ∅) 0
            [ParsedQuestion (lit "Q1?") (lit "a") (lit "b") (lit "c")])
    with [(ParsedQuestion (lit "Q1?") (lit "a") (lit "b") (lit "c"), lit "A")].
  rewrite arrange_singleton. reflexivity.
Qed.

(** C5. Whenever the split gives the three sections and the number of
    questions found in the second differs from the number of answers found
    in the third (the keys of the [answers] object), the importer replies 400
    and the store is as before: no passage and no question is written. *)
Theorem count_mismatch_refused sch content d passageContent questionsText answersText
    questions answers answerErrors :
  sections content = Some (passageContent, questionsText, answersText) ->
  parse_questions questionsText = Some questions ->
  parse_answers answersText = Some (answers, answerErrors) ->
  length questions <> size answers ->
  exists e, reading_import sch content d = Some (Failed 400 e, d).
Proof.
  intros Hsec Hq Ha Hne. unfold reading_import, parse.
  rewrite Hsec, Hq, Ha.
  apply Nat.eqb_neq in Hne. rewrite Hne. simpl.
  repeat case_match; simplify_eq; eauto.
Qed.

Lemma count_mismatch_refused_witness :
  exists e, reading_import as_issued one_answer_short initial = Some (Failed 400 e, initial).
Proof.
  eapply (count_mismatch_refused as_issued one_answer_short initial
            (lit "Title" ++ 10%N :: lit "Body")
            (lit "1. Q1? A. a B. b C. c 2. Q2? A. d B. e C. f")
            (lit "1. A")
            [ParsedQuestion (lit "Q1?") (lit "a") (lit "b") (lit "c");
             ParsedQuestion (lit "Q2?") (lit "d") (lit "e") (lit "f")]
            (<[lit "1" := lit "A"]> ∅) []).
  - vm_compute. reflexivity.
  - vm_compute. reflexivity.
  - vm_compute. reflexivity.
  - vm_compute. lia.
Defined.

(** ** The marker pattern *)

Lemma run_str m : forall R s c (k : jsstring -> captures -> option R),
  run (str m) s c k = match strip m s with Some rest => k rest c | None => None end.
Proof.
  induction m as [|x m IH]; intros R s c k; simpl; [done|].
  destruct s as [|y s]; [done|]. destruct (x =? y)%N; [apply IH | done].
Qed.

Lemma run_star_class_cons {R} p x s c (k : jsstring -> captures -> option R) :
  run (Star (Class p)) (x :: s) c k
  = if p x
    then match run (Star (Class p)) s c k with
         | Some r => Some r
         | None => k (x :: s) c
         end
    else k (x :: s) c.
Proof.
  cbn [run greedy_loop length]. destruct (p x); [|done].
  assert (Hlt : (length s <? S (length s)) = true) by (apply Nat.ltb_lt; lia).
  by rewrite Hlt.
Qed.

(** Greedy white space before something that cannot start with white space,
    or before something that cannot fail, is all the white space. *)
Lemma run_spaces_then {R} s c (k : jsstring -> captures -> option R) :
  (forall x s', is_space x = true -> k (x :: s') c = None) ->
  run (Star space) s c k = k (trimStart s) c.
Proof.
  intros Hk. induction s as [|x s IH]; [done|].
  unfold space in *. rewrite run_star_class_cons. cbn [trimStart].
  destruct (is_space x) eqn:Hx; [|done].
  rewrite IH. destruct (k (trimStart s) c); [done|]. by apply Hk.
Qed.

Lemma run_spaces_last {R} s c (k : jsstring -> captures -> option R) :
  (forall s', is_Some (k s' c)) ->
  run (Star space) s c k = k (trimStart s) c.
Proof.
  intros Hk. induction s as [|x s IH]; [done|].
  unfold space in *. rewrite run_star_class_cons. cbn [trimStart].
  destruct (is_space x) eqn:Hx; [|done].
  rewrite IH. by destruct (Hk (trimStart s)) as [r ->].
Qed.

Lemma run_around {R} h m s c (k : jsstring -> captures -> option R) :
  is_space h = false ->
  (forall s', is_Some (k s' c)) ->
  run (around (h :: m)) s c k
  = match strip_around (h :: m) s with Some rest => k rest c | None => None end.
Proof.
  intros Hh Hk. unfold around, strip_around.
  change (run (Seq (Star space) (Seq (str (h :: m)) (Star space))) s c k)
    with (run (Star space) s c
            (fun s1 c1 => run (str (h :: m)) s1 c1 (fun s2 c2 => run (Star space) s2 c2 k))).
  rewrite run_spaces_then.
  - rewrite run_str. destruct (strip (h :: m) (trimStart s)) as [rest|]; [|done].
    simpl. by apply run_spaces_last.
  - intros x s' Hx. rewrite run_str. simpl.
    destruct (h =? x)%N eqn:Heq; [|done].
    apply N.eqb_eq in Heq. congruence.
Qed.

(** The marker pattern at the head of a text is [scan]. *)
Lemma match_here_marker s :
  match_here markerRegex s = option_map (fun rest => (rest, ∅)) (scan s).
Proof.
  unfold match_here, markerRegex, scan. cbn [run].
  unfold reading_marker, choice_marker, answer_marker.
  rewrite !run_around by (done || by eexists).
  by repeat case_match.
Qed.

Lemma scan_shrinks s rest : scan s = Some rest -> length rest < length s.
Proof.
  intros H. apply (match_here_shrinks markerRegex s rest ∅); [done|].
  by rewrite match_here_marker, H.
Qed.

(** The split makes one more piece than [cuts] counts. *)
Lemma split_loop_pieces n : forall seg s,
  length (split_loop markerRegex n seg s) = S (cuts n s).
Proof.
  induction n as [|n IH]; intros seg s; [done|].
  destruct s as [|x s]; [done|]. cbn [split_loop cuts].
  rewrite match_here_marker. destruct (scan (x :: s)) as [rest|] eqn:Hs; simpl.
  - apply scan_shrinks in Hs. apply Nat.ltb_lt in Hs. simpl in Hs. rewrite Hs.
    simpl. by rewrite IH.
  - apply IH.
Qed.

Lemma split_pieces s : length (split markerRegex s) = S (cuts (length s) s).
Proof.
  destruct s as [|x s]; [done|]. unfold split. apply split_loop_pieces.
Qed.

(** ** Cuts and marker tokens *)

Lemma trimStart_suffix s : exists w, s = w ++ trimStart s.
Proof.
  induction s as [|x s [w IH]]; simpl; [by exists []|].
  destruct (is_space x); [|by exists []].
  exists (x :: w). simpl. by rewrite <- IH.
Qed.

Lemma strip_prefix m : forall s rest, strip m s = Some rest -> s = m ++ rest.
Proof.
  induction m as [|x m IH]; intros s rest; simpl; [by intros [= ->]|].
  destruct s as [|y s]; [done|]. destruct (x =? y)%N eqn:Heq; [|done].
  apply N.eqb_eq in Heq as ->. intros H. by rewrite (IH _ _ H).
Qed.

Lemma markers_in_app k a t : markers_in k t -> markers_in k (a ++ t).
Proof.
  destruct 1 as [|n a' m t Hm Ht]; [constructor|].
  rewrite app_assoc. by constructor.
Qed.

Lemma strip_around_shape m s rest :
  strip_around m s = Some rest -> exists a w, s = a ++ m ++ w ++ rest.
Proof.
  unfold strip_around. destruct (strip m (trimStart s)) as [u|] eqn:Hu; [|done].
  intros [= <-]. apply strip_prefix in Hu.
  destruct (trimStart_suffix s) as [a Ha]. destruct (trimStart_suffix u) as [w Hw].
  exists a, w. by rewrite <- Hw, <- Hu.
Qed.

Lemma scan_shape s rest :
  scan s = Some rest -> exists a m w, is_marker m /\ s = a ++ m ++ w ++ rest.
Proof.
  unfold scan, is_marker.
  destruct (strip_around reading_marker s) as [r1|] eqn:H1.
  { intros [= <-]. apply strip_around_shape in H1 as (a & w & ->). eauto 7. }
  destruct (strip_around choice_marker s) as [r2|] eqn:H2.
  { intros [= <-]. apply strip_around_shape in H2 as (a & w & ->). eauto 7. }
  intros H3. apply strip_around_shape in H3 as (a & w & ->). eauto 7.
Qed.

(** Every cut is a marker token. *)
Lemma cuts_sound n : forall s k, k <= cuts n s -> markers_in k s.
Proof.
  induction n as [|n IH]; intros s k Hk.
  - simpl in Hk. assert (k = 0) as -> by lia. constructor.
  - destruct k as [|k]; [constructor|].
    destruct s as [|x s]; [simpl in Hk; lia|]. cbn [cuts] in Hk.
    destruct (scan (x :: s)) as [rest|] eqn:Hs.
    + apply scan_shape in Hs as (a & m & w & Hm & ->).
      constructor; [done|]. apply markers_in_app. apply IH. lia.
    + apply (markers_in_app _ [x]). by apply IH.
Qed.

(** A marker starts with a head that is no white space, and no other of
    its code units is the head of a marker. *)
Lemma marker_parts m :
  is_marker m ->
  exists h tl, m = h :: tl /\ is_head h = true /\ is_space h = false
               /\ forallb (fun c => negb (is_head c)) tl = true.
Proof. intros [-> | [-> | ->]]; eexists _, _; repeat split. Qed.

Lemma marker_by_head h tl tl' :
  is_marker (h :: tl) -> is_marker (h :: tl') -> tl = tl'.
Proof.
  unfold is_marker, reading_marker, choice_marker, answer_marker.
  intros [H|[H|H]] [H'|[H'|H']]; congruence.
Qed.

Lemma strip_app m t : strip m (m ++ t) = Some t.
Proof. induction m as [|x m IH]; simpl; [done|]. by rewrite N.eqb_refl. Qed.

Lemma trimStart_keeps a m t :
  is_marker m -> exists a', trimStart (a ++ m ++ t) = a' ++ m ++ t.
Proof.
  intros Hm. destruct (marker_parts m Hm) as (h & tl & -> & _ & Hh & _).
  induction a as [|x a [a' IH]]; simpl.
  - rewrite Hh. by exists [].
  - destruct (is_space x); [by exists a' | by exists (x :: a)].
Qed.

Lemma markers_in_trimStart k s : markers_in k s -> markers_in k (trimStart s).
Proof.
  destruct 1 as [|n a m t Hm Ht]; [constructor|].
  destruct (trimStart_keeps a m t Hm) as [a' ->]. by constructor.
Qed.

Lemma strip_inner tl m t :
  forallb (fun c => negb (is_head c)) tl = true -> is_marker m ->
  forall a rest, strip tl (a ++ m ++ t) = Some rest -> exists a', rest = a' ++ m ++ t.
Proof.
  intros Htl Hm. destruct (marker_parts m Hm) as (h & mt & -> & Hh & _ & _).
  induction tl as [|x tl IH]; intros a rest; simpl.
  - intros [= <-]. by exists a.
  - simpl in Htl. apply andb_true_iff in Htl as [Hx Htl].
    destruct a as [|y a]; simpl.
    + destruct (x =? h)%N eqn:Heq; [|done].
      apply N.eqb_eq in Heq as ->. by rewrite Hh in Hx.
    + destruct (x =? y)%N; [|done]. by apply IH.
Qed.

Lemma strip_marker m' a m t rest :
  is_marker m' -> is_marker m ->
  strip m' (a ++ m ++ t) = Some rest ->
  (a = [] /\ rest = t) \/ exists a', rest = a' ++ m ++ t.
Proof.
  intros Hm' Hm.
  destruct (marker_parts m' Hm') as (h' & tl' & -> & _ & _ & Htl').
  destruct a as [|y a]; simpl.
  - destruct (marker_parts m Hm) as (h & tl & -> & _ & _ & _). simpl.
    destruct (h' =? h)%N eqn:Heq; [|done].
    apply N.eqb_eq in Heq as ->.
    rewrite (marker_by_head h tl' tl Hm' Hm), strip_app.
    intros [= <-]. by left.
  - destruct (h' =? y)%N; [|done]. intros H. right.
    by apply (strip_inner tl' m t Htl' Hm a).
Qed.

Lemma strip_around_keeps m' a m t rest k :
  is_marker m' -> is_marker m ->
  strip_around m' (a ++ m ++ t) = Some rest ->
  markers_in k t -> markers_in k rest.
Proof.
  intros Hm' Hm. unfold strip_around.
  destruct (trimStart_keeps a m t Hm) as [a1 ->].
  destruct (strip m' (a1 ++ m ++ t)) as [u|] eqn:Hu; [|done].
  intros [= <-] Hk.
  destruct (strip_marker m' a1 m t u Hm' Hm Hu) as [[_ ->]|[a' ->]].
  - by apply markers_in_trimStart.
  - destruct (trimStart_keeps a' m t Hm) as [a2 ->].
    by do 2 apply markers_in_app.
Qed.

Lemma scan_keeps a m t rest k :
  is_marker m -> scan (a ++ m ++ t) = Some rest ->
  markers_in k t -> markers_in k rest.
Proof.
  intros Hm. unfold scan.
  destruct (strip_around reading_marker _) as [r1|] eqn:H1.
  { intros [= <-]. eapply strip_around_keeps; [| |exact H1]; [by left | done]. }
  destruct (strip_around choice_marker _) as [r2|] eqn:H2.
  { intros [= <-]. eapply strip_around_keeps; [| |exact H2]; [by right; left | done]. }
  intros H3. eapply strip_around_keeps; [| |exact H3]; [by right; right | done].
Qed.

Lemma scan_at_marker m t : is_marker m -> is_Some (scan (m ++ t)).
Proof.
  intros [-> | [-> | ->]]; unfold scan, strip_around; simpl; by eexists.
Qed.

(** Every marker token is cut, whatever stands around it. *)
Lemma cuts_complete n : forall s k,
  length s <= n -> markers_in k s -> k <= cuts n s.
Proof.
  induction n as [|n IH]; intros s k Hn Hk.
  - destruct Hk as [|k a m t Hm Ht]; [lia|].
    destruct (marker_parts m Hm) as (h & tl & -> & _).
    rewrite length_app in Hn. simpl in Hn. lia.
  - destruct Hk as [s|k a m t Hm Ht]; [lia|].
    destruct (a ++ m ++ t) as [|x s] eqn:Hs.
    { destruct (marker_parts m Hm) as (h & tl & -> & _). by destruct a. }
    cbn [cuts]. rewrite <- Hs.
    destruct (scan (a ++ m ++ t)) as [rest|] eqn:Hscan.
    + apply le_n_S. apply IH.
      * apply scan_shrinks in Hscan. rewrite Hs in Hscan. simpl in *. lia.
      * by apply (scan_keeps a m t).
    + destruct a as [|y a].
      * destruct (scan_at_marker m t Hm) as [r Hr]. simpl in Hscan. congruence.
      * simpl in Hs. injection Hs as -> <-.
        apply IH; [simpl in Hn; lia|]. by constructor.
Qed.

Lemma in_order_markers content : in_order content -> markers_in 3 content.
Proof.
  intros (a & b & c & e & ->).
  constructor; [by left|]. constructor; [by right; left|].
  constructor; [by right; right|]. constructor.
Qed.

(** C6, as the code has it.  For every text, the split on the markers gives
    fewer than 4 pieces exactly when the text does not hold three successive
    marker tokens, each any of the three (so a text with the three markers in
    order always gives at least 4 pieces); and when it gives fewer than 4
    pieces the importer replies 400 at that test, before it looks at any
    section (for an empty text, at the test of the content before it), and
    the store is as before. *)
Theorem marker_split sch content d :
  (length (split markerRegex content) < 4 <-> ~ markers_in 3 content)
  /\ (in_order content -> 4 <= length (split markerRegex content))
  /\ (length (split markerRegex content) < 4 ->
      reading_import sch content d
      = Some (Failed 400 (if truthy content then MissingSections else EmptyContent), d)).
Proof.
  assert (Hiff : length (split markerRegex content) < 4 <-> ~ markers_in 3 content).
  { rewrite split_pieces. split.
    - intros Hlt Hm. apply (cuts_complete (length content)) in Hm; lia.
    - intros Hno. destruct (Nat.lt_ge_cases (cuts (length content) content) 3) as [|Hge];
        [lia|]. apply cuts_sound in Hge. done. }
  split; [exact Hiff|]. split.
  - intros Hin. apply in_order_markers in Hin.
    destruct (Nat.lt_ge_cases (length (split markerRegex content)) 4) as [Hlt|]; [|done].
    by apply Hiff in Hlt.
  - intros Hlt. unfold reading_import, parse, sections.
    apply Nat.ltb_lt in Hlt. rewrite Hlt. by destruct (truthy content).
Qed.

Lemma marker_split_witness :
  in_order spec_example
  /\ 4 <= length (split markerRegex spec_example)
  /\ length (split markerRegex (lit "Title")) < 4
  /\ reading_import as_issued (lit "Title") initial
     = Some (Failed 400 MissingSections, initial).
Proof.
  assert (Hin : in_order spec_example).
  { exists [], (10%N :: lit "Title" ++ 10%N :: lit "Body" ++ [10%N]),
      (10%N :: lit "1. Q1? A. a B. b C. c" ++ [10%N]), (10%N :: lit "1. A").
    reflexivity. }
  assert (Hlt : length (split markerRegex (lit "Title")) < 4) by (vm_compute; lia).
  split; [exact Hin|]. split.
  - exact (proj1 (proj2 (marker_split as_issued spec_example initial)) Hin).
  - split; [exact Hlt|].
    exact (proj2 (proj2 (marker_split as_issued (lit "Title") initial)) Hlt).
Defined.

(** Counterexample to C6 as it is stated: in the text with the answer marker
    thrice the reading and the choice markers are not there, and the split
    gives 4 pieces (the importer then stores the passage and its question). *)
Lemma marker_order_not_checked :
  ~ (length (split markerRegex one_marker_thrice) < 4 <-> ~ in_order one_marker_thrice).
Proof.
  intros [_ H].
  assert (Hno : ~ in_order one_marker_thrice).
  { intros (a & b & c & e & Heq).
    assert (Hin : In 0x9605%N one_marker_thrice).
    { rewrite Heq. apply in_or_app. right. by left. }
    vm_compute in Hin. intuition discriminate. }
  apply H in Hno. vm_compute in Hno. lia.
Qed.

Lemma one_marker_thrice_imported :
  option_map fst (reading_import as_issued one_marker_thrice initial)
  = Some (Sent 200 (ImportSummary 1 1)).
Proof. vm_compute. reflexivity. Qed.

End ImportFacts.

(* ===================================================================== *)
(** * Rowids *)
(* ===================================================================== *)

Section KeyFacts.
Import Sqlite WordStore.
Local Open Scope Z_scope.
Context {A : Type} `{Row A}.
Implicit Types (t : table A) (l : list A) (p : A -> bool).

Lemma max_id_bound l r : In r l -> row_id r <= max_id l.
Proof.
  induction l as [|a l IH]; simpl; [done|].
  intros [<-|Hin]; [lia|]. specialize (IH Hin). lia.
Qed.

Lemma next_id_fresh t r : In r (rows t) -> row_id r < next_id t.
Proof. intros Hin. apply max_id_bound in Hin. unfold next_id. lia. Qed.

Lemma keyed_empty : keyed (@empty A).
Proof. split; [apply NoDup_nil_2 | constructor]. Qed.

Lemma keyed_insert (mk : Z -> A) t :
  (forall i, row_id (mk i) = i) -> keyed t -> keyed (fst (insert mk t)).
Proof.
  intros Hmk [Hnd Hle]. unfold keyed, insert. cbn [fst rows last_id]. split.
  - rewrite List.map_app. cbn [List.map]. apply NoDup_app. split; [done|]. split.
    + intros x Hx Hn. apply list_elem_of_singleton in Hn. subst x.
      apply list_elem_of_In, in_map_iff in Hx as (r & Hr & Hin).
      apply next_id_fresh in Hin. rewrite Hmk in Hr. lia.
    + apply NoDup_singleton.
  - apply Forall_app. split.
    + eapply Forall_impl; [exact Hle|]. simpl. intros r Hr. unfold next_id. lia.
    + repeat constructor. rewrite Hmk. lia.
Qed.

Lemma keyed_update p (f : A -> A) t :
  (forall r, row_id (f r) = row_id r) -> keyed t -> keyed (update p f t).
Proof.
  intros Hf [Hnd Hle]. unfold keyed, update. cbn [rows last_id]. split.
  - by rewrite map_map_if.
  - apply Forall_forall. intros x Hx.
    apply list_elem_of_In, in_map_iff in Hx as (r & <- & Hin).
    rewrite Forall_forall in Hle. apply list_elem_of_In in Hin.
    specialize (Hle r Hin). destruct (p r); by rewrite ?Hf.
Qed.

Lemma keyed_delete p t : keyed t -> keyed (delete p t).
Proof.
  intros [Hnd Hle]. split; [by apply NoDup_map_filter | by apply Forall_filter_keep].
Qed.

Lemma keyed_clear t : keyed (clear t).
Proof. split; [apply NoDup_nil_2 | constructor]. Qed.

(** Two rows of a keyed table with the same rowid are one row. *)
Lemma keyed_same_row t r r' :
  keyed t -> In r (rows t) -> In r' (rows t) -> row_id r = row_id r' -> r = r'.
Proof.
  intros [Hnd _]. induction (rows t) as [|a l IH]; simpl; [done|].
  apply NoDup_cons in Hnd as [Hn Hnd].
  intros [->|Hr] [->|Hr'] Heq; [done| | |by apply IH].
  - exfalso. apply Hn. apply list_elem_of_In, in_map_iff. by exists r'.
  - exfalso. apply Hn. apply list_elem_of_In, in_map_iff. by exists r.
Qed.

(** A scan for [p] after a DELETE that spares every row with [p]. *)
Lemma find_filter_spared l p (q : A -> bool) :
  (forall r, In r l -> p r = true -> q r = true) ->
  List.find p (List.filter q l) = List.find p l.
Proof.
  induction l as [|a l IH]; simpl; [done|]. intros Hq.
  destruct (q a) eqn:Hqa; simpl.
  - destruct (p a); [done|]. apply IH. intros r Hr. apply Hq. by right.
  - destruct (p a) eqn:Hpa.
    + rewrite Hq in Hqa; [done | by left | done].
    + apply IH. intros r Hr. apply Hq. by right.
Qed.

Lemma find_none_filter l p : List.find p (List.filter (fun r => negb (p r)) l) = None.
Proof.
  induction l as [|a l IH]; simpl; [done|].
  destruct (p a) eqn:Hp; simpl; [done|]. by rewrite Hp.
Qed.

Lemma filter_none_changes l p : length (List.filter p l) = 0%nat -> List.find p l = None.
Proof.
  induction l as [|a l IH]; simpl; [done|]. destruct (p a); simpl; [done | exact IH].
Qed.

Lemma find_none_changes l p : List.find p l = None -> List.filter p l = [].
Proof.
  induction l as [|a l IH]; simpl; [done|]. destruct (p a); [done | exact IH].
Qed.

Lemma map_if_none l p (f : A -> A) :
  List.find p l = None -> List.map (fun r => if p r then f r else r) l = l.
Proof.
  induction l as [|a l IH]; simpl; [done|].
  destruct (p a); [done|]. intros Hn. by rewrite IH.
Qed.

Lemma filter_negb_none l p :
  List.find p l = None -> List.filter (fun r => negb (p r)) l = l.
Proof.
  induction l as [|a l IH]; simpl; [done|].
  destruct (p a); [done|]. intros Hn. simpl. by rewrite IH.
Qed.

End KeyFacts.

(* ===================================================================== *)
(** * More of the mistake tracker *)
(* ===================================================================== *)

Section TrackerFacts.
Import Sqlite WordStore Mistakes.
Local Open Scope Z_scope.

(** The mistakes table of every store the tracker reaches is keyed. *)
Lemma tracker_keyed d : Mistakes.reachable d -> keyed (mistakes d).
Proof.
  induction 1 as [|r d Hr IH]; [apply keyed_empty|].
  destruct r as [w|w|i|]; simpl.
  - unfold add_mistake. destruct (w =? 0); [done|].
    destruct (get (by_word w) (mistakes d)) as [row|]; simpl.
    + by apply keyed_update.
    + by apply (keyed_insert (fun i => Mistake i w 1 0)).
  - unfold record_correct. destruct (get (by_word w) (mistakes d)) as [row|]; [|done].
    destruct (2 <=? correct_streak row + 1); simpl;
      [by apply keyed_delete | by apply keyed_update].
  - unfold delete_mistake. destruct (_ =? _)%nat; simpl; [done|]. by apply keyed_delete.
  - apply keyed_clear.
Qed.

(** The row found for a word is a row of the table, and it is the word's. *)
Lemma lookup_in w d row :
  lookup w d = Some row -> In row (rows (mistakes d)) /\ word_id row = w.
Proof.
  unfold lookup, get. intros Hf. apply find_some in Hf as [Hin Hw].
  split; [done|]. by apply Z.eqb_eq in Hw.
Qed.

(** X1.  Wrong answers add up: for a word without a row, [n + 1] requests
    [POST /api/mistakes] in a row leave it the row with [mistake_count]
    [n + 1] and [correct_streak] 0. *)
Theorem wrong_answers_counted n w d :
  w <> 0 ->
  lookup w d = None ->
  lookup w (Nat.iter (S n) (fun d => snd (add_mistake w d)) d)
  = Some (Mistake (next_id (mistakes d)) w (Z.of_nat (S n)) 0).
Proof.
  intros Hw Hnone. induction n as [|n IH].
  - exact (proj2 (lookup_add_fresh w d Hw Hnone)).
  - change (Nat.iter (S (S n)) (fun d => snd (add_mistake w d)) d)
      with (snd (add_mistake w (Nat.iter (S n) (fun d => snd (add_mistake w d)) d))).
    rewrite (proj2 (lookup_add_again w _ _ Hw IH)).
    unfold bump. cbn [mistake_id word_id mistake_count]. do 2 f_equal. lia.
Qed.

Lemma wrong_answers_counted_witness :
  lookup 7 (Nat.iter 3 (fun d => snd (add_mistake 7 d)) initial) = Some (Mistake 1 7 3 0).
Proof. apply (wrong_answers_counted 2 7 initial); [lia | reflexivity]. Defined.

(** X2.  One correct answer after a wrong one never clears a word: for a
    word with a row, whatever its streak, a wrong answer followed by a
    correct answer leaves the row, with one more mistake and streak 1. *)
Theorem correct_after_wrong_keeps w d row :
  w <> 0 ->
  lookup w d = Some row ->
  lookup w (snd (record_correct w (snd (add_mistake w d))))
  = Some (Mistake (mistake_id row) (word_id row) (mistake_count row + 1) 1).
Proof.
  intros Hw Hl. destruct (lookup_add_again w d row Hw Hl) as [_ H1].
  destruct (correct_answer_keeps w _ _ H1) as [_ H2]; [simpl; lia|]. exact H2.
Qed.

Lemma correct_after_wrong_keeps_witness :
  let d1 := snd (record_correct 7 (snd (add_mistake 7 initial))) in
  lookup 7 d1 = Some (Mistake 1 7 1 1)
  /\ lookup 7 (snd (record_correct 7 (snd (add_mistake 7 d1)))) = Some (Mistake 1 7 2 1).
Proof.
  intros d1. split; [reflexivity|].
  apply (correct_after_wrong_keeps 7 d1 (Mistake 1 7 1 1)); [lia | reflexivity].
Defined.

Lemma other_row_other_id d row r :
  keyed (mistakes d) ->
  In row (rows (mistakes d)) -> In r (rows (mistakes d)) ->
  word_id r <> word_id row -> by_id (mistake_id row) r = false.
Proof.
  intros Hk Hrow Hr Hne. unfold by_id. apply Z.eqb_neq. intros Heq.
  apply Hne. f_equal. by apply (keyed_same_row (mistakes d)).
Qed.

(** X3.  A request about one word leaves the others alone: in a store with
    distinct mistake ids, after a wrong or a correct answer for a word the
    row found for any other word is the one found before. *)
Theorem other_words_kept w w' d :
  keyed (mistakes d) ->
  w' <> w ->
  lookup w' (snd (add_mistake w d)) = lookup w' d
  /\ lookup w' (snd (record_correct w d)) = lookup w' d.
Proof.
  intros Hk Hne. split.
  - unfold add_mistake. destruct (w =? 0); [done|].
    destruct (get (by_word w) (mistakes d)) as [row|] eqn:Hg.
    + destruct (lookup_in w d row Hg) as [Hin Hw].
      unfold lookup, get. cbn [snd set_mistakes mistakes update rows].
      rewrite find_map_if by apply by_word_bump.
      destruct (List.find (by_word w') (rows (mistakes d))) as [r|] eqn:Hr; [|done].
      destruct (lookup_in w' d r Hr) as [Hin' Hw']. simpl.
      rewrite (other_row_other_id d row r); [done..|congruence].
    + unfold lookup, get. cbn. unfold lookup, get in *.
      destruct (List.find (by_word w') (rows (mistakes d))) as [r|] eqn:Hr.
      * by apply find_app_some.
      * rewrite find_app_none by done. simpl. unfold by_word. simpl.
        apply Z.eqb_neq in Hne. by rewrite Z.eqb_sym, Hne.
  - unfold record_correct.
    destruct (get (by_word w) (mistakes d)) as [row|] eqn:Hg; [|done].
    destruct (lookup_in w d row Hg) as [Hin Hw].
    destruct (2 <=? correct_streak row + 1); unfold lookup, get;
      cbn [snd set_mistakes mistakes update delete rows].
    + apply find_filter_spared. intros r Hr Hwr. apply Z.eqb_eq in Hwr.
      rewrite (other_row_other_id d row r); [done..|congruence].
    + rewrite find_map_if by apply by_word_set_streak.
      destruct (List.find (by_word w') (rows (mistakes d))) as [r|] eqn:Hr; [|done].
      destruct (lookup_in w' d r Hr) as [Hin' Hw']. simpl.
      rewrite (other_row_other_id d row r); [done..|congruence].
Qed.

(** A store with the rows of the words 7 and 8. *)
Lemma other_words_kept_witness :
  let d := snd (add_mistake 8 (snd (add_mistake 7 initial))) in
  keyed (mistakes d)
  /\ lookup 8 d = Some (Mistake 2 8 1 0)
  /\ lookup 8 (snd (add_mistake 7 d)) = Some (Mistake 2 8 1 0)
  /\ lookup 8 (snd (record_correct 7 d)) = Some (Mistake 2 8 1 0).
Proof.
  intros d.
  assert (Hk : keyed (mistakes d)).
  { apply tracker_keyed.
    apply (Mistakes.reach_step (AddMistake 8)), (Mistakes.reach_step (AddMistake 7)).
    apply Mistakes.reach_initial. }
  assert (Hne : 8 <> 7) by lia.
  destruct (other_words_kept 7 8 d Hk Hne) as [H1 H2].
  split; [exact Hk|]. split; [reflexivity|]. split; [exact H1 | exact H2].
Defined.

(** X4.  [DELETE /api/mistakes/:id]: without a row of that id the reply is
    404 and nothing changes; with one, in a keyed store with one row per
    word, the word of that row has no row any more and every other word
    keeps its row. *)
Theorem delete_mistake_row id d :
  keyed (mistakes d) ->
  one_row_per_word d ->
  match get (by_id id) (mistakes d) with
  | None => delete_mistake id d = (Failed 404 MistakeNotFound, d)
  | Some row =>
      fst (delete_mistake id d) = Sent 200 Deleted
      /\ lookup (word_id row) (snd (delete_mistake id d)) = None
      /\ forall w', w' <> word_id row ->
           lookup w' (snd (delete_mistake id d)) = lookup w' d
  end.
Proof.
  intros Hk Hone. unfold delete_mistake, changes, get.
  destruct (List.find (by_id id) (rows (mistakes d))) as [row|] eqn:Hf.
  - apply find_some in Hf as Hf'. destruct Hf' as [Hin Hid].
    apply Z.eqb_eq in Hid.
    destruct (List.filter (by_id id) (rows (mistakes d))) as [|r0 l0] eqn:Hfl.
    { apply (f_equal length) in Hfl. apply filter_none_changes in Hfl. congruence. }
    cbn [length Nat.eqb fst snd]. split; [done|]. split.
    + unfold lookup, get. cbn [set_mistakes mistakes delete rows].
      rewrite <- Hid. apply find_after_delete; [done|].
      destruct (List.find (by_word (word_id row)) (rows (mistakes d))) as [r|] eqn:Hr.
      * apply find_some in Hr as [Hrin Hrw]. apply Z.eqb_eq in Hrw.
        f_equal. unfold one_row_per_word in Hone.
        clear -Hone Hrin Hin Hrw.
        induction (rows (mistakes d)) as [|a l IH]; [done|].
        simpl in Hone. apply NoDup_cons in Hone as [Hn Hd].
        destruct Hrin as [->|Hrin], Hin as [->|Hin]; [done| | |by apply IH].
        -- exfalso. apply Hn. apply list_elem_of_In, in_map_iff. by exists row.
        -- exfalso. apply Hn. apply list_elem_of_In, in_map_iff. by exists r.
      * apply find_none_forall in Hr. rewrite Forall_forall in Hr.
        apply list_elem_of_In in Hin. specialize (Hr row Hin).
        unfold by_word in Hr. by rewrite Z.eqb_refl in Hr.
    + intros w' Hw'. unfold lookup, get. cbn [set_mistakes mistakes delete rows].
      apply find_filter_spared. intros r Hr Hwr. apply Z.eqb_eq in Hwr.
      rewrite <- Hid. rewrite (other_row_other_id d row r); [done..|congruence].
  - rewrite (find_none_changes _ _ Hf). done.
Qed.

Lemma delete_mistake_row_witness :
  let d := snd (add_mistake 8 (snd (add_mistake 7 initial))) in
  (keyed (mistakes d) /\ one_row_per_word d)
  /\ delete_mistake 9 d = (Failed 404 MistakeNotFound, d)
  /\ lookup 7 (snd (delete_mistake 1 d)) = None
  /\ lookup 8 (snd (delete_mistake 1 d)) = Some (Mistake 2 8 1 0).
Proof.
  intros d.
  assert (Hr : Mistakes.reachable d).
  { apply (Mistakes.reach_step (AddMistake 8)), (Mistakes.reach_step (AddMistake 7)).
    apply Mistakes.reach_initial. }
  assert (Hk : keyed (mistakes d)) by exact (tracker_keyed d Hr).
  assert (Hone : one_row_per_word d).
  { apply one_row_per_word_add, one_row_per_word_add. apply NoDup_nil_2. }
  split; [by split|]. split.
  - exact (delete_mistake_row 9 d Hk Hone).
  - pose proof (delete_mistake_row 1 d Hk Hone) as (_ & H1 & H2).
    split; [exact H1|]. rewrite (H2 8); [reflexivity | cbn; lia].
Defined.

End TrackerFacts.

(* ===================================================================== *)
(** * More of the word store *)
(* ===================================================================== *)

Section WordStoreFacts.
Import Js Sqlite Words WordStore.
Local Open Scope Z_scope.

Lemma table_eta {A} (t : table A) : Table (rows t) (last_id t) = t.
Proof. by destruct t. Qed.

Lemma set_words_same (t : table word) d : t = words d -> set_words (fun _ => t) d = d.
Proof. intros ->. by destruct d. Qed.

Lemma update_absent {A} (p : A -> bool) f (t : table A) :
  get p t = None -> update p f t = t.
Proof.
  unfold get, update. intros Hn. rewrite (map_if_none _ _ _ Hn). apply table_eta.
Qed.

Lemma lookup_in_words i d w : lookup i d = Some w -> In w (rows (words d)) /\ word_id_of w = i.
Proof.
  unfold lookup, get. intros Hf. apply find_some in Hf as [Hin Hi].
  split; [done|]. by apply Z.eqb_eq in Hi.
Qed.

Lemma truthy_TEXT s : truthy (TEXT s) = truthy s.
Proof.
  destruct s as [|h [|l s]]; cbn [TEXT truthy]; [done| |].
  - by destruct (is_high h), (is_low h).
  - by destruct (is_high h), (is_low l), (is_low h).
Qed.

Lemma add_word_fresh e c x d :
  truthy e = true -> truthy c = true ->
  (forall w, In w (rows (words d)) -> LOWER (english w) <> LOWER (TEXT e)) ->
  add_word e c x d
  = (Sent 200 (Saved (next_id (words d)) e c x),
     set_words (fun _ =>
       fst (insert (fun i => Word i (TEXT e) (TEXT c) (option_map TEXT x) 0 0)
              (words d))) d).
Proof.
  intros He Hc Hnew. unfold add_word. rewrite He, Hc. cbn [negb orb].
  destruct (get _ (words d)) as [row|] eqn:Hg.
  { unfold get in Hg. apply find_some in Hg as [Hin Heq].
    apply bool_decide_eq_true in Heq. by apply Hnew in Hin. }
  destruct (existsb _ (rows (words d))) eqn:Hex; [|done].
  apply existsb_exists in Hex as (w & Hin & Heq).
  apply bool_decide_eq_true in Heq. apply Hnew in Hin. by rewrite Heq in Hin.
Qed.

(** X5.  A word that is added is read back as its text: when both fields
    are there and no stored word has the text of the english up to the case
    of the ASCII letters, [POST /api/words] replies with a new id and the
    fields of the request, the word is stored under that id with the text
    of each field (the field itself when it has no lone surrogate, U+FFFD
    in the place of each lone surrogate otherwise), familiarity 0 and
    exposure 0, and every other id reads as before. *)
Theorem add_word_round_trip e c x d :
  truthy e = true -> truthy c = true ->
  (forall w, In w (rows (words d)) -> LOWER (english w) <> LOWER (TEXT e)) ->
  let i := next_id (words d) in
  fst (add_word e c x d) = Sent 200 (Saved i e c x)
  /\ get_word i (snd (add_word e c x d))
     = Sent 200 (Word i (TEXT e) (TEXT c) (option_map TEXT x) 0 0)
  /\ (well_formed e -> well_formed c -> option_map TEXT x = x ->
      get_word i (snd (add_word e c x d)) = Sent 200 (Word i e c x 0 0))
  /\ lookup i d = None
  /\ forall j, j <> i -> lookup j (snd (add_word e c x d)) = lookup j d.
Proof.
  intros He Hc Hnew i. rewrite (add_word_fresh e c x d He Hc Hnew). cbn [fst snd].
  assert (Hi : lookup i d = None).
  { unfold lookup, get. destruct (List.find _ _) as [w|] eqn:Hf; [|done].
    apply find_some in Hf as [Hin Hid]. apply Z.eqb_eq in Hid.
    apply next_id_fresh in Hin. change (row_id w) with (word_id_of w) in Hin.
    subst i. unfold by_id in Hid. lia. }
  assert (Hget : get_word i
                   (set_words (fun _ =>
                      fst (insert (fun i => Word i (TEXT e) (TEXT c)
                                              (option_map TEXT x) 0 0) (words d))) d)
                 = Sent 200 (Word i (TEXT e) (TEXT c) (option_map TEXT x) 0 0)).
  { unfold get_word, get. cbn. unfold lookup, get in Hi.
    rewrite find_app_none by done. cbn. unfold by_id. cbn. fold i.
    by rewrite Z.eqb_refl. }
  split; [done|]. split; [exact Hget|]. split; [|split; [done|]].
  - intros We Wc Wx. rewrite Hget. unfold well_formed in *. by rewrite We, Wc, Wx.
  - intros j Hj. unfold lookup, get. cbn.
    destruct (List.find (by_id j) (rows (words d))) as [w|] eqn:Hf.
    + by apply find_app_some.
    + rewrite find_app_none by done. cbn. unfold by_id. cbn. fold i.
      apply Z.eqb_neq in Hj. by rewrite Z.eqb_sym, Hj.
Qed.

Lemma add_word_round_trip_witness :
  fst (add_word (lit "plum") (0xD83D%N :: lit "x") None two_words)
  = Sent 200 (Saved 3 (lit "plum") (0xD83D%N :: lit "x") None)
  /\ get_word 3 (snd (add_word (lit "plum") (0xD83D%N :: lit "x") None two_words))
     = Sent 200 (Word 3 (lit "plum") (0xFFFD%N :: lit "x") None 0 0).
Proof.
  assert (H : forall w, In w (rows (words two_words)) ->
                LOWER (english w) <> LOWER (TEXT (lit "plum"))).
  { intros w [<-|[<-|[]]]; discriminate. }
  pose proof (add_word_round_trip (lit "plum") (0xD83D%N :: lit "x") None two_words
                eq_refl eq_refl H) as (H1 & H2 & _).
  split; [exact H1 | exact H2].
Defined.

(** X6.  [POST /api/words] refuses what is stored already and never fails
    on the UNIQUE constraint: with both fields there and a stored word whose
    english is the text of the english sent up to the case of the ASCII
    letters, the reply is 409 with such a word and the store is as before;
    and no request gets the 500 of a constraint. *)
Theorem add_word_duplicate e c x d :
  (truthy e = true -> truthy c = true ->
   (exists w, In w (rows (words d)) /\ LOWER (english w) = LOWER (TEXT e)) ->
   exists row,
     add_word e c x d = (Failed 409 (AlreadyExists row), d)
     /\ In row (rows (words d)) /\ LOWER (english row) = LOWER (TEXT e))
  /\ fst (add_word e c x d) <> Failed 500 Constraint.
Proof.
  split.
  - intros He Hc (w & Hin & Heq). unfold add_word. rewrite He, Hc. cbn [negb orb].
    destruct (get _ (words d)) as [row|] eqn:Hg.
    + exists row. unfold get in Hg. apply find_some in Hg as [Hrow Hr].
      apply bool_decide_eq_true in Hr. done.
    + unfold get in Hg. apply find_none_forall in Hg. rewrite Forall_forall in Hg.
      apply list_elem_of_In in Hin. specialize (Hg w Hin). simpl in Hg.
      apply bool_decide_eq_false in Hg. done.
  - unfold add_word. destruct (negb (truthy e) || negb (truthy c)); [done|].
    destruct (get _ (words d)) as [row|] eqn:Hg; [done|].
    destruct (existsb _ (rows (words d))) eqn:Hex; [|done].
    exfalso. apply existsb_exists in Hex as (w & Hin & Heq).
    apply bool_decide_eq_true in Heq.
    unfold get in Hg. apply find_none_forall in Hg. rewrite Forall_forall in Hg.
    apply list_elem_of_In in Hin. specialize (Hg w Hin). simpl in Hg.
    apply bool_decide_eq_false in Hg. apply Hg. by rewrite Heq.
Qed.

Lemma add_word_duplicate_witness :
  add_word (lit "APPLE") (lit "x") None two_words
  = (Failed 409 (AlreadyExists (Word 1 (lit "apple") (lit "pingguo") None 0 0)), two_words).
Proof.
  destruct (proj1 (add_word_duplicate (lit "APPLE") (lit "x") None two_words)
              eq_refl eq_refl) as (row & Hrow & _ & _).
  - exists (Word 1 (lit "apple") (lit "pingguo") None 0 0). split; [by left | reflexivity].
  - reflexivity.
Defined.

End WordStoreFacts.

(* ===================================================================== *)
(** * What the word requests keep *)
(* ===================================================================== *)

Section WordInvariants.
Import Js Sqlite Words WordStore.
Local Open Scope Z_scope.

Lemma Forall_map_if {A} (P : A -> Prop) (p : A -> bool) (f : A -> A) l :
  (forall r, P r -> P (f r)) ->
  Forall P l -> Forall P (List.map (fun r => if p r then f r else r) l).
Proof.
  intros Hf. induction 1 as [|a l Ha Hl IH]; simpl; constructor; [|done].
  destruct (p a); auto.
Qed.

Lemma words_cascade fk gone d : words (cascade fk gone d) = words d.
Proof. unfold cascade. by destruct fk. Qed.

Lemma add_word_words e c x d :
  words (snd (add_word e c x d)) = words d
  \/ (get (fun w => bool_decide (LOWER (english w) = LOWER (TEXT e))) (words d) = None
      /\ words (snd (add_word e c x d))
         = fst (insert (fun i => Word i (TEXT e) (TEXT c) (option_map TEXT x) 0 0)
                  (words d))).
Proof.
  unfold add_word. destruct (_ || _); [by left|].
  destruct (get _ _) eqn:Hg; [by left|].
  destruct (existsb _ _); [by left | by right].
Qed.

Lemma update_word_words id e c x d :
  words (snd (update_word id e c x d)) = words d
  \/ words (snd (update_word id e c x d))
     = update (by_id id) (set_fields (TEXT e) (TEXT c) (option_map TEXT x)) (words d).
Proof.
  unfold update_word. destruct (_ || _); [by left|].
  destruct (_ && _); [by left|]. destruct (_ <? _)%nat; [by right | by left].
Qed.

Lemma update_stats_words id b d :
  words (snd (update_stats id b d))
  = if b then update (by_id id) more_familiarity (update (by_id id) more_exposure (words d))
    else update (by_id id) more_exposure (words d).
Proof. unfold update_stats. by destruct b. Qed.

Lemma delete_word_words fk id d :
  words (snd (delete_word fk id d)) = words d
  \/ words (snd (delete_word fk id d)) = delete (by_id id) (words d).
Proof.
  unfold delete_word. destruct (_ <? _)%nat; [right | by left].
  cbn [snd]. by rewrite words_cascade.
Qed.

Lemma clear_words_words fk d : words (snd (clear_words fk d)) = clear (words d).
Proof. unfold clear_words. cbn [snd]. by rewrite words_cascade. Qed.

(** Rowids stay distinct and below the last one given. *)
Lemma handle_keyed fk r d : keyed (words d) -> keyed (words (handle fk r d)).
Proof.
  intros Hk. destruct r as [e c x|id e c x|id b|id|]; cbn [handle].
  - destruct (add_word_words e c x d) as [->|[_ ->]]; [done|]. by apply keyed_insert.
  - destruct (update_word_words id e c x d) as [->| ->]; [done|]. by apply keyed_update.
  - rewrite update_stats_words. destruct b; repeat apply keyed_update; done.
  - destruct (delete_word_words fk id d) as [->| ->]; [done|]. by apply keyed_delete.
  - rewrite clear_words_words. apply keyed_clear.
Qed.

(** The AUTOINCREMENT sequence never goes back. *)
Lemma handle_last_id fk r d : last_id (words d) <= last_id (words (handle fk r d)).
Proof.
  destruct r as [e c x|id e c x|id b|id|]; cbn [handle].
  - destruct (add_word_words e c x d) as [->|[_ ->]]; [done|].
    unfold insert, next_id. cbn [fst last_id]. lia.
  - by destruct (update_word_words id e c x d) as [->| ->].
  - rewrite update_stats_words. by destruct b.
  - by destruct (delete_word_words fk id d) as [->| ->].
  - by rewrite clear_words_words.
Qed.

Lemma reachable_keyed fk d : reachable fk d -> keyed (words d).
Proof.
  induction 1 as [|r d _ IH]; [apply keyed_empty | by apply handle_keyed].
Qed.

Lemma handle_counted fk r d :
  Forall (fun w => 0 <= familiarity w <= exposure w) (rows (words d)) ->
  Forall (fun w => 0 <= familiarity w <= exposure w) (rows (words (handle fk r d))).
Proof.
  intros Hc. destruct r as [e c x|id e c x|id b|id|]; cbn [handle].
  - destruct (add_word_words e c x d) as [->|[_ ->]]; [done|].
    unfold insert. cbn [fst rows]. apply Forall_app. split; [done|].
    repeat constructor; cbn; lia.
  - destruct (update_word_words id e c x d) as [->| ->]; [done|].
    unfold update. cbn [rows]. by apply Forall_map_if.
  - rewrite update_stats_words.
    destruct b; unfold update; cbn [rows].
    + induction Hc as [|a l Ha Hl IH]; simpl; [constructor|].
      constructor; [|exact IH].
      unfold by_id. destruct (word_id_of a =? id) eqn:Hid; cbn; rewrite ?Hid; cbn; lia.
    + apply Forall_map_if; [|done]. intros w Hw. cbn. lia.
  - destruct (delete_word_words fk id d) as [->| ->]; [done|].
    unfold delete. cbn [rows]. by apply Forall_filter_keep.
  - rewrite clear_words_words. constructor.
Qed.

Lemma reachable_counted fk d :
  reachable fk d -> Forall (fun w => 0 <= familiarity w <= exposure w) (rows (words d)).
Proof.
  induction 1 as [|r d _ IH]; [constructor | by apply handle_counted].
Qed.

(** X7.  No two stored words have the same english up to the case of the
    ASCII letters, on every store that [POST /api/words], update-stats,
    [DELETE /api/words/:id] and [DELETE /api/words] reach from a new
    database, whether the engine follows foreign keys or not. *)
Theorem english_unique_caseless fk d :
  reachable_unrenamed fk d ->
  NoDup (List.map (fun w => LOWER (english w)) (rows (words d))).
Proof.
  induction 1 as [|r d Hr _ IH]; [apply NoDup_nil_2|].
  destruct r as [e c x|id e c x|id b|id|]; cbn [handle]; [| done | | |].
  - destruct (add_word_words e c x d) as [->|[Hg ->]]; [done|].
    unfold insert. cbn [fst rows]. rewrite List.map_app. cbn [List.map].
    apply NoDup_app. split; [done|]. split; [|apply NoDup_singleton].
    intros s Hs Hn. apply list_elem_of_singleton in Hn. subst s.
    apply list_elem_of_In, in_map_iff in Hs as (w & Hw & Hin).
    unfold get in Hg. apply find_none_forall in Hg. rewrite Forall_forall in Hg.
    apply list_elem_of_In in Hin. specialize (Hg w Hin). simpl in Hg.
    by apply bool_decide_eq_false in Hg.
  - rewrite update_stats_words. destruct b; unfold update; cbn [rows];
      rewrite !(map_map_if (fun w => LOWER (english w))); done.
  - destruct (delete_word_words fk id d) as [->| ->]; [done|].
    unfold delete. cbn [rows]. by apply NoDup_map_filter.
  - rewrite clear_words_words. apply NoDup_nil_2.
Qed.

Lemma english_unique_caseless_witness :
  NoDup (List.map (fun w => LOWER (english w)) (rows (words two_words))).
Proof.
  apply (english_unique_caseless false).
  apply (unrenamed_step false (AddWord (lit "pear") (lit "li") None)); [reflexivity|].
  apply (unrenamed_step false (AddWord (lit "apple") (lit "pingguo") None)); [reflexivity|].
  apply unrenamed_initial.
Defined.

(** X8.  The counters of a word: on every store the word requests reach
    from a new database (add, update, update-stats, delete, clear),
    familiarity is between 0 and exposure for every stored word: a word was
    never answered right more often than it was asked. *)
Theorem familiarity_within_exposure fk d w :
  reachable fk d -> In w (rows (words d)) -> 0 <= familiarity w <= exposure w.
Proof.
  intros Hr Hin. apply reachable_counted in Hr. rewrite Forall_forall in Hr.
  apply Hr. by apply list_elem_of_In.
Qed.

Lemma familiarity_within_exposure_witness :
  let w := Word 1 (lit "apple") (lit "pingguo") None 1 1 in
  In w (rows (words (handle false (UpdateStats 1 true) two_words)))
  /\ 0 <= familiarity w <= exposure w.
Proof.
  intros w.
  assert (Hin : In w (rows (words (handle false (UpdateStats 1 true) two_words))))
    by (by left).
  split; [exact Hin|].
  apply (familiarity_within_exposure false
           (handle false (UpdateStats 1 true) two_words) w); [|exact Hin].
  apply (reach_step false (UpdateStats 1 true)).
  apply (reach_step false (AddWord (lit "pear") (lit "li") None)).
  apply (reach_step false (AddWord (lit "apple") (lit "pingguo") None)).
  apply reach_initial.
Defined.

(** X9.  update-stats of [src/unnamed/part_000] does not look whether the
    word exists: for an id that no stored word has, the reply is the 200 of
    a success and the store is as before. *)
Theorem update_stats_absent id b d :
  lookup id d = None -> update_stats id b d = (Sent 200 Success, d).
Proof.
  unfold lookup. intros Hn. unfold update_stats.
  assert (H1 : set_words (update (by_id id) more_exposure) d = d).
  { destruct d as [ws ms ts ps qs]. unfold set_words. cbn in *.
    by rewrite update_absent. }
  rewrite H1. destruct b; [|done].
  destruct d as [ws ms ts ps qs]. unfold set_words. cbn in *.
  by rewrite update_absent.
Qed.

Lemma update_stats_absent_witness :
  update_stats 7 true two_words = (Sent 200 Success, two_words).
Proof. apply (update_stats_absent 7 true two_words). reflexivity. Defined.

(** X10.  [DELETE /api/words/:id]: an id that no stored word has gets 404
    and the store is as before; otherwise the reply is 200, the id reads as
    absent, every other id reads as before, and the mistake row of the word
    is gone when the engine follows foreign keys and stays when it does
    not. *)
Theorem delete_word_row fk id d :
  match lookup id d with
  | None => delete_word fk id d = (Failed 404 WordNotFound, d)
  | Some _ =>
      fst (delete_word fk id d) = Sent 200 WordDeleted
      /\ lookup id (snd (delete_word fk id d)) = None
      /\ (forall j, j <> id -> lookup j (snd (delete_word fk id d)) = lookup j d)
      /\ Mistakes.lookup id (snd (delete_word fk id d))
         = if fk then None else Mistakes.lookup id d
  end.
Proof.
  unfold lookup, get. destruct (List.find _ _) as [w|] eqn:Hf.
  - assert (Hc : (0 <? changes (by_id id) (words d))%nat = true).
    { unfold changes. apply Nat.ltb_lt.
      destruct (List.filter _ _) as [|a l] eqn:Hfl; [|simpl; lia].
      apply find_some in Hf as [Hin Hid].
      assert (Hw : In w (List.filter (by_id id) (rows (words d))))
        by (apply filter_In; done).
      by rewrite Hfl in Hw. }
    unfold delete_word. rewrite Hc. cbn [fst snd].
    split; [done|]. split; [|split].
    + unfold lookup, get. rewrite words_cascade. cbn. apply find_none_filter.
    + intros j Hj. unfold lookup, get. rewrite words_cascade. cbn.
      apply find_filter_spared. intros r _ Hr. unfold by_id in *.
      apply Z.eqb_eq in Hr. apply negb_true_iff, Z.eqb_neq. lia.
    + unfold cascade, Mistakes.lookup, get. destruct fk; cbn; [|done].
      apply find_none_filter.
  - unfold delete_word, changes. by rewrite (find_none_changes _ _ Hf).
Qed.

(** X11.  An id is given once: in a store whose rowids are in order (as
    they are on every reachable store), whatever word requests follow, a
    [POST /api/words] that stores a word does it under an id above every id
    that was in use before, the deleted ones too. *)
Theorem word_ids_not_reused fk d rs id w e c x j :
  keyed (words d) ->
  lookup id d = Some w ->
  fst (add_word e c x (fold_left (fun d r => handle fk r d) rs d))
  = Sent 200 (Saved j e c x) ->
  id < j.
Proof.
  intros Hk Hl.
  assert (Hid : id <= last_id (words d)).
  { apply lookup_in_words in Hl as [Hin <-]. destruct Hk as [_ Hle].
    rewrite Forall_forall in Hle. apply list_elem_of_In in Hin.
    exact (Hle w Hin). }
  clear Hl Hk. revert d Hid. induction rs as [|r rs IH]; intros d Hid; cbn [fold_left].
  - unfold add_word. destruct (_ || _); [done|]. destruct (get _ _); [done|].
    destruct (existsb _ _); [done|]. unfold insert. cbn [fst].
    intros [= <-]. unfold next_id. lia.
  - apply IH. pose proof (handle_last_id fk r d). lia.
Qed.

Lemma word_ids_not_reused_witness :
  fst (add_word (lit "fig") (lit "wuhuaguo") None
         (fold_left (fun d r => handle true r d) [DeleteWord 2; ClearWords] two_words))
  = Sent 200 (Saved 3 (lit "fig") (lit "wuhuaguo") None) /\ 2 < 3.
Proof.
  split; [reflexivity|].
  apply (word_ids_not_reused true two_words [DeleteWord 2; ClearWords] 2
           (Word 2 (lit "pear") (lit "li") None 0 0)
           (lit "fig") (lit "wuhuaguo") None 3).
  - apply (handle_keyed true (AddWord (lit "pear") (lit "li") None)).
    apply (handle_keyed true (AddWord (lit "apple") (lit "pingguo") None)).
    apply keyed_empty.
  - reflexivity.
  - reflexivity.
Defined.

End WordInvariants.

(* ===================================================================== *)
(** * The statistics and the quiz draws *)
(* ===================================================================== *)

Section QuizFacts.
Import Js Sqlite Words WordStore.
Local Open Scope Z_scope.

Lemma filter_length_mono {A} (p q : A -> bool) l :
  (forall r, In r l -> p r = true -> q r = true) ->
  (length (List.filter p l) <= length (List.filter q l))%nat.
Proof.
  induction l as [|a l IH]; simpl; [done|]. intros Hpq.
  assert (IH' : (length (List.filter p l) <= length (List.filter q l))%nat).
  { apply IH. intros r Hr. apply Hpq. by right. }
  destruct (p a) eqn:Hp.
  - rewrite (Hpq a) by (by auto). simpl. lia.
  - destruct (q a); simpl; lia.
Qed.

(** X12.  [GET /api/words/stats] on a store the word requests reach: the
    reply is 200, the familiar words are among the tested ones and these
    among all, and the two rates are numbers, never NaN, the empty table
    included. *)
Theorem words_stats_counts fk d :
  reachable fk d ->
  Z.of_nat (length (rows (words d))) < 2 ^ 53 ->
  exists st,
    words_stats d = Sent 200 st
    /\ total_words_count st = length (rows (words d))
    /\ (familiar_words_count st <= tested_words_count st <= total_words_count st)%nat
    /\ PrimFloat.is_nan (exposure_rate st) = false
    /\ PrimFloat.is_nan (familiarity_rate st) = false.
Proof.
  intros Hr Hb. apply reachable_counted in Hr. rewrite Forall_forall in Hr.
  unfold words_stats. eexists. split; [reflexivity|].
  cbn [total_words_count tested_words_count familiar_words_count
       exposure_rate familiarity_rate].
  split; [done|]. split; [split|split].
  - apply filter_length_mono. intros w Hw Hf. apply list_elem_of_In in Hw.
    specialize (Hr w Hw). simpl in Hr. apply Z.leb_le in Hf. apply Z.ltb_lt. lia.
  - apply filter_length_le.
  - destruct (0 <? length (rows (words d)))%nat eqn:Hn; [|done].
    apply Nat.ltb_lt in Hn. by apply percent_number.
  - destruct (0 <? length (rows (words d)))%nat eqn:Hn; [|done].
    apply Nat.ltb_lt in Hn. by apply percent_number.
Qed.

Lemma words_stats_counts_witness :
  exists st,
    words_stats (handle false (UpdateStats 1 true) two_words) = Sent 200 st
    /\ total_words_count st = 2%nat
    /\ (familiar_words_count st <= tested_words_count st <= total_words_count st)%nat
    /\ PrimFloat.is_nan (exposure_rate st) = false
    /\ PrimFloat.is_nan (familiarity_rate st) = false.
Proof.
  apply (words_stats_counts false (handle false (UpdateStats 1 true) two_words)).
  - apply (reach_step false (UpdateStats 1 true)).
    apply (reach_step false (AddWord (lit "pear") (lit "li") None)).
    apply (reach_step false (AddWord (lit "apple") (lit "pingguo") None)).
    apply reach_initial.
  - vm_compute. reflexivity.
Defined.

Lemma LIMIT_some {A} n (l : list A) :
  lossless_int64 n = true ->
  exists rows, LIMIT n l = Some rows
    /\ length rows = (if n <? 0 then length l else Nat.min (Z.to_nat n) (length l))
    /\ sublist rows l
    /\ (n < 0 \/ Z.of_nat (length l) <= n -> rows = l).
Proof.
  intros Hn. unfold LIMIT. rewrite Hn. eexists. split; [reflexivity|].
  destruct (n <? 0) eqn:Hneg; [by repeat split|].
  split; [apply length_take|]. split; [apply sublist_take|].
  intros [H|H]; [apply Z.ltb_ge in Hneg; lia | apply take_ge; lia].
Qed.

Lemma LIMIT_none {A} n (l : list A) : lossless_int64 n = false -> LIMIT n l = None.
Proof. intros Hn. unfold LIMIT. by rewrite Hn. Qed.

Variable RANDOM : list word -> list word.
Hypothesis RANDOM_order : forall l, Permutation (RANDOM l) l.

(** X13.  [GET /api/test/random/:count], [ORDER BY RANDOM()] being any
    order of the rows.  When [count] is an integer that SQLite takes as a
    LIMIT (strictly between the smallest and the largest integer of 64
    bits), the reply is 200 with [count] stored words, or all of them when
    there are no more than [count] or [count] is negative; no word comes
    twice, and with all of them the reply is the table in another order.
    With any other [count] the statement fails and the reply is 500. *)
Theorem random_words_sample count d :
  keyed (words d) ->
  if lossless_int64 count then
    exists ws,
      random_words RANDOM count d = Sent 200 ws
      /\ length ws = (if count <? 0 then length (rows (words d))
                      else Nat.min (Z.to_nat count) (length (rows (words d))))
      /\ NoDup ws
      /\ (forall w, In w ws -> In w (rows (words d)))
      /\ (count < 0 \/ Z.of_nat (length (rows (words d))) <= count ->
          Permutation ws (rows (words d)))
  else random_words RANDOM count d = Failed 500 Mismatch.
Proof using RANDOM_order.
  intros [Hnd _]. unfold random_words.
  pose proof (RANDOM_order (rows (words d))) as Hp.
  destruct (lossless_int64 count) eqn:Hc; [|by rewrite LIMIT_none].
  destruct (LIMIT_some count (RANDOM (rows (words d))) Hc)
    as (ws & -> & Hlen & Hsub & Hall).
  exists ws. split; [done|]. split; [by rewrite Hlen, (Permutation_length Hp)|].
  assert (Hnd' : NoDup (RANDOM (rows (words d)))).
  { rewrite Hp. by apply (NoDup_fmap_1 row_id). }
  split; [exact (sublist_NoDup _ _ Hnd' Hsub)|]. split.
  - intros w Hw. apply (Permutation_in _ Hp). apply list_elem_of_In.
    apply list_elem_of_In in Hw. by apply (sublist_subseteq _ _ Hsub).
  - intros H. rewrite Hall; [done|]. by rewrite (Permutation_length Hp).
Qed.

(** X14.  [GET /api/test/distractors/:wordId/:count].  When [count] is an
    integer that SQLite takes as a LIMIT, every text of the reply is the
    chinese of a stored word whose id is not [wordId]; there are [count] of
    them, or one for each such word when these are no more than [count] or
    [count] is negative.  With any other [count] the statement fails and the
    reply is 500. *)
Theorem distractors_of_others wordId count d :
  let others := List.filter (fun w => negb (by_id wordId w)) (rows (words d)) in
  if lossless_int64 count then
    exists cs,
      distractors RANDOM wordId count d = Sent 200 cs
      /\ length cs = (if count <? 0 then length others
                      else Nat.min (Z.to_nat count) (length others))
      /\ (forall c, In c cs ->
          exists w, In w (rows (words d)) /\ word_id_of w <> wordId /\ chinese w = c)
      /\ (count < 0 \/ Z.of_nat (length others) <= count ->
          Permutation cs (List.map chinese others))
  else distractors RANDOM wordId count d = Failed 500 Mismatch.
Proof using RANDOM_order.
  intros others. unfold distractors. fold others.
  pose proof (RANDOM_order others) as Hp.
  destruct (lossless_int64 count) eqn:Hc; [|by rewrite LIMIT_none].
  destruct (LIMIT_some count (RANDOM others) Hc) as (ws & -> & Hlen & Hsub & Hall).
  eexists. split; [reflexivity|].
  split; [by rewrite length_map, Hlen, (Permutation_length Hp)|]. split.
  - intros c Hc'. apply in_map_iff in Hc' as (w & <- & Hw).
    apply list_elem_of_In in Hw. apply (sublist_subseteq _ _ Hsub) in Hw.
    apply list_elem_of_In in Hw. apply (Permutation_in _ Hp) in Hw.
    apply filter_In in Hw as [Hin Hid]. exists w. split; [done|]. split; [|done].
    unfold by_id in Hid. apply negb_true_iff, Z.eqb_neq in Hid. done.
  - intros H. rewrite Hall by (by rewrite (Permutation_length Hp)).
    by apply Permutation_map.
Qed.

End QuizFacts.

Section QuizExamples.
Import Js Sqlite Words WordStore.
Local Open Scope Z_scope.

Lemma rev_order (l : list word) : Permutation (rev l) l.
Proof. symmetry. apply Permutation_rev. Qed.

Lemma random_words_sample_witness :
  exists ws,
    random_words (@rev word) 5 two_words = Sent 200 ws
    /\ length ws = 2%nat
    /\ NoDup ws
    /\ (forall w, In w ws -> In w (rows (words two_words)))
    /\ (5 < 0 \/ Z.of_nat (length (rows (words two_words))) <= 5 ->
        Permutation ws (rows (words two_words))).
Proof.
  apply (random_words_sample (@rev word) rev_order 5 two_words).
  apply (handle_keyed true (AddWord (lit "pear") (lit "li") None)).
  apply (handle_keyed true (AddWord (lit "apple") (lit "pingguo") None)).
  apply keyed_empty.
Defined.

Lemma distractors_of_others_witness :
  exists cs,
    distractors (@rev word) 1 3 two_words = Sent 200 cs
    /\ length cs = 1%nat
    /\ (forall c, In c cs ->
        exists w, In w (rows (words two_words)) /\ word_id_of w <> 1 /\ chinese w = c)
    /\ (3 < 0 \/ Z.of_nat 1 <= 3 -> Permutation cs [lit "li"]).
Proof. exact (distractors_of_others (@rev word) rev_order 1 3 two_words). Defined.

End QuizExamples.

(* ===================================================================== *)
(** * What the importer stores, and what is read back *)
(* ===================================================================== *)

Section ReadingFacts.
Import Js Re Sqlite Importer Passages.
Local Open Scope Z_scope.

Lemma check_questions_ok qs : forall i,
  check_questions i qs = None ->
  Forall (fun q => truthy (questionText q) = true /\ truthy (optionA q) = true
                   /\ truthy (optionB q) = true /\ truthy (optionC q) = true) qs.
Proof.
  induction qs as [|q qs IH]; intros i; cbn [check_questions]; [constructor|].
  destruct (truthy (questionText q)) eqn:H1; cbn [negb]; [|done].
  destruct (truthy (optionA q)) eqn:H2; cbn [negb orb]; [|done].
  destruct (truthy (optionB q)) eqn:H3; cbn [negb orb]; [|done].
  destruct (truthy (optionC q)) eqn:H4; cbn [negb orb]; [|done].
  intros H. constructor; [done | by eapply IH].
Qed.

Lemma check_answers_ok answers n : forall i,
  check_answers i n answers = None ->
  forall k, (k < n)%nat ->
    exists a, answers !! toString (i + k + 1) = Some a /\ a <> [].
Proof.
  induction n as [|n IH]; intros i H k Hk; [lia|]. cbn [check_answers] in H.
  destruct (answers !! toString (i + 1)) as [[|x a]|] eqn:Ha; [done| |done].
  destruct k as [|k].
  - rewrite Nat.add_0_r. rewrite Ha. eauto.
  - destruct (IH (S i) H k) as (a' & Ha' & Hne); [lia|]. exists a'. split; [|done].
    by replace (i + S k + 1)%nat with (S i + k + 1)%nat by lia.
Qed.

(** The [answers] object holds letters among A, B, C only, unless
    [answerErrors] got an entry. *)
Lemma parse_answers_valid s answers errs :
  parse_answers s = Some (answers, errs) -> errs = [] ->
  map_Forall (fun _ v => valid_option v = true) answers.
Proof.
  unfold parse_answers. destruct (exec_all answerRegex s) as [ms|]; [|done].
  cbn [option_map]. intros [= H] He. revert He.
  change answers with (fst (answers, errs)). change errs with (snd (answers, errs)) at 1.
  rewrite <- H. clear H answers errs.
  assert (Hinit : snd ((∅, []) : gmap jsstring jsstring * list jsstring) = [] ->
            map_Forall (fun _ v => valid_option v = true)
              (fst ((∅, []) : gmap jsstring jsstring * list jsstring))).
  { intros _. apply map_Forall_empty. }
  revert Hinit. generalize ((∅, []) : gmap jsstring jsstring * list jsstring).
  induction ms as [|m ms IH]; intros acc Hacc; cbn [fold_left]; [done|].
  apply IH. destruct acc as [a e]. cbn [fst snd] in *.
  destruct (valid_option (group m 2)) eqn:Hv; cbn [fst snd].
  - intros He. apply map_Forall_insert_2; auto.
  - intros He. by destruct e.
Qed.

Lemma parse_ok content p :
  parse content = Some (inr p) ->
  truthy (p_title p) = true /\ truthy (p_content p) = true
  /\ p_questions p <> []
  /\ Forall (fun q => truthy (questionText q) = true /\ truthy (optionA q) = true
                      /\ truthy (optionB q) = true /\ truthy (optionC q) = true)
       (p_questions p)
  /\ forall k, (k < length (p_questions p))%nat ->
       exists a, p_answers p !! toString (k + 1) = Some a /\ valid_option a = true.
Proof.
  unfold parse. destruct (negb (truthy content)); [done|].
  destruct (sections content) as [[[pc qt] at_]|]; [|done].
  destruct (_ <? 1)%nat; [done|].
  destruct (truthy (trim (nth 0 _ []))) eqn:Ht; cbn [negb]; [|done].
  destruct (truthy (trim (join_lines _))) eqn:Hb; cbn [negb]; [|done].
  destruct (parse_questions qt) as [qs|]; [|done].
  destruct (length qs =? 0)%nat eqn:Hlen; [done|].
  destruct (check_questions 0 qs) eqn:Hcq; [done|].
  destruct (parse_answers at_) as [[answers errs]|] eqn:Hpa; [|done].
  destruct (size answers =? 0)%nat; [done|].
  destruct (0 <? length errs)%nat eqn:Herr; [done|].
  destruct (negb _); [done|].
  destruct (check_answers 0 (length qs) answers) eqn:Hca; [done|].
  intros [= <-]. cbn [p_title p_content p_questions p_answers].
  split; [done|]. split; [done|]. split.
  { intros ->. done. }
  split; [by eapply check_questions_ok|].
  intros k Hk. destruct (check_answers_ok _ _ _ Hca k Hk) as (a & Ha & Hne).
  exists a. split; [done|].
  assert (He : errs = []).
  { apply Nat.ltb_ge in Herr. destruct errs; [done | simpl in Herr; lia]. }
  exact (parse_answers_valid _ _ _ Hpa He _ _ Ha).
Qed.

Lemma valid_option_some a : valid_option a = true -> a <> [].
Proof. by intros H ->. Qed.

Lemma valid_option_TEXT a : valid_option a = true -> TEXT a = a.
Proof.
  unfold valid_option. intros H.
  apply orb_true_iff in H as [H|H]; [apply orb_true_iff in H as [H|H]|];
    apply bool_decide_eq_true in H; by subst a.
Qed.

(** [questions.forEach] when every question has its answer: one INSERT for
    each, in order, with the answer of its number. *)
Lemma queued_inserts_all answers qs : forall index,
  (forall k, (k < length qs)%nat ->
     exists a, answers !! toString (index + k + 1) = Some a /\ a <> []) ->
  queued_inserts answers index qs
  = imap (fun k q => (q, default [] (answers !! toString (index + k + 1)))) qs.
Proof.
  induction qs as [|q qs IH]; intros index Hans; cbn [queued_inserts imap]; [done|].
  destruct (Hans 0%nat) as (a & Ha & Hne); [simpl; lia|].
  rewrite Nat.add_0_r in *. rewrite Ha. destruct a as [|a0 a]; [done|].
  cbn [default]. f_equal. rewrite IH.
  - apply imap_ext. intros k x _. cbn beta. unfold compose.
    by replace (S index + k + 1)%nat with (index + S k + 1)%nat by lia.
  - intros k Hk. destruct (Hans (S k)) as (a' & Ha' & Hne'); [simpl; lia|].
    exists a'. split; [|done].
    by replace (S index + k + 1)%nat with (index + S k + 1)%nat by lia.
Qed.

(** A successful import, with what it leaves in the store: the rows of the
    questions are the expected ones in the order of the schedule. *)
Lemma reading_import_rows sch content d s b d' :
  reading_import sch content d = Some (Sent s b, d') ->
  exists p new,
    parse content = Some (inr p)
    /\ s = 200%nat /\ success_count b = 1%nat
    /\ total_questions b = (length (p_questions p) - late sch)%nat
    /\ words d' = words d /\ mistakes d' = mistakes d
    /\ test_results d' = test_results d
    /\ rows (reading_passages d')
       = rows (reading_passages d)
         ++ [Passage (next_id (reading_passages d)) (TEXT (p_title p))
               (TEXT (p_content p)) 0]
    /\ rows (reading_questions d') = rows (reading_questions d) ++ new
    /\ Forall (fun q => passage_id q = next_id (reading_passages d)) new
    /\ List.map stored_question new
       = arrange (picks sch) (expected_questions p).
Proof.
  unfold reading_import. destruct (parse content) as [[e|p]|] eqn:Hparse; [done| |done].
  destruct (parse_ok content p Hparse) as (_ & _ & _ & _ & Hans).
  unfold persist, insert. cbn [fst snd].
  set (i := next_id (reading_passages d)).
  set (d1 := set_reading_passages _ d).
  assert (Hq : queued_inserts (p_answers p) 0 (p_questions p)
               = imap (fun k q => (q, default [] (p_answers p !! toString (k + 1))))
                   (p_questions p)).
  { apply (queued_inserts_all (p_answers p) (p_questions p) 0).
    intros k Hk. destruct (Hans k Hk) as (a & Ha & Hv). exists a.
    split; [done | by apply valid_option_some]. }
  rewrite Hq.
  set (queued := imap _ (p_questions p)).
  destruct (insert_questions_rows i (arrange (picks sch) queued) d1)
    as (Hw & Hm & Ht & Hp & new & Hrows & Hnew).
  intros [= <- <- <-]. exists p, new.
  rewrite Hw, Hm, Ht, Hp, Hrows.
  split; [done|]. split; [done|]. split; [done|].
  split; [cbn [total_questions]; unfold queued; by rewrite length_imap|].
  repeat (split; [done|]). split; [by eapply inserted_of_passage|].
  assert (Hbound : Forall (fun stmt => TEXT (snd stmt) = snd stmt) queued).
  { apply Forall_forall. intros [q a] Hin. cbn.
    apply list_elem_of_lookup in Hin as [k Hin]. unfold queued in Hin.
    rewrite list_lookup_imap in Hin.
    destruct (p_questions p !! k) as [q'|] eqn:Hk; [|done]. cbn in Hin.
    injection Hin as <- <-.
    destruct (Hans k) as (a & Ha & Hv); [by eapply lookup_lt_Some|].
    rewrite Ha. cbn. by apply valid_option_TEXT. }
  assert (Harr : Forall (fun stmt => TEXT (snd stmt) = snd stmt)
                   (arrange (picks sch) queued)).
  { rewrite Forall_forall in Hbound. apply Forall_forall. intros stmt Hin.
    apply Hbound. by rewrite <- (arrange_Permutation (picks sch) queued). }
  assert (Hexp : expected_questions p
                 = List.map (fun stmt => (bound_question (fst stmt), snd stmt)) queued).
  { unfold expected_questions, queued.
    change (List.map ?g (imap ?f ?l)) with (g <$> imap f l). by rewrite fmap_imap. }
  rewrite Hexp, arrange_map. clear Hrows Hexp Hbound Hw Hm Ht Hp.
  induction Hnew as [|q stmt new stmts Hq1 _ IH]; [done|].
  apply Forall_cons in Harr as [Hs Harr]. cbn [List.map]. f_equal; [|by apply IH].
  rewrite Hq1. unfold stored_question, bound_question. cbn. by rewrite Hs.
Qed.

(** What the importer expects of a parsed text is what [question_ok] asks. *)
Lemma expected_questions_ok content p :
  parse content = Some (inr p) ->
  length (expected_questions p) = length (p_questions p)
  /\ Forall (fun stmt =>
       truthy (questionText (fst stmt)) = true /\ truthy (optionA (fst stmt)) = true
       /\ truthy (optionB (fst stmt)) = true /\ truthy (optionC (fst stmt)) = true
       /\ valid_option (snd stmt) = true) (expected_questions p).
Proof.
  intros Hparse. destruct (parse_ok content p Hparse) as (_ & _ & _ & Hok & Hans).
  unfold expected_questions. split; [by rewrite length_imap|].
  apply Forall_forall. intros [q a] Hin.
  apply list_elem_of_lookup in Hin as [k Hin]. rewrite list_lookup_imap in Hin.
  destruct (p_questions p !! k) as [q'|] eqn:Hk; [|done]. cbn in Hin.
  injection Hin as <- <-.
  destruct (Hans k) as (a & Ha & Hv); [by eapply lookup_lt_Some|].
  rewrite Ha. cbn. rewrite Forall_forall in Hok.
  apply list_elem_of_lookup_2 in Hk. destruct (Hok q' Hk) as (H1 & H2 & H3 & H4).
  by rewrite !truthy_TEXT.
Qed.

(** The rows a successful import adds: a passage with a title and a body,
    and for each question found a row of that passage whose answer is A, B
    or C. *)
Lemma reading_import_new sch content d s b d' :
  reading_import sch content d = Some (Sent s b, d') ->
  exists p new,
    rows (reading_passages d') = rows (reading_passages d) ++ [p]
    /\ passage_id_of p = next_id (reading_passages d)
    /\ passage_exposure p = 0 /\ passage_ok p
    /\ rows (reading_questions d') = rows (reading_questions d) ++ new
    /\ total_questions b = (length new - late sch)%nat /\ (1 <= length new)%nat
    /\ Forall (fun q => passage_id q = next_id (reading_passages d) /\ question_ok q) new.
Proof.
  intros Hi.
  destruct (reading_import_rows _ _ _ _ _ _ Hi)
    as (p & new & Hparse & _ & _ & Htot & _ & _ & _ & Hps & Hqs & Hid & Hmap).
  destruct (parse_ok content p Hparse) as (Ht & Hc & Hne & _ & _).
  destruct (expected_questions_ok content p Hparse) as (Hlen & Hok).
  assert (Hlen' : length new = length (p_questions p)).
  { rewrite <- Hlen, <- (length_map stored_question), Hmap.
    apply Permutation_length, arrange_Permutation. }
  eexists _, new. split; [exact Hps|]. cbn [passage_id_of passage_exposure].
  split; [done|]. split; [done|].
  split; [unfold passage_ok; cbn; by rewrite !truthy_TEXT|].
  split; [done|]. split; [by rewrite Hlen'|]. split.
  { rewrite Hlen'. destruct (p_questions p); [done | simpl; lia]. }
  rewrite Forall_forall in Hid. rewrite Forall_forall in Hok.
  apply Forall_forall. intros q Hq.
  split; [by apply Hid|].
  assert (Hin : stored_question q ∈ expected_questions p).
  { rewrite <- (arrange_Permutation (picks sch)), <- Hmap.
    apply list_elem_of_In, in_map. by apply list_elem_of_In. }
  destruct (Hok _ Hin) as (H1 & H2 & H3 & H4 & H5). done.
Qed.

(** X15.  [POST /api/reading/import] always replies, whatever the engine's
    schedule: its two matching loops end on every text.  The reply is either
    a 400 that leaves the store as it was, or a 200 that counts one passage;
    then one passage and at least one question were written, and the count
    of questions in the reply is the number of questions written less the
    INSERTs whose callback came after the callback of COMMIT. *)
Theorem reading_import_replies sch content d :
  exists r d',
    reading_import sch content d = Some (r, d')
    /\ match r with
       | Failed s _ => s = 400%nat /\ d' = d
       | Sent s b =>
           s = 200%nat /\ success_count b = 1%nat
           /\ length (rows (reading_passages d')) = S (length (rows (reading_passages d)))
           /\ exists n,
                (1 <= n)%nat
                /\ length (rows (reading_questions d'))
                   = (length (rows (reading_questions d)) + n)%nat
                /\ total_questions b = (n - late sch)%nat
       end.
Proof.
  destruct (reading_import_total sch content d) as [[r d'] Hi]. exists r, d'.
  split; [done|]. destruct r as [s b|s e].
  - destruct (reading_import_rows _ _ _ _ _ _ Hi)
      as (p & new & _ & Hs & Hc & _).
    destruct (reading_import_new _ _ _ _ _ _ Hi)
      as (p' & new' & Hps & _ & _ & _ & Hqs & Htot & Hpos & _).
    rewrite Hps, Hqs, !length_app. cbn [length].
    split; [done|]. split; [done|]. split; [lia|]. by exists (length new').
  - by apply (reading_import_refusal sch content d s e d').
Qed.

(** X16.  What a successful import writes, whatever the engine's schedule:
    one passage under a new id, never read, with the title and the body not
    empty, and after the stored questions at least one row of that passage,
    each with its text and three options not empty and an answer among A, B,
    C; the reply counts these rows less the INSERTs whose callback came
    after COMMIT's; the words, the mistakes and the test results stay. *)
Theorem reading_import_stores sch content d s b d' :
  reading_import sch content d = Some (Sent s b, d') ->
  let i := next_id (reading_passages d) in
  words d' = words d /\ mistakes d' = mistakes d /\ test_results d' = test_results d
  /\ (exists p,
        rows (reading_passages d') = rows (reading_passages d) ++ [p]
        /\ passage_id_of p = i /\ passage_exposure p = 0 /\ passage_ok p)
  /\ (exists new,
        rows (reading_questions d') = rows (reading_questions d) ++ new
        /\ (1 <= length new)%nat
        /\ total_questions b = (length new - late sch)%nat
        /\ Forall (fun q => passage_id q = i /\ question_ok q) new).
Proof.
  intros Hi i.
  destruct (reading_import_rows _ _ _ _ _ _ Hi)
    as (_ & _ & _ & _ & _ & _ & Hw & Hm & Ht & _).
  destruct (reading_import_new _ _ _ _ _ _ Hi)
    as (p & new & Hps & Hid & Hex & Hok & Hqs & Htot & Hpos & Hnew).
  repeat (split; [done|]). split; [by exists p | by exists new].
Qed.

Lemma reading_import_stores_witness :
  exists new,
    rows (reading_questions
            (handle (ImportReading (Schedule [] 1) spec_example) initial)) = [] ++ new
    /\ (1 <= length new)%nat
    /\ 0%nat = (length new - 1)%nat
    /\ Forall (fun q => passage_id q = 1 /\ question_ok q) new.
Proof.
  exact (proj2 (proj2 (proj2 (proj2
    (reading_import_stores (Schedule [] 1) spec_example initial 200 (ImportSummary 1 0)
       (handle (ImportReading (Schedule [] 1) spec_example) initial) eq_refl))))).
Defined.

Lemma handle_reading r d :
  Submit.linked d
  /\ Forall passage_ok (rows (reading_passages d))
  /\ Forall question_ok (rows (reading_questions d))
  /\ (forall p, In p (rows (reading_passages d)) ->
        exists q, In q (rows (reading_questions d)) /\ passage_id q = passage_id_of p) ->
  Submit.linked (handle r d)
  /\ Forall passage_ok (rows (reading_passages (handle r d)))
  /\ Forall question_ok (rows (reading_questions (handle r d)))
  /\ (forall p, In p (rows (reading_passages (handle r d))) ->
        exists q, In q (rows (reading_questions (handle r d)))
                  /\ passage_id q = passage_id_of p).
Proof.
  intros (Hl & Hp & Hq & Hown). destruct r as [sch content|id]; cbn [handle].
  - destruct (reading_import sch content d) as [[[s b|s e] d']|] eqn:Hi; [| |done].
    + destruct (reading_import_new _ _ _ _ _ _ Hi)
        as (p & new & Hps & Hid & _ & Hok & Hqs & _ & Hpos & Hnew).
      split; [exact (reading_import_linked _ _ _ _ _ Hl Hi)|]. rewrite Hps, Hqs.
      split; [apply Forall_app; split; [done | constructor; [done | constructor]]|].
      split.
      { apply Forall_app. split; [done|]. eapply Forall_impl; [exact Hnew|].
        by intros q [_ Hqok]. }
      intros p' Hp'. apply in_app_or in Hp' as [Hp'|[<-|[]]].
      * destruct (Hown p' Hp') as (q & Hin & Heq). exists q.
        split; [apply in_or_app; by left | done].
      * destruct new as [|q new]; [simpl in Hpos; lia|].
        apply Forall_cons in Hnew as [[Hqid _] _]. exists q.
        split; [apply in_or_app; right; by left | congruence].
    + by destruct (reading_import_refusal _ _ _ _ _ _ Hi) as [_ ->].
  - unfold get_passage. destruct (get _ _) as [p|]; [|done]. cbn [snd].
    split.
    { intros q Hin. destruct (Hl q Hin) as (p' & Hp' & Heq). cbn in *.
      exists (if by_id id p' then more_read p' else p').
      split; [|by destruct (by_id id p')].
      apply in_map_iff. by exists p'. }
    cbn. split; [|split; [done|]].
    + apply Forall_forall. intros x Hx.
      apply list_elem_of_In, in_map_iff in Hx as (p' & <- & Hin).
      rewrite Forall_forall in Hp. apply list_elem_of_In in Hin.
      specialize (Hp p' Hin). by destruct (by_id id p').
    + intros x Hx. apply in_map_iff in Hx as (p' & <- & Hin).
      destruct (Hown p' Hin) as (q & Hqin & Heq). exists q. split; [done|].
      by destruct (by_id id p').
Qed.

(** X17.  The reading tables on every store that imports and readings
    reach from a new database: every question belongs to a stored passage,
    every passage has at least one question, a title and a body, and every
    question has its text, its three options and an answer among A, B, C. *)
Theorem reading_store_invariant d :
  reachable d ->
  Submit.linked d
  /\ Forall passage_ok (rows (reading_passages d))
  /\ Forall question_ok (rows (reading_questions d))
  /\ (forall p, In p (rows (reading_passages d)) ->
        exists q, In q (rows (reading_questions d)) /\ passage_id q = passage_id_of p).
Proof.
  induction 1 as [|r d _ IH]; [|by apply handle_reading].
  split; [by intros q []|]. split; [constructor|]. split; [constructor|]. by intros p [].
Qed.

Lemma reading_store_invariant_witness :
  Forall question_ok
    (rows (reading_questions
             (handle (GetPassage 1) (handle (ImportReading as_issued spec_example) initial)))).
Proof.
  apply (reading_store_invariant
           (handle (GetPassage 1) (handle (ImportReading as_issued spec_example) initial))).
  apply (reach_step (GetPassage 1)). apply (reach_step (ImportReading as_issued spec_example)).
  apply reach_initial.
Defined.

Lemma filter_all {A} (p : A -> bool) l :
  Forall (fun r => p r = true) l -> List.filter p l = l.
Proof.
  induction 1 as [|a l Ha Hl IH]; simpl; [done|]. by rewrite Ha, IH.
Qed.

Lemma filter_nothing {A} (p : A -> bool) l :
  Forall (fun r => p r = false) l -> List.filter p l = [].
Proof.
  induction 1 as [|a l Ha Hl IH]; simpl; [done|]. by rewrite Ha.
Qed.

(** X18.  An import that succeeds is read back as it was parsed, up to the
    order of the questions: in a store where every question belongs to a
    stored passage, [GET /api/reading/passage/:id] with the new id then
    replies with the text of the parsed title and body, never read so far,
    and with the expected questions (each parsed question with the text of
    its fields and the answer that the answers section gives for its
    number) in the order in which the engine ran their INSERTs: in the order
    of the text when the INSERTs ran as they were issued, and always the same
    questions as many times. *)
Theorem import_then_read sch content d s b d' :
  Submit.linked d ->
  reading_import sch content d = Some (Sent s b, d') ->
  let i := next_id (reading_passages d) in
  exists pr qs,
    parse content = Some (inr pr)
    /\ fst (get_passage i d')
       = Sent 200 (Passage i (TEXT (p_title pr)) (TEXT (p_content pr)) 0, qs)
    /\ Forall (fun q => passage_id q = i) qs
    /\ List.map stored_question qs = arrange (picks sch) (expected_questions pr)
    /\ Permutation (List.map stored_question qs) (expected_questions pr)
    /\ (picks sch = [] -> List.map stored_question qs = expected_questions pr).
Proof.
  intros Hl Hi i.
  destruct (reading_import_rows _ _ _ _ _ _ Hi)
    as (pr & new & Hparse & _ & _ & _ & _ & _ & _ & Hps & Hqs & Hid & Hmap).
  fold i in Hps, Hid. exists pr, new. split; [done|].
  assert (Hold : Forall (fun q => (passage_id q =? i) = false) (rows (reading_questions d))).
  { apply Forall_forall. intros q Hq. apply list_elem_of_In in Hq.
    destruct (Hl q Hq) as (p & Hp & Hpid). apply next_id_fresh in Hp.
    change (row_id p) with (passage_id_of p) in Hp. apply Z.eqb_neq.
    unfold i. lia. }
  assert (Hnew : Forall (fun q => (passage_id q =? i) = true) new).
  { eapply Forall_impl; [exact Hid|]. intros q Hq. by apply Z.eqb_eq. }
  split; [|split; [done|]; split; [done|]; split].
  - unfold get_passage, get, all. rewrite Hps, Hqs.
    rewrite find_app_none.
    + cbn [List.find]. unfold by_id at 1. cbn [passage_id_of]. rewrite Z.eqb_refl.
      cbn [fst]. rewrite List.filter_app, (filter_nothing _ _ Hold), (filter_all _ _ Hnew).
      done.
    + destruct (List.find _ _) as [p|] eqn:Hf; [|done].
      apply find_some in Hf as [Hin Hpid]. apply Z.eqb_eq in Hpid.
      apply next_id_fresh in Hin. change (row_id p) with (passage_id_of p) in Hin.
      unfold i in Hpid. lia.
  - rewrite Hmap. apply arrange_Permutation.
  - intros Hpicks. by rewrite Hmap, Hpicks, arrange_as_issued.
Qed.

Lemma import_then_read_witness :
  exists pr qs,
    parse spec_example = Some (inr pr)
    /\ fst (get_passage 1 (handle (ImportReading as_issued spec_example) initial))
       = Sent 200 (Passage 1 (TEXT (p_title pr)) (TEXT (p_content pr)) 0, qs)
    /\ Forall (fun q => passage_id q = 1) qs
    /\ List.map stored_question qs = arrange [] (expected_questions pr)
    /\ Permutation (List.map stored_question qs) (expected_questions pr)
    /\ (@nil nat = [] -> List.map stored_question qs = expected_questions pr).
Proof.
  apply (import_then_read as_issued spec_example initial 200 (ImportSummary 1 1)
           (handle (ImportReading as_issued spec_example) initial)).
  - by intros q [].
  - reflexivity.
Defined.

Lemma get_passage_found id d p :
  get (by_id id) (reading_passages d) = Some p ->
  get_passage id d
  = (Sent 200 (p, all (fun q => passage_id q =? id) (reading_questions d)),
     set_reading_passages (update (by_id id) more_read) d).
Proof. unfold get_passage. by intros ->. Qed.

(** X19.  [GET /api/reading/passage/:id] counts the readings: an id that
    is not stored gets 404 and nothing changes; for a stored passage, the
    reply after [n] earlier readings shows the passage with its exposure
    raised by [n] (the reading itself is counted after the passage was
    read) and always the same questions. *)
Theorem get_passage_counts id d :
  match get (by_id id) (reading_passages d) with
  | None => get_passage id d = (Failed 404 PassageNotFound, d)
  | Some p =>
      forall n,
        fst (get_passage id (Nat.iter n (fun d => snd (get_passage id d)) d))
        = Sent 200 (Passage (passage_id_of p) (title p) (content p)
                      (passage_exposure p + Z.of_nat n),
                    all (fun q => passage_id q =? id) (reading_questions d))
  end.
Proof.
  destruct (get _ _) as [p|] eqn:Hg; [|unfold get_passage; by rewrite Hg].
  intros n. revert d p Hg. induction n as [|n IH]; intros d p Hg.
  - cbn [Nat.iter nat_rect]. rewrite (get_passage_found id d p Hg). cbn [fst].
    rewrite Z.add_0_r. by destruct p.
  - rewrite Nat.iter_succ_r. cbn beta. rewrite (get_passage_found id d p Hg). cbn [snd].
    rewrite (IH _ (more_read p)).
    + cbn. do 3 f_equal. lia.
    + unfold get, set_reading_passages, update. cbn.
      unfold get in Hg. rewrite find_map_if by done. rewrite Hg. cbn.
      apply find_some in Hg as [_ ->]. done.
Qed.

(** ** The answer pattern only finds the letters A, B, C *)

Lemma run_seq {R} r1 r2 s c (k : jsstring -> captures -> option R) :
  run (Seq r1 r2) s c k = run r1 s c (fun s1 c1 => run r2 s1 c1 k).
Proof. reflexivity. Qed.

Lemma run_group {R} i r s c (k : jsstring -> captures -> option R) :
  run (Group i r) s c k
  = run r s c (fun s1 c1 => k s1 (<[i := take (length s - length s1) s]> c1)).
Proof. reflexivity. Qed.

(** White space leaves the captures as they are. *)
Lemma run_spaces_captures {R} s c (k : jsstring -> captures -> option R) x :
  run (Star space) s c k = Some x -> exists s', k s' c = Some x.
Proof.
  induction s as [|y s IH]; [cbn; eauto|].
  unfold space in *. rewrite run_star_class_cons. destruct (is_space y); [|eauto].
  destruct (run (Star (Class is_space)) s c k) eqn:Hr; [|eauto].
  intros [= <-]. by apply IH.
Qed.

Lemma match_here_answer s rest c :
  match_here answerRegex s = Some (rest, c) -> valid_option (group c 2) = true.
Proof.
  unfold match_here, answerRegex. intros H.
  rewrite run_seq in H. apply run_shrinks in H as (s1 & c1 & H & _). cbn beta in H.
  rewrite run_seq in H. apply run_spaces_captures in H as (s2 & H). cbn beta in H.
  rewrite run_seq in H. apply run_shrinks in H as (s3 & c3 & H & _). cbn beta in H.
  rewrite run_seq in H. apply run_spaces_captures in H as (s4 & H). cbn beta in H.
  rewrite run_seq, run_group in H. cbn [run] in H.
  destruct s4 as [|y s4]; [done|].
  destruct ((y =? 65) || (y =? 66) || (y =? 67))%N eqn:Habc; [|done].
  apply run_spaces_captures in H as (s5 & H). injection H as _ <-.
  unfold group. rewrite lookup_insert_eq. cbn [default].
  replace (S (length s4) - length s4)%nat with 1%nat by lia.
  apply orb_true_iff in Habc as [Habc|Habc];
    [apply orb_true_iff in Habc as [Habc|Habc]|];
    apply N.eqb_eq in Habc; subst y; reflexivity.
Qed.

Lemma exec_from_match r s rest c :
  exec r s = Some (rest, c) -> exists s', match_here r s' = Some (rest, c).
Proof.
  induction s as [|x s IH]; cbn [exec].
  - destruct (match_here r []) as [m|] eqn:Hm; [|done]. intros [= ->]. eauto.
  - destruct (match_here r (x :: s)) as [m|] eqn:Hm; [|exact IH]. intros [= ->]. eauto.
Qed.

Lemma exec_loop_captures (P : captures -> Prop) r :
  (forall s rest c, match_here r s = Some (rest, c) -> P c) ->
  forall n s ms, exec_loop n r s = Some ms -> Forall P ms.
Proof.
  intros HP. induction n as [|n IH]; intros s ms; cbn [exec_loop].
  - destruct (exec r s) as [[rest c]|]; [done|]. intros [= <-]. constructor.
  - destruct (exec r s) as [[rest c]|] eqn:He; [|intros [= <-]; constructor].
    destruct (_ <? _)%nat; [|done].
    destruct (exec_loop n r rest) as [ms'|] eqn:Hl; [|done]. cbn [option_map].
    intros [= <-]. constructor; [|by eapply IH].
    apply exec_from_match in He as [s' He]. by eapply HP.
Qed.

(** So [answerErrors] stays empty. *)
Lemma parse_answers_no_errors s answers errs :
  parse_answers s = Some (answers, errs) -> errs = [].
Proof.
  unfold parse_answers, exec_all.
  destruct (exec_loop (length s) answerRegex s) as [ms|] eqn:He; [|done].
  apply (exec_loop_captures (fun m => valid_option (group m 2) = true)) in He;
    [|apply match_here_answer].
  cbn [option_map]. intros [= H].
  change errs with (snd (answers, errs)). rewrite <- H. clear H answers errs.
  assert (Hinit : snd ((∅, []) : gmap jsstring jsstring * list jsstring) = []) by done.
  revert Hinit. generalize ((∅, []) : gmap jsstring jsstring * list jsstring).
  induction He as [|m ms Hm _ IH]; intros acc Hacc; cbn [fold_left]; [done|].
  apply IH. destruct acc as [a e]. cbn [snd] in *. by rewrite Hm.
Qed.

Lemma check_questions_error qs : forall i e,
  check_questions i qs = Some e ->
  (exists j, e = EmptyQuestionText j) \/ (exists j, e = MissingOption j).
Proof.
  induction qs as [|q qs IH]; intros i e; cbn [check_questions]; [done|].
  destruct (negb _); [intros [= <-]; eauto|].
  destruct (_ || _); [intros [= <-]; eauto|]. apply IH.
Qed.

Lemma check_answers_error answers n : forall i e,
  check_answers i n answers = Some e -> exists num, e = MissingAnswer num.
Proof.
  induction n as [|n IH]; intros i e; cbn [check_answers]; [done|].
  destruct (answers !! _) as [[|x a]|]; [intros [= <-]; eauto | apply IH |
                                          intros [= <-]; eauto].
Qed.

Lemma parse_no_invalid content e nums :
  parse content = Some (inl e) -> e <> InvalidAnswers nums.
Proof.
  unfold parse. destruct (negb (truthy content)); [by intros [= <-]|].
  destruct (sections content) as [[[pc qt] at_]|]; [|by intros [= <-]].
  destruct (_ <? 1)%nat; [by intros [= <-]|].
  destruct (negb (truthy (trim (nth 0 _ [])))); [by intros [= <-]|].
  destruct (negb (truthy (trim (join_lines _)))); [by intros [= <-]|].
  destruct (parse_questions qt) as [qs|]; [|done].
  destruct (length qs =? 0)%nat; [by intros [= <-]|].
  destruct (check_questions 0 qs) as [e'|] eqn:Hcq.
  { intros [= <-]. by destruct (check_questions_error _ _ _ Hcq) as [[j ->]|[j ->]]. }
  destruct (parse_answers at_) as [[answers errs]|] eqn:Hpa; [|done].
  apply parse_answers_no_errors in Hpa as ->.
  destruct (size answers =? 0)%nat; [by intros [= <-]|].
  cbn [length Nat.ltb Nat.leb].
  destruct (negb _); [by intros [= <-]|].
  destruct (check_answers 0 (length qs) answers) as [e'|] eqn:Hca; [|done].
  intros [= <-]. by destruct (check_answers_error _ _ _ _ Hca) as [num ->].
Qed.

(** X20.  The importer never sends the refusal for an answer that is not
    A, B or C: its answer pattern finds these three letters only, so the
    test of the letter that follows never fails, on any text. *)
Theorem invalid_answers_never sch content d :
  exists r d',
    reading_import sch content d = Some (r, d')
    /\ forall s nums, r <> Failed s (InvalidAnswers nums).
Proof.
  destruct (reading_import_total sch content d) as [[r d'] Hi]. exists r, d'.
  split; [done|]. intros s nums ->. unfold reading_import in Hi.
  destruct (parse content) as [[e|p]|] eqn:Hp; [| |done].
  - injection Hi as _ He _. by apply (parse_no_invalid content e nums).
  - unfold persist in Hi. repeat case_match. done.
Qed.

End ReadingFacts.

(* ===================================================================== *)
(** * More of the reading submission *)
(* ===================================================================== *)

Section SubmitMore.
Import Js Sqlite Submit.
Variable toUpperCase : jsstring -> jsstring.

Lemma filter_of_map {A B} (p : B -> bool) (g : A -> B) l :
  List.filter p (List.map g l) = List.map g (List.filter (fun a => p (g a)) l).
Proof.
  induction l as [|a l IH]; simpl; [done|]. destruct (p (g a)); simpl; by rewrite IH.
Qed.

(** X21.  The reply of [POST /api/reading/submit-answers] is consistent
    and the request only adds to the test results: there is one result for
    each question of the passage, in the stored order, with its stored
    answer and the answer submitted under its id; [correctCount] counts the
    results marked correct and is at most [totalQuestions]; the words, the
    mistakes, the passages (their exposure too) and the questions stay, and
    the test results gain at most one row. *)
Theorem submit_results_consistent passageId answers d :
  passageId <> 0%Z ->
  exists b,
    fst (submit_answers toUpperCase passageId (Some answers) d) = Sent 200 b
    /\ length (results b) = totalQuestions b
    /\ correctCount b = length (List.filter isCorrect (results b))
    /\ correctCount b <= totalQuestions b
    /\ List.map questionId (results b) = List.map question_id (questions_of passageId d)
    /\ List.map correctAnswer (results b)
       = List.map correct_answer (questions_of passageId d)
    /\ Forall (fun r => userAnswer r = answers !! questionId r) (results b)
    /\ (let d' := snd (submit_answers toUpperCase passageId (Some answers) d) in
        words d' = words d /\ mistakes d' = mistakes d
        /\ reading_passages d' = reading_passages d
        /\ reading_questions d' = reading_questions d
        /\ exists new, rows (test_results d') = rows (test_results d) ++ new
                       /\ length new <= 1).
Proof.
  intros Hp. rewrite submit_answers_graded by done. cbn [fst snd].
  eexists. split; [reflexivity|]. cbn [results totalQuestions correctCount].
  split; [by rewrite length_map|].
  assert (Hc : length (List.filter isCorrect
                 (List.map (fun q =>
                    AnswerResult (question_id q) (answers !! question_id q)
                      (correct_answer q)
                      (is_correct toUpperCase (answers !! question_id q) q))
                    (questions_of passageId d)))
               = length (right_answers toUpperCase answers (questions_of passageId d))).
  { rewrite filter_of_map, length_map. done. }
  split; [by rewrite Hc|]. split; [apply filter_length_le|].
  split; [by rewrite List.map_map|]. split; [by rewrite List.map_map|].
  split.
  { apply Forall_forall. intros r Hr.
    apply list_elem_of_In, in_map_iff in Hr as (q & <- & _). done. }
  unfold try_insert_result. destruct (PrimFloat.is_nan _).
  - repeat (split; [done|]). exists []. split; [by rewrite app_nil_r | cbn; lia].
  - cbn. repeat (split; [done|]). eexists. split; [reflexivity|]. cbn. lia.
Qed.

(** X22.  Only the answers given under the ids of the passage's questions
    count: two submissions that agree on these ids get the same reply and
    leave the same store, whatever else they hold. *)
Theorem submit_other_ids_ignored passageId answers answers' d :
  passageId <> 0%Z ->
  (forall q, In q (questions_of passageId d) ->
     answers !! question_id q = answers' !! question_id q) ->
  submit_answers toUpperCase passageId (Some answers) d
  = submit_answers toUpperCase passageId (Some answers') d.
Proof.
  intros Hp Hsame. rewrite !submit_answers_graded by done.
  assert (Hr : right_answers toUpperCase answers (questions_of passageId d)
               = right_answers toUpperCase answers' (questions_of passageId d)).
  { unfold right_answers. apply filter_ext_in. intros q Hq. by rewrite (Hsame q Hq). }
  rewrite Hr. do 3 f_equal. apply map_ext_in. intros q Hq. by rewrite (Hsame q Hq).
Qed.

End SubmitMore.

Section SubmitMoreExamples.
Import Js Sqlite Submit.

Lemma submit_results_consistent_witness :
  exists b,
    fst (submit_answers ascii_upper 1 (Some one_right) two_questions) = Sent 200 b
    /\ length (results b) = totalQuestions b
    /\ correctCount b = length (List.filter isCorrect (results b))
    /\ correctCount b <= totalQuestions b
    /\ List.map questionId (results b) = [1%Z; 2%Z]
    /\ List.map correctAnswer (results b) = [lit "A"; lit "A"]
    /\ Forall (fun r => userAnswer r = one_right !! questionId r) (results b)
    /\ (let d' := snd (submit_answers ascii_upper 1 (Some one_right) two_questions) in
        words d' = words two_questions /\ mistakes d' = mistakes two_questions
        /\ reading_passages d' = reading_passages two_questions
        /\ reading_questions d' = reading_questions two_questions
        /\ exists new, rows (test_results d') = rows (test_results two_questions) ++ new
                       /\ length new <= 1).
Proof.
  apply (submit_results_consistent ascii_upper 1 one_right two_questions). lia.
Defined.

Lemma submit_other_ids_ignored_witness :
  submit_answers ascii_upper 1 (Some one_right) two_questions
  = submit_answers ascii_upper 1 (Some (<[9%Z := lit "C"]> one_right)) two_questions.
Proof.
  apply (submit_other_ids_ignored ascii_upper 1 one_right (<[9%Z := lit "C"]> one_right)
           two_questions); [lia|].
  intros q [<-|[<-|[]]]; reflexivity.
Defined.

End SubmitMoreExamples.

(* ===================================================================== *)
(** * The mistake tracker of [src/server.js] *)
(* ===================================================================== *)

Section VariantTracker.
Import Sqlite ServerJs ServerJsTracker.
Local Open Scope Z_scope.

Lemma find_none_existsb {A} (p : A -> bool) l : List.find p l = None -> existsb p l = false.
Proof.
  induction l as [|a l IH]; simpl; [done|]. destruct (p a); [done | exact IH].
Qed.

Lemma variant_add_fresh w d :
  w <> 0 -> lookup w d = None ->
  add_mistake w d
  = (Sent 201 (MistakeAdded (next_id (mistakes d))),
     Store (words d) (fst (insert (fun i => Mistake i w 1) (mistakes d)))).
Proof.
  unfold lookup. intros Hw Hn. unfold add_mistake.
  apply Z.eqb_neq in Hw. rewrite Hw, Hn.
  unfold get in Hn. by rewrite (find_none_existsb _ _ Hn).
Qed.

Lemma variant_lookup_add_fresh w d :
  w <> 0 -> lookup w d = None ->
  lookup w (snd (add_mistake w d)) = Some (Mistake (next_id (mistakes d)) w 1).
Proof.
  intros Hw Hn. rewrite (variant_add_fresh w d Hw Hn). unfold lookup, get in *. cbn.
  rewrite find_app_none by done. cbn. unfold by_word. cbn. by rewrite Z.eqb_refl.
Qed.

Lemma variant_lookup_add_again w d row :
  w <> 0 -> lookup w d = Some row ->
  lookup w (snd (add_mistake w d))
  = Some (Mistake (mistake_id row) w (mistake_count row + 1)).
Proof.
  unfold lookup. intros Hw Hs. unfold add_mistake.
  apply Z.eqb_neq in Hw. rewrite Hw, Hs. cbn. unfold get, update in *. cbn.
  rewrite find_map_if by done. rewrite Hs. cbn.
  apply find_some in Hs as [_ Hrow]. rewrite Hrow.
  unfold by_word in Hrow. apply Z.eqb_eq in Hrow. by rewrite Hrow.
Qed.

Lemma variant_lookup_correct w d row :
  lookup w d = Some row ->
  lookup w (snd (record_correct w d))
  = if mistake_count row - 1 <=? 0 then None
    else Some (Mistake (mistake_id row) w (mistake_count row - 1)).
Proof.
  unfold lookup. intros Hs. unfold record_correct. rewrite Hs.
  destruct (mistake_count row - 1 <=? 0); cbn; unfold get in *; cbn.
  - apply find_none_filter.
  - rewrite find_map_if by done. rewrite Hs. cbn.
    apply find_some in Hs as [_ Hrow]. rewrite Hrow.
    unfold by_word in Hrow. apply Z.eqb_eq in Hrow. by rewrite Hrow.
Qed.

Lemma variant_wrong_answers n w d :
  w <> 0 -> lookup w d = None ->
  lookup w (Nat.iter (S n) (fun d => snd (add_mistake w d)) d)
  = Some (Mistake (next_id (mistakes d)) w (Z.of_nat (S n))).
Proof.
  intros Hw Hn. induction n as [|n IH].
  - by apply variant_lookup_add_fresh.
  - change (Nat.iter (S (S n)) (fun d => snd (add_mistake w d)) d)
      with (snd (add_mistake w (Nat.iter (S n) (fun d => snd (add_mistake w d)) d))).
    rewrite (variant_lookup_add_again w _ _ Hw IH). cbn [mistake_id mistake_count].
    do 2 f_equal. lia.
Qed.

Lemma variant_correct_answers j : forall w d i c,
  1 <= c -> lookup w d = Some (Mistake i w c) ->
  lookup w (Nat.iter j (fun d => snd (record_correct w d)) d)
  = if Z.of_nat j <? c then Some (Mistake i w (c - Z.of_nat j)) else None.
Proof.
  induction j as [|j IH]; intros w d i c Hc Hs.
  - cbn [Nat.iter nat_rect]. rewrite Hs.
    destruct (Z.of_nat 0 <? c) eqn:Hlt; [do 2 f_equal; lia | apply Z.ltb_ge in Hlt; lia].
  - rewrite Nat.iter_succ_r. cbn beta.
    pose proof (variant_lookup_correct w d _ Hs) as Hstep.
    cbn [mistake_id mistake_count] in Hstep.
    destruct (c - 1 <=? 0) eqn:Hle.
    + apply Z.leb_le in Hle.
      assert (Hnone : forall k, lookup w (Nat.iter k (fun d => snd (record_correct w d))
                                          (snd (record_correct w d))) = None).
      { induction k as [|k IHk]; [done|].
        change (Nat.iter (S k) (fun d => snd (record_correct w d))
                  (snd (record_correct w d)))
          with (snd (record_correct w
                       (Nat.iter k (fun d => snd (record_correct w d))
                          (snd (record_correct w d))))).
        unfold record_correct at 1. unfold lookup in IHk. by rewrite IHk. }
      rewrite Hnone. destruct (Z.of_nat (S j) <? c) eqn:Hlt; [|done].
      apply Z.ltb_lt in Hlt. lia.
    + apply Z.leb_gt in Hle. rewrite (IH w _ i (c - 1)) by (lia || done).
      destruct (Z.of_nat j <? c - 1) eqn:H1; destruct (Z.of_nat (S j) <? c) eqn:H2;
        try (apply Z.ltb_lt in H1); try (apply Z.ltb_lt in H2);
        try (apply Z.ltb_ge in H1); try (apply Z.ltb_ge in H2); try lia; [|done].
      do 2 f_equal. lia.
Qed.

(** X23.  The other forgiveness policy, of [src/server.js]: after [n + 1]
    wrong answers for a word without a row, each correct answer takes one
    from the count; the row is there with [n + 1 - j] after [j] correct
    answers as long as [j] is at most [n], and it is gone from the
    [n + 1]th on. *)
Theorem variant_forgiveness n j w d :
  w <> 0 ->
  lookup w d = None ->
  lookup w (Nat.iter j (fun d => snd (record_correct w d))
              (Nat.iter (S n) (fun d => snd (add_mistake w d)) d))
  = if (j <=? n)%nat
    then Some (Mistake (next_id (mistakes d)) w (Z.of_nat (S n) - Z.of_nat j))
    else None.
Proof.
  intros Hw Hn.
  rewrite (variant_correct_answers j w _ (next_id (mistakes d)) (Z.of_nat (S n)));
    [| lia | by apply variant_wrong_answers].
  destruct (j <=? n)%nat eqn:H1; destruct (Z.of_nat j <? Z.of_nat (S n)) eqn:H2;
    try done.
  - apply Nat.leb_le in H1. apply Z.ltb_ge in H2. lia.
  - apply Nat.leb_gt in H1. apply Z.ltb_lt in H2. lia.
Qed.

Lemma variant_forgiveness_witness :
  lookup 7 (Nat.iter 2 (fun d => snd (record_correct 7 d))
              (Nat.iter 3 (fun d => snd (add_mistake 7 d)) (Store empty empty)))
  = Some (Mistake 1 7 1)
  /\ lookup 7 (Nat.iter 3 (fun d => snd (record_correct 7 d))
                 (Nat.iter 3 (fun d => snd (add_mistake 7 d)) (Store empty empty)))
     = None.
Proof.
  assert (H7 : 7 <> 0) by lia.
  split.
  - exact (variant_forgiveness 2 2 7 (Store empty empty) H7 eq_refl).
  - exact (variant_forgiveness 2 3 7 (Store empty empty) H7 eq_refl).
Defined.

Lemma variant_handle_invariant r d :
  NoDup (List.map word_id (rows (mistakes d)))
  /\ Forall (fun m => 1 <= mistake_count m) (rows (mistakes d)) ->
  NoDup (List.map word_id (rows (mistakes (handle r d))))
  /\ Forall (fun m => 1 <= mistake_count m) (rows (mistakes (handle r d))).
Proof.
  intros [Hnd Hc]. destruct r as [w|w|i|]; cbn [handle].
  - unfold add_mistake. destruct (w =? 0); [done|].
    destruct (get (by_word w) (mistakes d)) as [row|] eqn:Hg.
    + cbn. split; [by rewrite map_map_if|].
      apply Forall_forall. intros x Hx.
      apply list_elem_of_In, in_map_iff in Hx as (m & <- & Hin).
      rewrite Forall_forall in Hc. apply list_elem_of_In in Hin.
      specialize (Hc m Hin). destruct (by_word w m); cbn; lia.
    + destruct (existsb _ _); [done|]. cbn. split.
      * rewrite List.map_app. cbn [List.map]. apply NoDup_app. split; [done|].
        split; [|apply NoDup_singleton].
        intros x Hx Hn. apply list_elem_of_singleton in Hn. subst x.
        apply list_elem_of_In, in_map_iff in Hx as (m & Hm & Hin).
        unfold get in Hg. apply find_none_forall in Hg. rewrite Forall_forall in Hg.
        apply list_elem_of_In in Hin. specialize (Hg m Hin). simpl in Hg.
        unfold by_word in Hg. apply Z.eqb_neq in Hg. done.
      * apply Forall_app. split; [done|]. repeat constructor. cbn. lia.
  - unfold record_correct. destruct (get (by_word w) (mistakes d)) as [row|]; [|done].
    destruct (mistake_count row - 1 <=? 0) eqn:Hle; cbn.
    + split; [by apply NoDup_map_filter | by apply Forall_filter_keep].
    + split; [by rewrite map_map_if|]. apply Z.leb_gt in Hle.
      apply Forall_forall. intros x Hx.
      apply list_elem_of_In, in_map_iff in Hx as (m & <- & Hin).
      rewrite Forall_forall in Hc. apply list_elem_of_In in Hin.
      specialize (Hc m Hin). destruct (by_word w m); cbn; lia.
  - cbn. split; [by apply NoDup_map_filter | by apply Forall_filter_keep].
  - cbn. split; [apply NoDup_nil_2 | constructor].
Qed.

(** X24.  The tracker of [src/server.js] on every store its four
    requests reach: a word has at most one row, every row counts at least
    one mistake, and the unique index on [word_id] is never met (no request
    gets the 500 of a constraint). *)
Theorem variant_tracker_invariant d :
  reachable d ->
  NoDup (List.map word_id (rows (mistakes d)))
  /\ Forall (fun m => 1 <= mistake_count m) (rows (mistakes d))
  /\ forall w, fst (add_mistake w d) <> Failed 500 Constraint.
Proof.
  intros Hr.
  assert (Hinv : NoDup (List.map word_id (rows (mistakes d)))
                 /\ Forall (fun m => 1 <= mistake_count m) (rows (mistakes d))).
  { induction Hr as [|r d _ IH]; [|by apply variant_handle_invariant].
    split; [apply NoDup_nil_2 | constructor]. }
  destruct Hinv as [Hnd Hc]. split; [done|]. split; [done|].
  intros w. unfold add_mistake. destruct (w =? 0); [done|].
  destruct (get (by_word w) (mistakes d)) as [row|] eqn:Hg; [done|].
  unfold get in Hg. by rewrite (find_none_existsb _ _ Hg).
Qed.

Lemma variant_tracker_invariant_witness :
  let d := handle (RecordCorrect 7) (handle (AddMistake 7) (handle (AddMistake 7)
             (Store empty empty))) in
  NoDup (List.map word_id (rows (mistakes d)))
  /\ Forall (fun m => 1 <= mistake_count m) (rows (mistakes d)).
Proof.
  intros d.
  assert (Hr : reachable d).
  { apply (reach_step (RecordCorrect 7)), (reach_step (AddMistake 7)),
      (reach_step (AddMistake 7)). apply reach_initial. }
  destruct (variant_tracker_invariant d Hr) as (H1 & H2 & _).
  split; [exact H1 | exact H2].
Defined.

End VariantTracker.

(* ===================================================================== *)
(** * The word requests of [src/server.js] *)
(* ===================================================================== *)

Section VariantWords.
Import Js Sqlite ServerJs.
Local Open Scope Z_scope.

Lemma changes_found {A} (p : A -> bool) t r :
  get p t = Some r -> (changes p t =? 0)%nat = false.
Proof.
  unfold get, changes. intros Hf. apply Nat.eqb_neq. intros H0.
  apply filter_none_changes in H0. congruence.
Qed.

Lemma changes_absent {A} (p : A -> bool) t :
  get p t = None -> (changes p t =? 0)%nat = true.
Proof. unfold get, changes. intros Hf. by rewrite (find_none_changes _ _ Hf). Qed.

Lemma find_other_id j id (f : word -> word) l :
  j <> id -> (forall r, word_id_of (f r) = word_id_of r) ->
  List.find (Words.by_id j) (List.map (fun r => if Words.by_id id r then f r else r) l)
  = List.find (Words.by_id j) l.
Proof.
  intros Hj Hf. rewrite find_map_if.
  - destruct (List.find (Words.by_id j) l) as [r|] eqn:Hr; [|done]. cbn.
    apply find_some in Hr as [_ Hr]. unfold Words.by_id in *.
    apply Z.eqb_eq in Hr. assert (Hne : (word_id_of r =? id) = false)
      by (apply Z.eqb_neq; lia). by rewrite Hne.
  - intros r. unfold Words.by_id. by rewrite Hf.
Qed.

(** X25.  update-stats of [src/server.js]: an id that no stored word has
    gets 404 and nothing changes; for a stored word the reply is 200,
    exposure goes up by one and familiarity goes up by one after a correct
    answer and down by one after a wrong one (below 0 too), and every other
    id reads as before. *)
Theorem variant_update_stats id b d :
  match get (Words.by_id id) (words d) with
  | None => update_stats id b d = (Failed 404 WordNotFound, d)
  | Some w =>
      fst (update_stats id b d) = Sent 200 StatsUpdated
      /\ get (Words.by_id id) (words (snd (update_stats id b d)))
         = Some (Word id (english w) (chinese w) (example w)
                   (familiarity w + (if b then 1 else -1)) (exposure w + 1))
      /\ mistakes (snd (update_stats id b d)) = mistakes d
      /\ forall j, j <> id ->
           get (Words.by_id j) (words (snd (update_stats id b d)))
           = get (Words.by_id j) (words d)
  end.
Proof.
  destruct (get (Words.by_id id) (words d)) as [w|] eqn:Hg; unfold update_stats.
  - rewrite (changes_found _ _ _ Hg). cbn [fst snd words mistakes].
    split; [done|]. split; [|split; [done|]].
    + unfold get, update in *. cbn [rows]. rewrite find_map_if by done. rewrite Hg.
      cbn. apply find_some in Hg as [_ Hw]. rewrite Hw.
      unfold Words.by_id in Hw. apply Z.eqb_eq in Hw. by rewrite Hw.
    + intros j Hj. unfold get, update. cbn [rows]. by apply find_other_id.
  - by rewrite (changes_absent _ _ Hg).
Qed.

Lemma update_one_english id e (f : word -> word) l :
  (forall r, english (f r) = e) ->
  NoDup (List.map word_id_of l) ->
  NoDup (List.map english l) ->
  (forall r, In r l -> english r = e -> word_id_of r = id) ->
  NoDup (List.map english (List.map (fun r => if Words.by_id id r then f r else r) l)).
Proof.
  intros Hf. induction l as [|a l IH]; intros Hid He Hdup; cbn [List.map]; [done|].
  cbn [List.map] in Hid, He. apply NoDup_cons in Hid as [Ha Hid].
  apply NoDup_cons in He as [Hea He].
  apply NoDup_cons. split.
  - intros Hin. apply list_elem_of_In, in_map_iff in Hin as (x & Hx & Hin).
    apply in_map_iff in Hin as (r & <- & Hr).
    destruct (Words.by_id id a) eqn:Hida.
    + rewrite Hf in Hx. unfold Words.by_id in Hida. apply Z.eqb_eq in Hida.
      destruct (Words.by_id id r) eqn:Hidr.
      * unfold Words.by_id in Hidr. apply Z.eqb_eq in Hidr. apply Ha.
        apply list_elem_of_In, in_map_iff. exists r. split; [lia | done].
      * assert (word_id_of r = id) by (apply Hdup; [by right | done]).
        unfold Words.by_id in Hidr. apply Z.eqb_neq in Hidr. done.
    + destruct (Words.by_id id r) eqn:Hidr.
      * rewrite Hf in Hx. assert (word_id_of a = id) by (apply Hdup; [by left | done]).
        unfold Words.by_id in Hida. apply Z.eqb_neq in Hida. done.
      * apply Hea. apply list_elem_of_In, in_map_iff. by exists r.
  - apply IH; [done | done |]. intros r Hr. apply Hdup. by right.
Qed.

(** X26.  [PUT /api/words/:id] of [src/server.js], for a request with both
    fields and a table with distinct ids and distinct english texts: when
    another word has exactly the text of the english sent the reply is 409
    and nothing changes; otherwise an id that is not stored gets 404 and
    nothing changes, and a stored word takes the text of the three fields
    (the field itself when it has no lone surrogate; an absent example
    becoming the empty text) and keeps its counters, the english texts stay
    distinct and every other id reads as before. *)
Theorem variant_update_word id e c x d :
  truthy e = true -> truthy c = true ->
  NoDup (List.map word_id_of (rows (words d))) ->
  NoDup (List.map english (rows (words d))) ->
  match get (fun w => bool_decide (english w = TEXT e) && negb (word_id_of w =? id))
          (words d) with
  | Some _ => update_word id e c x d = (Failed 409 AlreadyExists, d)
  | None =>
      match get (Words.by_id id) (words d) with
      | None => update_word id e c x d = (Failed 404 WordNotFound, d)
      | Some w =>
          fst (update_word id e c x d) = Sent 200 (WordUpdated id e c x)
          /\ get (Words.by_id id) (words (snd (update_word id e c x d)))
             = Some (Word id (TEXT e) (TEXT c) (Some (TEXT (default [] x)))
                       (familiarity w) (exposure w))
          /\ (well_formed e -> well_formed c -> well_formed (default [] x) ->
              get (Words.by_id id) (words (snd (update_word id e c x d)))
              = Some (Word id e c (Some (default [] x)) (familiarity w) (exposure w)))
          /\ NoDup (List.map english (rows (words (snd (update_word id e c x d)))))
          /\ forall j, j <> id ->
               get (Words.by_id j) (words (snd (update_word id e c x d)))
               = get (Words.by_id j) (words d)
      end
  end.
Proof.
  intros He Hc Hids Hens. unfold update_word. rewrite He, Hc. cbn [negb orb].
  destruct (get (fun w => _ && _) (words d)) as [w'|] eqn:Hdup; [done|].
  destruct (get (Words.by_id id) (words d)) as [w|] eqn:Hg.
  - rewrite (changes_found _ _ _ Hg). cbn [fst snd words].
    assert (Hread : get (Words.by_id id)
                      (update (Words.by_id id)
                         (Words.set_fields (TEXT e) (TEXT c) (Some (TEXT (default [] x))))
                         (words d))
                    = Some (Word id (TEXT e) (TEXT c) (Some (TEXT (default [] x)))
                              (familiarity w) (exposure w))).
    { unfold get, update in *. cbn [rows]. rewrite find_map_if by done. rewrite Hg.
      cbn. apply find_some in Hg as [_ Hw]. rewrite Hw.
      unfold Words.by_id in Hw. apply Z.eqb_eq in Hw. unfold Words.set_fields.
      by rewrite Hw. }
    split; [done|]. split; [exact Hread|]. split; [|split].
    + intros We Wc Wx. rewrite Hread. unfold well_formed in *. by rewrite We, Wc, Wx.
    + unfold update. cbn [rows]. apply (update_one_english id (TEXT e)); try done.
      intros r Hr Hre. unfold get in Hdup. apply find_none_forall in Hdup.
      rewrite Forall_forall in Hdup. apply list_elem_of_In in Hr.
      specialize (Hdup r Hr). cbn in Hdup.
      rewrite bool_decide_eq_true_2 in Hdup by done. cbn in Hdup.
      apply negb_false_iff, Z.eqb_eq in Hdup. done.
    + intros j Hj. unfold get, update. cbn [rows]. by apply find_other_id.
  - by rewrite (changes_absent _ _ Hg).
Qed.

End VariantWords.

Section VariantWordsExamples.
Import Js Sqlite ServerJs.
Local Open Scope Z_scope.

Lemma variant_update_word_witness :
  let d := Store (Sqlite.words Words.two_words) empty in
  update_word 2 (lit "apple") (lit "li") None d = (Failed 409 AlreadyExists, d)
  /\ update_word 9 (lit "fig") (lit "wuhuaguo") None d = (Failed 404 WordNotFound, d)
  /\ get (Words.by_id 2)
       (words (snd (update_word 2 (lit "Apple") (0xDC00%N :: lit "li") None d)))
     = Some (Word 2 (lit "Apple") (0xFFFD%N :: lit "li") (Some []) 0 0).
Proof.
  intros d.
  assert (Hids : NoDup (List.map word_id_of (rows (words d)))).
  { cbn. apply NoDup_cons. split; [|apply NoDup_singleton].
    intros Hin. apply list_elem_of_singleton in Hin. discriminate. }
  assert (Hens : NoDup (List.map english (rows (words d)))).
  { cbn. apply NoDup_cons. split; [|apply NoDup_singleton].
    intros Hin. apply list_elem_of_singleton in Hin. discriminate. }
  split; [|split].
  - exact (variant_update_word 2 (lit "apple") (lit "li") None d eq_refl eq_refl Hids Hens).
  - exact (variant_update_word 9 (lit "fig") (lit "wuhuaguo") None d eq_refl eq_refl
             Hids Hens).
  - exact (proj1 (proj2 (variant_update_word 2 (lit "Apple") (0xDC00%N :: lit "li") None d
                           eq_refl eq_refl Hids Hens))).
Defined.

End VariantWordsExamples.
